(** * Task graph: graph mutation engine and synchronisation engine

    A shallow embedding of the graph operations of [src/app/components.js]
    ([recursiveDelete], [createChildNode], [updateNode], [onNodeDragStop],
    [collectDescendants], [deleteNodeById], [onSelectionChange], the edge
    builders and the keyboard handler), of
    [normalizeVisibilityOnFirstLoad] of [src/app/persistence.js], of the two
    derivation passes and the sidebar of the home page (recurring-task
    advancement, depth recomputation, the list of tasks due), and of the two
    save paths ([useGoogleDriveState] and the retrying writer of
    [useDriveBackedState]), followed by the properties proved about them. *)

From Stdlib Require Import ZArith String Ascii List Lia Bool.
From Stdlib Require Import DecimalString Floats Uint63.
From stdpp Require Import gmap strings list fin_maps sorting.

Local Open Scope string_scope.
Local Open Scope list_scope.
Local Open Scope nat_scope.

(* ===================================================================== *)
(** * Part I: definitions                                                 *)
(* ===================================================================== *)

(** ** Data model

    A node is a plain JavaScript object.  Each field is optional: [None]
    stands for a field that is absent, [undefined] or [null] (the code reads
    every field through [?.], [??], [||] or a truthiness test, which do not
    tell the three apart).  A field that is present has the type the data
    model gives it: [children] is an array of identifiers, [depth] and
    [repeatDays] are integers, [dueDate] is a text; identifiers are
    strings. *)

Record Node := mkNode {
  title : option string;
  type : option string;
  children : option (list string);
  visible : option bool;
  completed : option bool;
  dueDate : option string;
  repeatDays : option Z;
  depth : option Z;
  content : option string
}.

#[export] Instance Node_eq_dec : EqDecision Node.
Proof. solve_decision. Defined.

(** The graph [userData]: an object used as a map from identifier to node. *)
Abbreviation Graph := (gmap string Node).

(** [{ ...n, children: cs }] *)
Definition setChildren (cs : list string) (n : Node) : Node :=
  mkNode (title n) (type n) (Some cs) (visible n) (completed n)
         (dueDate n) (repeatDays n) (depth n) (content n).

(** [{ ...n, depth: d }] *)
Definition setDepth (d : Z) (n : Node) : Node :=
  mkNode (title n) (type n) (children n) (visible n) (completed n)
         (dueDate n) (repeatDays n) (Some d) (content n).

(** [{ ...n, dueDate: s, completed: false }] *)
Definition setDueAndReopen (s : string) (n : Node) : Node :=
  mkNode (title n) (type n) (children n) (visible n) (Some false)
         (Some s) (repeatDays n) (depth n) (content n).

(** [data[id]?.children || []]: the children array of an entry that may be
    missing. *)
Definition childrenOf (o : option Node) : list string :=
  default [] (o ≫= children).

(** ** [recursiveDelete] (components.js, lines 640-673) *)

(** Step 1, the [while (stack.length)] loop.  The stack is a list whose head
    is the top ([stack.pop()]); pushing [c1 .. cn] in order leaves [cn] on
    top.  One unit of fuel is one iteration of the loop. *)
Fixpoint collectLoop (fuel : nat) (data : Graph) (stack : list string)
    (toDelete : gset string) : option (gset string) :=
  match fuel with
  | O => None
  | S fuel' =>
      match stack with
      | [] => Some toDelete
      | current :: stack' =>
          if decide (current ∈ toDelete) then
            collectLoop fuel' data stack' toDelete
          else
            collectLoop fuel' data
              (reverse (childrenOf (data !! current)) ++ stack')
              (toDelete ∪ {[current]})
      end
  end.

(** Number of children entries of the whole graph. *)
Definition edgeCount (data : Graph) : nat :=
  sum_list ((λ kv, length (childrenOf (Some kv.2))) <$> map_to_list data).

(** Children entries of the nodes of [l] that are not in [V]: what the loop
    may still push once the identifiers of [V] are visited. *)
Definition pendingWeight (l : list (string * Node)) (V : gset string) : nat :=
  sum_list ((λ kv, if decide (kv.1 ∈ V) then 0
                   else length (childrenOf (Some kv.2))) <$> l).

(** Iterations granted to the loop: every iteration pops one entry, and at
    most [1 + edgeCount data] entries are ever pushed. *)
Definition collectFuel (data : Graph) : nat := 2 + edgeCount data.

(** Step 2, [for (const id of toDelete) delete newData[id]]. *)
Definition deleteAll (toDelete : gset string) (data : Graph) : Graph :=
  foldr delete data (elements toDelete).

(** Step 3, the body of [for (const key in newData)]. *)
Definition stripNode (toDelete : gset string) (n : Node) : Node :=
  match children n with
  | Some cs =>
      if (0 <? length cs)%nat then
        let filtered := filter (λ cid, cid ∉ toDelete) cs in
        if decide (length filtered ≠ length cs) then setChildren filtered n
        else n
      else n
  | None => n
  end.

(** [recursiveDelete(nodeId, data)]; [None] only if the loop ran out of
    fuel, which does not happen ([recursiveDelete_lookup]). *)
Definition recursiveDelete (nodeId : string) (data : Graph) : option Graph :=
  toDelete ← collectLoop (collectFuel data) data [nodeId] ∅;
  Some (stripNode toDelete <$> deleteAll toDelete data).

(** [deleteNodeById]: the root is never deleted. *)
Definition deleteNodeById (id : string) (data : Graph) : option Graph :=
  if decide (id = "root") then Some data else recursiveDelete id data.

(** The children relation of a graph and its reflexive-transitive closure:
    [descendant G x d] holds for [x] itself and for every transitive
    descendant of [x]. *)
Definition childRel (G : Graph) (a b : string) : Prop :=
  b ∈ childrenOf (G !! a).

Definition descendant (G : Graph) : string → string → Prop := rtc (childRel G).

(** ** Partial objects and spreading

    [overrides] and [patch] are object literals that mention only some
    fields.  For each field, [None] says that the literal does not mention
    it, [Some v] that it sets it to [v] ([v = None] for an explicit [null] or
    [undefined]). *)

Record Patch := mkPatch {
  p_title : option (option string);
  p_type : option (option string);
  p_children : option (option (list string));
  p_visible : option (option bool);
  p_completed : option (option bool);
  p_dueDate : option (option string);
  p_repeatDays : option (option Z);
  p_depth : option (option Z);
  p_content : option (option string)
}.

(** [{}] as a patch and as a node. *)
Definition emptyPatch : Patch :=
  mkPatch None None None None None None None None None.

Definition emptyNode : Node :=
  mkNode None None None None None None None None None.

(** [{ ...n, ...p }]: a field mentioned by [p] wins. *)
Definition spread (n : Node) (p : Patch) : Node :=
  mkNode (default (title n) (p_title p))
         (default (type n) (p_type p))
         (default (children n) (p_children p))
         (default (visible n) (p_visible p))
         (default (completed n) (p_completed p))
         (default (dueDate n) (p_dueDate p))
         (default (repeatDays n) (p_repeatDays p))
         (default (depth n) (p_depth p))
         (default (content n) (p_content p)).

(** [{ ...prev[id] }] where [prev[id]] may be [undefined]: spreading
    [undefined] contributes no field. *)
Definition objectOf (o : option Node) : Node := default emptyNode o.

(** ** [createChildNode] (components.js, lines 267-320)

    [newId] is the value returned by [generateId()].  The closure's
    [userData] and the updater's [prev] are the same graph.  The bookkeeping
    of the initial screen position and of the pending selection does not
    touch the graph and is left out.

    Depths are integers, and [parentDepth + 1] is their sum: this is the
    sum of JS for the depths a number holds exactly together with their
    successor, those from [-2^53] to [2^53 - 1]. *)

(** The literal that [overrides] is spread over (lines 297-303). *)
Definition childDefaults : Node :=
  mkNode (Some "") (Some "task") (Some []) (Some true) (Some false)
         None (Some 0%Z) None None.

Definition createChildNode (newId parentId : string) (overrides : Patch)
    (prev : Graph) : Graph :=
  let parentDepth := default 0%Z (prev !! parentId ≫= depth) in
  let newNode := setDepth (parentDepth + 1) (spread childDefaults overrides) in
  <[parentId := setChildren (childrenOf (prev !! parentId) ++ [newId])
                            (objectOf (prev !! parentId))]>
    (<[newId := newNode]> prev).

(** [generateId] (lines 257-264): what [crypto.randomUUID()] returns or,
    when that call throws, a name made of [Date.now().toString(36)] and of
    [Math.random().toString(36)].  Both come from the host; the code
    compares neither with the keys of the graph. *)
Inductive IdSource :=
  | RandomUUID (uuid : string)
  | ClockAndDraw (now36 random36 : string).

Definition generateId (host : IdSource) : string :=
  match host with
  | RandomUUID uuid => uuid
  | ClockAndDraw now36 random36 =>
      "n_" +:+ now36 +:+ "_" +:+ substring 2 5 random36
  end.


(** ** [updateNode] (components.js, lines 179-185)

    [setUserData(prev => ({ ...prev, [id]: { ...prev[id], ...patch } }))]. *)
Definition updateNode (id : string) (patch : Patch) (prev : Graph) : Graph :=
  <[id := spread (objectOf (prev !! id)) patch]> prev.

(** ** [onNodeDragStop] (components.js, lines 389-435)

    Positions are numbers of which the handler only uses the order and the
    equality; they are taken in [Z].  [None] is a missing entry of
    [posById], read as [Number.POSITIVE_INFINITY]. *)

(** A React Flow node as far as the handler reads it: [n.id] and
    [n.position?.y]. *)
Record FlowNode := mkFlowNode { fn_id : string; fn_y : option Z }.

(** [new Map(nodes.map((n) => [n.id, n.position?.y ?? 0]))]; a later entry
    replaces an earlier one with the same key. *)
Definition posByIdOf (nodes : list FlowNode) : gmap string Z :=
  foldl (λ m n, <[fn_id n := default 0%Z (fn_y n)]> m) ∅ nodes.

(** [new Map(sibs.map((id, idx) => [id, idx]))], entries added from index
    [i] on. *)
Fixpoint indexFrom (i : nat) (sibs : list string) (m : gmap string nat)
    : gmap string nat :=
  match sibs with
  | [] => m
  | id :: rest => indexFrom (S i) rest (<[id := i]> m)
  end.

Definition orderIndexOf (sibs : list string) : gmap string nat :=
  indexFrom 0 sibs ∅.

(** Sign of [ya - yb] when [ya !== yb]. *)
Definition compareY (ya yb : option Z) : comparison :=
  match ya, yb with
  | Some a, Some b => (a ?= b)%Z
  | Some _, None => Lt
  | None, Some _ => Gt
  | None, None => Eq
  end.

(** The comparator handed to [sort], as the sign of its result. *)
Definition siblingCompare (posById : gmap string Z)
    (orderIndex : gmap string nat) (a b : string) : comparison :=
  let ya := posById !! a in
  let yb := posById !! b in
  if decide (ya ≠ yb) then compareY ya yb
  else default 0 (orderIndex !! a) ?= default 0 (orderIndex !! b).

(** [Array.prototype.sort] is a stable sort; with a comparator that is a
    total preorder its result is the one stable sorted arrangement, computed
    here by insertion from the right. *)
Fixpoint insertSorted (cmp : string → string → comparison) (x : string)
    (l : list string) : list string :=
  match l with
  | [] => [x]
  | y :: l' =>
      match cmp x y with
      | Gt => y :: insertSorted cmp x l'
      | _ => x :: l
      end
  end.

Definition stableSort (cmp : string → string → comparison)
    (l : list string) : list string :=
  foldr (insertSorted cmp) [] l.

(** [a] may stand before [b]: the comparator is not positive. *)
Definition mayPrecede (posById : gmap string Z) (oi : gmap string nat)
    (a b : string) : Prop :=
  siblingCompare posById oi a b ≠ Gt.

(** Lines 407-432, once [parentId] is known: the reordering of the children
    of [parentId] by position.  The handler only gets here with a
    [parentId] that is a key of [userData]. *)
Definition reorderChildrenByPosition (posById : gmap string Z)
    (parentId : string) (userData : Graph) : Graph :=
  match userData !! parentId with
  | None => userData
  | Some parent =>
      let sibs := default [] (children parent) in
      if length sibs <=? 1 then userData
      else
        let sorted :=
          stableSort (siblingCompare posById (orderIndexOf sibs)) sibs in
        if decide (sibs = sorted) then userData
        else <[parentId := setChildren sorted parent]> userData
  end.

(** Lines 398-404: the first entry, in the enumeration order of
    [Object.entries], whose children include the dragged node. *)
Definition findParent (entries : list (string * Node)) (draggedId : string)
    : option string :=
  fst <$> find (λ kv, bool_decide (draggedId ∈ childrenOf (Some kv.2))) entries.

(** [Object.entries(userData)], for [keys] the order in which the engine
    enumerates the keys of [userData]. *)
Definition entriesIn (keys : list string) (userData : Graph)
    : list (string * Node) :=
  omap (λ k, (λ n, (k, n)) <$> userData !! k) keys.

Definition onNodeDragStop (keys : list string) (nodes : list FlowNode)
    (draggedId : string) (userData : Graph) : Graph :=
  if decide (draggedId = "") then userData
  else
    match findParent (entriesIn keys userData) draggedId with
    | None => userData
    | Some parentId =>
        if decide (parentId = "") then userData
        else reorderChildrenByPosition (posByIdOf nodes) parentId userData
    end.

(** ** Depth recomputation (home page, src/unnamed/part_002, lines
    115-150) *)

(** [for (const cid of children)] for a dequeued node of depth [d]:
    a child that is a key of [prev] and has no depth yet, or a larger one,
    gets [d + 1] and is queued. *)
Fixpoint relaxChildren (prev : Graph) (d : Z) (cs : list string)
    (q : list string) (targetDepth : gmap string Z)
    : list string * gmap string Z :=
  match cs with
  | [] => (q, targetDepth)
  | cid :: rest =>
      match prev !! cid with
      | None => relaxChildren prev d rest q targetDepth
      | Some _ =>
          let nd := (d + 1)%Z in
          let shorter :=
            match targetDepth !! cid with
            | None => true
            | Some cur => (nd <? cur)%Z
            end in
          if shorter then
            relaxChildren prev d rest (q ++ [cid]) (<[cid := nd]> targetDepth)
          else relaxChildren prev d rest q targetDepth
      end
  end.

(** [targetDepth.get(id)] for a queued [id]; every queued identifier has an
    entry (part of [bfsInv] below), so the default is never used. *)
Definition depthIn (targetDepth : gmap string Z) (id : string) : Z :=
  default 0%Z (targetDepth !! id).

(** [while (q.length)]: the head of the list is the front of the queue
    ([q.shift()]), [q.push] appends.  One unit of fuel is one iteration. *)
Fixpoint bfsLoop (fuel : nat) (prev : Graph) (q : list string)
    (targetDepth : gmap string Z) : option (gmap string Z) :=
  match fuel with
  | O => None
  | S fuel' =>
      match q with
      | [] => Some targetDepth
      | id :: q' =>
          let d := depthIn targetDepth id in
          let '(q'', targetDepth') :=
            relaxChildren prev d (childrenOf (prev !! id)) q' targetDepth in
          bfsLoop fuel' prev q'' targetDepth'
      end
  end.

(** The traversal from ["root"]; a node is dequeued at most once, so one
    iteration per key and one to see the empty queue are enough. *)
Definition targetDepths (prev : Graph) : option (gmap string Z) :=
  bfsLoop (S (size prev)) prev ["root"] {["root" := 0%Z]}.

(** Lines 139-147, for one entry. *)
Definition applyDepth (targetDepth : gmap string Z) (id : string)
    (node : Node) : Node :=
  match targetDepth !! id with
  | None => node
  | Some want =>
      if decide (depth node ≠ Some want) then setDepth want node else node
  end.

(** The updater of the effect; [None] only if the traversal ran out of
    fuel. *)
Definition recomputeDepths (prev : Graph) : option Graph :=
  match prev !! "root" with
  | None => Some prev
  | Some _ =>
      targetDepth ← targetDepths prev;
      Some (map_imap (λ id node, Some (applyDepth targetDepth id node)) prev)
  end.

(** An edge followed by the traversal: a child that is itself a key. *)
Definition nodeEdge (G : Graph) (a b : string) : Prop :=
  childRel G a b ∧ is_Some (G !! b).

(** A node reachable from ["root"] through the children relation. *)
Definition reachableNode (G : Graph) (x : string) : Prop :=
  is_Some (G !! x) ∧ descendant G "root" x.

(** The stored depth of a node of the graph, if any. *)
Definition depthAt (G : Graph) (x : string) : option Z := G !! x ≫= depth.

(** Invariant of the traversal, for the queue [q] and the depths recorded so
    far: the root is at 0; a recorded depth is the length of a path from the
    root; queued identifiers are recorded, in order of depth, and no
    recorded depth exceeds that of the front by more than one; the children
    of a recorded node that is out of the queue are recorded, at most one
    level below it; only keys are recorded. *)
Definition bfsInv (G : Graph) (q : list string) (td : gmap string Z) : Prop :=
  td !! "root" = Some 0%Z ∧
  (∀ x dx, td !! x = Some dx →
     ∃ n, dx = Z.of_nat n ∧ nsteps (nodeEdge G) n "root" x) ∧
  (∀ x, x ∈ q → is_Some (td !! x)) ∧
  StronglySorted (λ x y, (depthIn td x ≤ depthIn td y)%Z) q ∧
  (∀ h q', q = h :: q' →
     ∀ y dy, td !! y = Some dy → (dy ≤ depthIn td h + 1)%Z) ∧
  (∀ x dx, td !! x = Some dx → x ∉ q →
     ∀ c, nodeEdge G x c → ∃ dc, td !! c = Some dc ∧ (dc ≤ dx + 1)%Z) ∧
  (∀ x, is_Some (td !! x) → is_Some (G !! x)).

(** ** Recurring-task advancement (home page, src/unnamed/part_002, lines
    75-112)

    A [Date] set to local midnight is represented by the number of its
    local calendar day, counted from 1970-01-01; [today] is such a number.
    [due < today] compares two local midnights, and
    [due.setDate(due.getDate() + step)] moves by [step] calendar days.  A
    [Date] holds at most 100,000,000 days around 1970: past that range
    [new Date(...)] and [setDate] give an Invalid Date, on which every
    comparison is false and [toISOString] throws a [RangeError]. *)

(** What the embedding takes from the host: [Number] on the parts of the
    date text ([toNumber s = Some z] when [Number(s)] is the integer [z],
    [None] when it is [NaN] or infinite), and whether local time is ahead of
    UTC at the local midnight of a given day, which decides the calendar day
    that [toISOString] prints. *)
Class JsHost := {
  toNumber : string → option Z;
  utcAhead : Z → bool
}.

(** Day number of a date of the proleptic Gregorian calendar, and back. *)
Definition daysFromCivil (y m d : Z) : Z :=
  let y' := if (m <=? 2)%Z then (y - 1)%Z else y in
  let era := (y' / 400)%Z in
  let yoe := (y' - era * 400)%Z in
  let mp := if (2 <? m)%Z then (m - 3)%Z else (m + 9)%Z in
  let doy := ((153 * mp + 2) / 5 + d - 1)%Z in
  let doe := (yoe * 365 + yoe / 4 - yoe / 100 + doy)%Z in
  (era * 146097 + doe - 719468)%Z.

Definition civilFromDays (z : Z) : Z * Z * Z :=
  let z' := (z + 719468)%Z in
  let era := (z' / 146097)%Z in
  let doe := (z' - era * 146097)%Z in
  let yoe := ((doe - doe / 1460 + doe / 36524 - doe / 146096) / 365)%Z in
  let doy := (doe - (365 * yoe + yoe / 4 - yoe / 100))%Z in
  let mp := ((5 * doy + 2) / 153)%Z in
  let d := (doy - (153 * mp + 2) / 5 + 1)%Z in
  let m := if (mp <? 10)%Z then (mp + 3)%Z else (mp - 9)%Z in
  let y := (yoe + era * 400)%Z in
  (if (m <=? 2)%Z then (y + 1)%Z else y, m, d).

(** [new Date(year, month, day)]: a year from 0 to 99 means 1900 + year, a
    month index outside 0..11 carries into the year, and the day counts
    from the first of that month. *)
Definition makeDay (year month day : Z) : Z :=
  let year := if ((0 <=? year) && (year <=? 99))%Z then (1900 + year)%Z
              else year in
  let ym := (year + month / 12)%Z in
  let mn := (month mod 12)%Z in
  (daysFromCivil ym (mn + 1) 1 + day - 1)%Z.

(** [s.split(sep)] for a one-character separator. *)
Fixpoint splitOn (sep : ascii) (s : string) : list string :=
  match s with
  | EmptyString => [EmptyString]
  | String c rest =>
      if Ascii.eqb c sep then EmptyString :: splitOn sep rest
      else match splitOn sep rest with
           | [] => [String c EmptyString]
           | part :: parts => String c part :: parts
           end
  end.

(** Lines 86-94: the day of the date text, or [None] where the loop body
    says [continue]. *)
Definition parseDue `{JsHost} (s : string) : option Z :=
  match splitOn "-" s with
  | [p0; p1; p2] =>
      match toNumber p0, toNumber p1, toNumber p2 with
      | Some year, Some monthNumber, Some day =>
          let due := makeDay year (monthNumber - 1) day in
          if (Z.abs due <=? 100000000)%Z then Some due else None
      | _, _, _ => None
      end
  | _ => None
  end.

(** [while (due < today && guard < 1000)]; [left] is [1000 - guard].  The
    result is [None] when [setDate] has left the range of [Date]: [due] is
    then an Invalid Date, [due < today] is false and the loop ends. *)
Fixpoint advanceLoop (left : nat) (step today due : Z) : option Z :=
  match left with
  | O => Some due
  | S left' =>
      if (due <? today)%Z then
        let moved := (due + step)%Z in
        if (Z.abs moved <=? 100000000)%Z
        then advanceLoop left' step today moved
        else None
      else Some due
  end.

(** Decimal digits, zero-padded to a width. *)
Fixpoint padDigits (width : nat) (n : Z) : string :=
  match width with
  | O => ""
  | S w =>
      padDigits w (n / 10)
      +:+ String (ascii_of_nat (48 + Z.to_nat (n mod 10))) ""
  end.

(** [due.toISOString().slice(0, 10)] for the local midnight of day [due]:
    the UTC calendar day is the day before when local time is ahead of UTC.
    Years outside 0..9999 are printed with a sign and six digits. *)
Definition isoDate `{JsHost} (due : Z) : string :=
  let utcDay := if utcAhead due then (due - 1)%Z else due in
  let '(y, m, d) := civilFromDays utcDay in
  let year :=
    if ((0 <=? y) && (y <=? 9999))%Z then padDigits 4 y
    else (if (y <? 0)%Z then "-" else "+") +:+ padDigits 6 (Z.abs y) in
  substring 0 10 (year +:+ "-" +:+ padDigits 2 m +:+ "-" +:+ padDigits 2 d).

(** The body of [for (const [id, node] of Object.entries(prev))]: the entry
    that [next] holds for the node afterwards, or [None] when the body
    throws.  On an Invalid Date [due.getTime()] is [NaN], which differs from
    [originalTime], and [due.toISOString()] throws a [RangeError]. *)
Definition advanceNode `{JsHost} (today : Z) (node : Node) : option Node :=
  let hasDue :=                         (* node.dueDate is truthy *)
    match dueDate node with
    | Some s => negb (String.eqb s "")
    | None => false
    end in
  let repeats :=                        (* node.repeatDays > 0 *)
    match repeatDays node with
    | Some r => (0 <? r)%Z
    | None => false
    end in
  let isDone :=                         (* node.completed === true *)
    match completed node with
    | Some b => b
    | None => false
    end in
  if negb hasDue || negb repeats || negb isDone then Some node
  else
    match parseDue (default "" (dueDate node)) with
    | None => Some node
    | Some due =>
        if (today <=? due)%Z then Some node
        else
          let step := default 0%Z (repeatDays node) in
          if (step <=? 0)%Z then Some node
          else
            match advanceLoop 1000 step today due with
            | None => None
            | Some due' =>
                if decide (due' ≠ due)
                then Some (setDueAndReopen (isoDate due') node)
                else Some node
            end
    end.

(** The updater of the effect, for [today] the day of [new Date()] at local
    midnight: the graph it returns, or [None] when it throws.  It throws at
    the first entry whose body throws, and what it returns otherwise does
    not depend on the order of the entries. *)
Definition advanceRecurringTasks `{JsHost} (today : Z) (prev : Graph)
    : option Graph :=
  if decide (map_Forall (λ _ node, is_Some (advanceNode today node)) prev)
  then Some ((λ node, default node (advanceNode today node)) <$> prev)
  else None.

(** A host in the UTC time zone, with [Number] on strings of decimal
    digits (the empty string is 0). *)
Fixpoint digitsValue (acc : Z) (s : string) : option Z :=
  match s with
  | EmptyString => Some acc
  | String c rest =>
      let n := nat_of_ascii c in
      if (48 <=? n) && (n <=? 57) then
        digitsValue (10 * acc + Z.of_nat (n - 48))%Z rest
      else None
  end.

#[export] Instance utcHost : JsHost := {|
  toNumber := digitsValue 0%Z;
  utcAhead := λ _, false
|}.

(** ** The save path of [useGoogleDriveState] (googleAPI.js, lines 316-442)

    The hook keeps its state in refs; an event is a call made by React, by
    the timer or by the completion of the pending write.  Time is the order
    of the events: a timer that [clearTimeout] has cancelled never fires, so
    at most one timer is armed, and [hs_timer] says whether one is.
    [hs_writes] logs the payloads handed to [writeAppDataConfig], oldest
    first. *)

Inductive Status := Idle | Loading | Saving | NeedsAuth | Error.

Record HookState (A : Type) := mkHook {
  hs_mounted : bool;          (* mountedRef *)
  hs_loaded : bool;           (* loadedRef *)
  hs_requested : bool;        (* saveRequestedWhileLoadingRef *)
  hs_timer : bool;            (* an armed timer behind debounceRef *)
  hs_saving : bool;           (* savingRef *)
  hs_queued : bool;           (* queuedRef *)
  hs_latest : A;              (* latestRef *)
  hs_status : Status;         (* status *)
  hs_writes : list A          (* calls of writeAppDataConfig *)
}.

Arguments mkHook {A}.
Arguments hs_mounted {A}.
Arguments hs_loaded {A}.
Arguments hs_requested {A}.
Arguments hs_timer {A}.
Arguments hs_saving {A}.
Arguments hs_queued {A}.
Arguments hs_latest {A}.
Arguments hs_status {A}.
Arguments hs_writes {A}.

(** The argument of [setState]: a value or a function of the previous
    value. *)
Inductive Updater (A : Type) :=
  | UValue (v : A)
  | UFunction (f : A → A).

Arguments UValue {A}.
Arguments UFunction {A}.

Inductive HookEvent (A : Type) :=
  | SetState (updater : Updater A)   (* the setter returned by the hook *)
  | TimerFire                        (* the callback of setTimeout *)
  | WriteSettled                     (* the awaited write returns or throws *)
  | Flush                            (* flush() *)
  | LoadFinished (data : option A).  (* the awaited initial read returns *)

Arguments SetState {A}.
Arguments TimerFire {A}.
Arguments WriteSettled {A}.
Arguments Flush {A}.
Arguments LoadFinished {A}.

Section hook.
Context {A : Type}.
Variable autoSave : bool.

(** [typeof updater === 'function' ? updater(prev) : updater] *)
Definition applyUpdater (u : Updater A) (prev : A) : A :=
  match u with
  | UValue v => v
  | UFunction f => f prev
  end.

(** [performSave], up to its [await]: lines 381-393. *)
Definition performSave (st : HookState A) : HookState A :=
  if negb (hs_mounted st) then st
  else if negb (hs_loaded st) then
    mkHook (hs_mounted st) (hs_loaded st) true (hs_timer st) (hs_saving st)
           (hs_queued st) (hs_latest st) (hs_status st) (hs_writes st)
  else if hs_saving st then
    mkHook (hs_mounted st) (hs_loaded st) (hs_requested st) (hs_timer st)
           (hs_saving st) true (hs_latest st) (hs_status st) (hs_writes st)
  else
    mkHook (hs_mounted st) (hs_loaded st) (hs_requested st) (hs_timer st)
           true (hs_queued st) (hs_latest st) Saving
           (hs_writes st ++ [hs_latest st]).

(** The rest of [performSave], once the write has settled: the [finally]
    block, lines 398-406. *)
Definition writeSettled (st : HookState A) : HookState A :=
  let status := if hs_mounted st then Idle else hs_status st in
  if hs_queued st then
    performSave
      (mkHook (hs_mounted st) (hs_loaded st) (hs_requested st) (hs_timer st)
              false false (hs_latest st) status (hs_writes st))
  else
    mkHook (hs_mounted st) (hs_loaded st) (hs_requested st) (hs_timer st)
           false (hs_queued st) (hs_latest st) status (hs_writes st).

(** [scheduleSave], lines 409-421: the armed timer, if any, is cancelled and
    a new one is armed. *)
Definition scheduleSave (st : HookState A) : HookState A :=
  if negb autoSave then st
  else if negb (hs_mounted st) then st
  else if negb (hs_loaded st) then
    mkHook (hs_mounted st) (hs_loaded st) true (hs_timer st) (hs_saving st)
           (hs_queued st) (hs_latest st) (hs_status st) (hs_writes st)
  else
    mkHook (hs_mounted st) (hs_loaded st) (hs_requested st) true
           (hs_saving st) (hs_queued st) (hs_latest st) (hs_status st)
           (hs_writes st).

(** The setter, lines 423-431. *)
Definition setState (u : Updater A) (st : HookState A) : HookState A :=
  scheduleSave
    (mkHook (hs_mounted st) (hs_loaded st) (hs_requested st) (hs_timer st)
            (hs_saving st) (hs_queued st) (applyUpdater u (hs_latest st))
            (hs_status st) (hs_writes st)).

(** The timer callback; only an armed timer fires. *)
Definition timerFire (st : HookState A) : HookState A :=
  if hs_timer st then
    performSave
      (mkHook (hs_mounted st) (hs_loaded st) (hs_requested st) false
              (hs_saving st) (hs_queued st) (hs_latest st) (hs_status st)
              (hs_writes st))
  else st.

(** [flush], lines 433-439. *)
Definition flush (st : HookState A) : HookState A :=
  performSave
    (mkHook (hs_mounted st) (hs_loaded st) (hs_requested st) false
            (hs_saving st) (hs_queued st) (hs_latest st) (hs_status st)
            (hs_writes st)).

(** The end of the initial load, lines 350-370, when [readAppDataConfig]
    has returned [data]. *)
Definition loadFinished (data : option A) (st : HookState A) : HookState A :=
  let st1 :=
    if negb (hs_mounted st) then st
    else
      mkHook (hs_mounted st) true (hs_requested st) (hs_timer st)
             (hs_saving st) (hs_queued st) (default (hs_latest st) data)
             Idle (hs_writes st) in
  if hs_requested st1 && autoSave then
    scheduleSave
      (mkHook (hs_mounted st1) (hs_loaded st1) false (hs_timer st1)
              (hs_saving st1) (hs_queued st1) (hs_latest st1) (hs_status st1)
              (hs_writes st1))
  else st1.

Definition hookStep (st : HookState A) (e : HookEvent A) : HookState A :=
  match e with
  | SetState u => setState u st
  | TimerFire => timerFire st
  | WriteSettled => writeSettled st
  | Flush => flush st
  | LoadFinished data => loadFinished data st
  end.

Definition hookRun (es : list (HookEvent A)) (st : HookState A)
    : HookState A :=
  foldl hookStep st es.

(** The hook right after its first render. *)
Definition hookInit (initialValue : A) : HookState A :=
  mkHook true false false false false false initialValue Loading [].

End hook.

(** ** The retrying writer of [useDriveBackedState]
    (deprecated/useDriveBackedState.js, lines 177-191 and 228-287)

    [authedFetch], which [driveUpdateJson] calls, is not defined in the
    file; what a call of [driveUpdateJson] does is therefore a parameter:
    it returns, or it throws an error with some message. *)

Inductive WriteResult :=
  | WriteOk
  | WriteFails (message : string).

(** [driveUpdateJson] on a response with the given status: it throws
    [Drive update failed: <status>] unless the status is 2xx ([res.ok]). *)
Definition httpMessage (status : nat) : string :=
  "Drive update failed: " +:+ NilZero.string_of_uint (Nat.to_uint status).

Definition httpResult (status : nat) : WriteResult :=
  if (200 <=? status) && (status <=? 299) then WriteOk
  else WriteFails (httpMessage status).

(** The test [/429|5\d\d|Rate Limit|quota|timeout|network/i.test(msg)]:
    some suffix of the message starts with one of the alternatives, letters
    compared without case. *)
Definition lowerChar (c : ascii) : ascii :=
  let n := nat_of_ascii c in
  if (65 <=? n) && (n <=? 90) then ascii_of_nat (n + 32) else c.

Fixpoint startsWithNoCase (pat s : string) : bool :=
  match pat, s with
  | EmptyString, _ => true
  | String p pat', String c s' =>
      Ascii.eqb (lowerChar p) (lowerChar c) && startsWithNoCase pat' s'
  | String _ _, EmptyString => false
  end.

Definition isDigit (c : ascii) : bool :=
  let n := nat_of_ascii c in (48 <=? n) && (n <=? 57).

Definition startsWithFiveXX (s : string) : bool :=
  match s with
  | String a (String b (String c _)) =>
      Ascii.eqb a "5" && isDigit b && isDigit c
  | _ => false
  end.

Definition retryableHere (s : string) : bool :=
  startsWithNoCase "429" s || startsWithFiveXX s
  || startsWithNoCase "Rate Limit" s || startsWithNoCase "quota" s
  || startsWithNoCase "timeout" s || startsWithNoCase "network" s.

Fixpoint retryable (msg : string) : bool :=
  retryableHere msg
  || match msg with
     | EmptyString => false
     | String _ rest => retryable rest
     end.

(** The same test in the words of a reader of the regular expression: the
    message holds, somewhere, one of the markers, a letter of the marker
    standing for itself in either case, or a [5] followed by two decimal
    digits.  These are compared with [retryable] below. *)
Definition sameLetter (a b : ascii) : Prop :=
  a = b
  ∨ (65 ≤ nat_of_ascii a ≤ 90 ∧ nat_of_ascii b = nat_of_ascii a + 32)
  ∨ (65 ≤ nat_of_ascii b ≤ 90 ∧ nat_of_ascii a = nat_of_ascii b + 32).

Definition decimalDigit (c : ascii) : Prop := 48 ≤ nat_of_ascii c ≤ 57.

Definition holdsMarker (marker msg : string) : Prop :=
  ∃ pre mid post, msg = pre +:+ mid +:+ post ∧
    Forall2 sameLetter (list_ascii_of_string marker) (list_ascii_of_string mid).

Definition holdsFiveXX (msg : string) : Prop :=
  ∃ pre b c post, msg = pre +:+ String "5" (String b (String c post)) ∧
    decimalDigit b ∧ decimalDigit c.

(** [Math.min(8000, base * Math.pow(2, attempt - 1))] with [base = 400]: an
    integer of at most 8000, which the numbers of JS hold exactly. *)
Definition backoffBase (attempt : nat) : Z :=
  Z.min 8000 (400 * 2 ^ Z.of_nat (attempt - 1)).

(** A small natural number as a number of JS, a binary64 float. *)
Definition numberOfZ (z : Z) : float := PrimFloat.of_uint63 (Uint63.of_Z z).

(** The wait [Math.min(...) * (0.5 + Math.random())] for a draw [r] of
    [Math.random()], with the sum and the product rounded as binary64
    arithmetic rounds them. *)
Definition backoffWait (attempt : nat) (r : float) : float :=
  PrimFloat.mul (numberOfZ (backoffBase attempt)) (PrimFloat.add 0.5%float r).

(** What a run of [saveWithRetry] did: how many times it called
    [driveUpdateJson], how long it waited between the calls, and the error
    it threw, if any. *)
Record RetryRun := mkRetryRun {
  rr_calls : nat;
  rr_waits : list float;
  rr_thrown : option string
}.

Definition maxAttempts : nat := 5.

(** The [while (true)] loop, one iteration per unit of fuel.  [attempt] is
    the variable of the source (the failures so far, hence also the calls so
    far); [driveUpdateJson k] is what the call number [k + 1] does and
    [random k] the draw of [Math.random()] that follows it. *)
Fixpoint retryLoop (fuel : nat) (driveUpdateJson : nat → WriteResult)
    (random : nat → float) (attempt : nat) (waits : list float)
    : option RetryRun :=
  match fuel with
  | O => None
  | S fuel' =>
      match driveUpdateJson attempt with
      | WriteOk => Some (mkRetryRun (S attempt) waits None)
      | WriteFails msg =>
          let attempt' := S attempt in
          let shouldRetry := retryable msg && (attempt' <? maxAttempts) in
          if negb shouldRetry then
            Some (mkRetryRun attempt' waits (Some msg))
          else
            retryLoop fuel' driveUpdateJson random attempt'
                      (waits ++ [backoffWait attempt' (random attempt)])
      end
  end.

Definition saveWithRetry (driveUpdateJson : nat → WriteResult) (random : nat → float)
    : option RetryRun :=
  retryLoop maxAttempts driveUpdateJson random 0 [].

(** The task that the timer callback and [flush] chain on
    [inflightSaveRef] (lines 272-281), after [setStatus("saving")]:
    [fileId] is [None] when [ensureFileId] throws.  It gives the status the
    hook ends with and the run of the writer, if it was started. *)
Definition saveTask (destroyed : bool) (fileId : option string)
    (driveUpdateJson : nat → WriteResult) (random : nat → float)
    : option (Status * option RetryRun) :=
  let finish (s : Status) := if destroyed then Saving else s in
  match fileId with
  | None => Some (finish Error, None)
  | Some _ =>
      run ← saveWithRetry driveUpdateJson random;
      Some (match rr_thrown run with
            | None => finish Idle
            | Some _ => finish Error
            end, Some run)
  end.

(** A write that fails twice with status 503 and then succeeds. *)
Definition twice503 (k : nat) : WriteResult :=
  if k <? 2 then httpResult 503 else httpResult 200.

(** ** Sample graphs and patches used in the examples *)

Definition rootOnly : Graph :=
  {[ "root" := mkNode (Some "") (Some "task") (Some ["A"]) (Some true) None
                      None (Some 0%Z) (Some 0%Z) None ]}.

Definition rootAndA : Graph :=
  <["A" := setDepth 1 childDefaults]> rootOnly.

(** [{ depth: 7 }] and [{ title: "x" }] *)
Definition deepPatch : Patch :=
  mkPatch None None None None None None None (Some (Some 7%Z)) None.

Definition titlePatch : Patch :=
  mkPatch (Some (Some "x")) None None None None None None None None.

(** Four siblings, three of them placed: ["b"] and ["c"] at the same height
    above ["a"], ["d"] unknown to React Flow. *)
Definition threeKids : Graph :=
  {[ "root" := mkNode (Some "") (Some "task") (Some ["a"; "b"; "c"; "d"])
                      (Some true) None None (Some 0%Z) (Some 0%Z) None ]}.

Definition kidPositions : gmap string Z :=
  <["a" := 30%Z]> (<["b" := 10%Z]> (<["c" := 10%Z]> ∅)).

(** A graph whose stored depths are stale, with an orphan ["z"] that also
    lists ["c"]. *)
Definition staleDepths : Graph :=
  let node cs d := mkNode (Some "") (Some "task") (Some cs) (Some true)
                          (Some false) None (Some 0%Z) (Some d) None in
  <["root" := node ["a"; "b"] 0%Z]> (<["a" := node ["c"] 5%Z]>
  (<["b" := node [] 1%Z]> (<["c" := node [] 7%Z]>
  (<["z" := node ["c"] 9%Z]> ∅)))).

(** A completed task due on 2020-01-01 that repeats every [step] days. *)
Definition repeating (step : Z) : Node :=
  mkNode (Some "water the plants") (Some "task") (Some []) (Some true)
         (Some true) (Some "2020-01-01") (Some step) (Some 1%Z) None.


Definition overdueWeekly : Graph := {[ "t" := repeating 7 ]}.



(** ** Further graph operations of components.js and persistence.js *)

(** [collectDescendants] (components.js, lines 330-346): the loop of step 1
    of [recursiveDelete], run on [userData]. *)
Definition collectDescendants (startId : string) (userData : Graph)
    : option (gset string) :=
  collectLoop (collectFuel userData) userData [startId] ∅.

(** [{ ...n, visible: b }] *)
Definition setVisible (b : bool) (n : Node) : Node :=
  mkNode (title n) (type n) (children n) (Some b) (completed n)
         (dueDate n) (repeatDays n) (depth n) (content n).

(** [onSelectionChange] (components.js, lines 438-459).  The body of the
    inner loop: [if (next[cid] && next[cid].visible === false)
    next[cid] = { ...next[cid], visible: true }]. *)
Definition revealOne (next : Graph) (cid : string) : Graph :=
  match next !! cid with
  | Some n =>
      if decide (visible n = Some false) then <[cid := setVisible true n]> next
      else next
  | None => next
  end.

(** What the inner loop does to a node it meets. *)
Definition revealNode (n : Node) : Node :=
  if decide (visible n = Some false) then setVisible true n else n.

(** The updater, for the identifiers of the selected nodes; the children
    are read from [prev], the flags from [next].  [changed ? next : prev]
    returns the same graph either way. *)
Definition onSelectionChange (selectedIds : list string) (prev : Graph)
    : Graph :=
  foldl (λ next sid, foldl revealOne next (childrenOf (prev !! sid)))
        prev selectedIds.

(** [normalizeVisibilityOnFirstLoad] (persistence.js, lines 12-25).  Every
    entry of [next] is a fresh copy, so the assignments to
    [next.root.visible] and [next[cid].visible] touch that entry only. *)
Definition showIfPresent (next : Graph) (cid : string) : Graph :=
  match next !! cid with
  | Some n => <[cid := setVisible true n]> next
  | None => next
  end.

Definition normalizeVisibilityOnFirstLoad (data : Graph) : Graph :=
  let next := setVisible false <$> data in
  match next !! "root" with
  | None => next
  | Some root =>
      let next := <["root" := setVisible true root]> next in
      foldl showIfPresent next (childrenOf (next !! "root"))
  end.

(** Structural invariants of the data model, in a form that can be decided
    on a given graph: no children array lists [id]; every child is a key; no
    children array lists an identifier twice and no identifier is listed by
    two nodes. *)
Definition unreferenced (id : string) (G : Graph) : Prop :=
  map_Forall (λ _ n, id ∉ childrenOf (Some n)) G.

Definition noDangling (G : Graph) : Prop :=
  map_Forall (λ _ n, Forall (λ c, is_Some (G !! c)) (childrenOf (Some n))) G.

Definition singleParent (G : Graph) : Prop :=
  map_Forall
    (λ p1 n1,
       NoDup (childrenOf (Some n1)) ∧
       map_Forall
         (λ p2 n2,
            Forall (λ c, c ∈ childrenOf (Some n2) → p1 = p2)
                   (childrenOf (Some n1))) G) G.

#[export] Instance unreferenced_dec id G : Decision (unreferenced id G).
Proof. unfold unreferenced. apply _. Defined.

#[export] Instance noDangling_dec G : Decision (noDangling G).
Proof. unfold noDangling. apply _. Defined.

#[export] Instance singleParent_dec G : Decision (singleParent G).
Proof. unfold singleParent. apply _. Defined.

(** [{ ...p1, ...p2 }] for two partial objects. *)
Definition mergePatch (p1 p2 : Patch) : Patch :=
  let pick {T} (a b : option T) : option T :=
    match b with Some _ => b | None => a end in
  mkPatch (pick (p_title p1) (p_title p2))
          (pick (p_type p1) (p_type p2))
          (pick (p_children p1) (p_children p2))
          (pick (p_visible p1) (p_visible p2))
          (pick (p_completed p1) (p_completed p2))
          (pick (p_dueDate p1) (p_dueDate p2))
          (pick (p_repeatDays p1) (p_repeatDays p2))
          (pick (p_depth p1) (p_depth p2))
          (pick (p_content p1) (p_content p2)).

(** [buildEdgesForLayout] and [buildEdgesFrom] (components.js, lines
    93-128), for [keys] the order in which the engine enumerates the keys of
    [userData].  The layout edges carry no [animated] field.

    Both test [userData[child]] for truthiness.  [userData] is a plain
    object, so for a name that is not a key the lookup still finds what
    every object inherits from [Object.prototype]: a function, or the
    prototype itself for [__proto__], all truthy and none with a [visible]
    field. *)
Definition objectPrototypeNames : list string :=
  ["constructor"; "__defineGetter__"; "__defineSetter__"; "hasOwnProperty";
   "__lookupGetter__"; "__lookupSetter__"; "isPrototypeOf";
   "propertyIsEnumerable"; "toString"; "valueOf"; "__proto__";
   "toLocaleString"].

Inductive Member :=
  | OwnNode (node : Node)
  | Inherited.

(** [userData[k]], or [None] for [undefined]. *)
Definition member (userData : Graph) (k : string) : option Member :=
  match userData !! k with
  | Some node => Some (OwnNode node)
  | None =>
      if bool_decide (k ∈ objectPrototypeNames) then Some Inherited else None
  end.

(** The fields of a node that a member has: none for an inherited one. *)
Definition memberNode (m : option Member) : option Node :=
  match m with
  | Some (OwnNode node) => Some node
  | _ => None
  end.

Record Edge := mkEdge {
  e_id : string;
  e_source : string;
  e_target : string;
  e_animated : option bool
}.

Definition edgeId (parent child : string) : string :=
  parent +:+ "-" +:+ child.

Definition buildEdgesForLayout (keys : list string) (userData : Graph)
    : list Edge :=
  '(parent, info) ← entriesIn keys userData;
  child ← childrenOf (Some info);
  match member userData child with
  | Some _ => [mkEdge (edgeId parent child) parent child None]
  | None => []
  end.

(** [x?.visible !== false] *)
Definition shown (o : option Node) : bool :=
  bool_decide ((o ≫= visible) ≠ Some false).

Definition buildEdgesFrom (keys : list string) (userData : Graph)
    : list Edge :=
  '(parent, info) ← entriesIn keys userData;
  child ← childrenOf (Some info);
  let childInfo := member userData child in
  match childInfo with
  | Some _ =>
      if shown (Some info) && shown (memberNode childInfo) then
        [mkEdge (edgeId parent child) parent child (Some true)]
      else []
  | None => []
  end.

(** ** Event sequences of the hook

    What the environment can make of the hook: a write settles only while
    one is in flight, a timer fires only while it is armed, and the initial
    read returns once. *)
Definition isSetState {A} (e : HookEvent A) : bool :=
  match e with SetState _ => true | _ => false end.

Definition isFlush {A} (e : HookEvent A) : bool :=
  match e with Flush => true | _ => false end.

Definition isWriteSettled {A} (e : HookEvent A) : bool :=
  match e with WriteSettled => true | _ => false end.

Definition isLoadFinished {A} (e : HookEvent A) : bool :=
  match e with LoadFinished _ => true | _ => false end.

Definition enabled {A} (st : HookState A) (e : HookEvent A) : bool :=
  match e with
  | WriteSettled => hs_saving st
  | TimerFire => hs_timer st
  | LoadFinished _ => negb (hs_loaded st)
  | SetState _ | Flush => true
  end.

Fixpoint wellTimed {A} (autoSave : bool) (st : HookState A)
    (es : list (HookEvent A)) : bool :=
  match es with
  | [] => true
  | e :: es' => enabled st e && wellTimed autoSave (hookStep autoSave st e) es'
  end.

(** ** The sidebar of tasks due (home page, src/unnamed/part_002, lines
    381-436) *)

(** [String.prototype.localeCompare], as the sign of its result. *)
Class JsLocale := {
  localeCompare : string → string → comparison
}.

(** The test [/\d{4}-\d{2}-\d{2}/.test(s)]: some suffix of [s] starts with
    four digits, a dash, two digits, a dash and two digits. *)
Definition dateShapeHere (s : string) : bool :=
  match s with
  | String a (String b (String c (String d (String e (String f (String g
      (String h (String i (String j _))))))))) =>
      isDigit a && isDigit b && isDigit c && isDigit d && Ascii.eqb e "-"
      && isDigit f && isDigit g && Ascii.eqb h "-" && isDigit i && isDigit j
  | _ => false
  end.

Fixpoint dateShape (s : string) : bool :=
  dateShapeHere s
  || match s with
     | EmptyString => false
     | String _ rest => dateShape rest
     end.

(** The same test in words: somewhere in the text there are four digits, a
    dash, two digits, a dash and two digits.  It is compared with
    [dateShape] below. *)
Definition holdsDate (s : string) : Prop :=
  ∃ pre a b c d f g i j post,
    s = pre +:+ String a (String b (String c (String d (String "-"
          (String f (String g (String "-" (String i (String j post)))))))))
    ∧ Forall decimalDigit [a; b; c; d; f; g; i; j].

(** Lines 394-400: the day of [_due], or [None] where [_due] is [null] or an
    invalid date; the filter that follows drops both.  The first three parts
    of the text are read, whatever follows them. *)
Definition sidebarDue `{JsHost} (s : string) : option Z :=
  if dateShape s then
    match splitOn "-" s with
    | p0 :: p1 :: p2 :: _ =>
        match toNumber p0, toNumber p1, toNumber p2 with
        | Some y, Some m, Some day =>
            let due := makeDay y (m - 1) day in
            if (Z.abs due <=? 100000000)%Z then Some due else None
        | _, _, _ => None
        end
    | _ => None
    end
  else None.

(** [n.type === 'task' && n.dueDate && n.completed !== true] *)
Definition sidebarListed (n : Node) : bool :=
  bool_decide (type n = Some "task")
  && match dueDate n with
     | Some s => negb (String.eqb s "")
     | None => false
     end
  && negb (bool_decide (completed n = Some true)).

(** An entry of [parsed]: [{ id, ...n, _due }]. *)
Record SidebarTask := mkSidebarTask {
  st_id : string;
  st_node : Node;
  st_due : Z
}.

(** [parsed], for [today] the day of [new Date()] at local midnight: the
    listed entries whose date can be read and is not after today. *)
Definition sidebarParsed `{JsHost} (keys : list string) (today : Z)
    (userData : Graph) : list SidebarTask :=
  omap (λ '(id, n),
          if sidebarListed n then
            due ← sidebarDue (default "" (dueDate n));
            if (due <=? today)%Z then Some (mkSidebarTask id n due) else None
          else None)
       (entriesIn keys userData).

(** [a.title || ''] *)
Definition sidebarTitle (t : SidebarTask) : string :=
  default "" (title (st_node t)).

(** The comparator of [parsed.sort], as the sign of its result. *)
Definition sidebarCompare `{JsLocale} (today : Z) (a b : SidebarTask)
    : comparison :=
  let aPast := (st_due a <? today)%Z in
  let bPast := (st_due b <? today)%Z in
  if negb (Bool.eqb aPast bPast) then (if aPast then Lt else Gt)
  else if aPast then
    match (st_due a ?= st_due b)%Z with
    | Eq => localeCompare (sidebarTitle a) (sidebarTitle b)
    | c => c
    end
  else localeCompare (sidebarTitle a) (sidebarTitle b).

(** [Array.prototype.sort] on any array, as [stableSort] above. *)
Fixpoint insertBy {A} (cmp : A → A → comparison) (x : A) (l : list A)
    : list A :=
  match l with
  | [] => [x]
  | y :: l' =>
      match cmp x y with
      | Gt => y :: insertBy cmp x l'
      | _ => x :: l
      end
  end.

Definition sortBy {A} (cmp : A → A → comparison) (l : list A) : list A :=
  foldr (insertBy cmp) [] l.

(** The tasks the sidebar lists, in order; the empty list stands for
    [Nothing to do today!]. *)
Definition SidebarTasks `{JsHost} `{JsLocale} (keys : list string) (today : Z)
    (userData : Graph) : list SidebarTask :=
  sortBy (sidebarCompare today) (sidebarParsed keys today userData).

(** A collation by code units, for the examples. *)
#[export] Instance codeUnitLocale : JsLocale := {|
  localeCompare := String.compare
|}.

(** Open tasks due on days 19730 (2024-01-08), 19732 (2024-01-10), twice
    on 19731 and once on the day after, a finished task, a text node that
    still carries a due date, and an open task whose due date is empty. *)
Definition dueTasks : Graph :=
  let node ty t d done := mkNode (Some t) (Some ty) (Some []) (Some true)
                                 (Some done) (Some d) (Some 0%Z) (Some 1%Z)
                                 None in
  <["a" := node "task" "pay rent" "2024-01-10" false]>
  (<["b" := node "task" "water the plants" "2024-01-09" false]>
  (<["c" := node "task" "call home" "2024-01-09" false]>
  (<["d" := node "task" "old" "2024-01-08" true]>
  (<["e" := node "task" "early" "2024-01-08" false]>
  (<["f" := node "task" "later" "2024-01-11" false]>
  (<["g" := node "text" "a note" "2024-01-08" false]>
  (<["h" := node "task" "some day" "" false]> ∅))))))).

(** ** The keyboard handler (components.js, lines 462-592) *)

(** A React Flow node as the handler reads it. *)
Record RfNode := mkRfNode {
  rf_id : string;
  rf_selected : bool
}.

(** The keys the handler tells apart: [Tab] without shift, the arrows,
    [Backspace], [Enter] with shift; every other key is [KeyOther]. *)
Inductive Key :=
  | KeyTab | KeyArrowLeft | KeyArrowRight | KeyArrowUp | KeyArrowDown
  | KeyBackspace | KeyShiftEnter | KeyOther.

(** The call the handler makes on the graph, if any. *)
Inductive KeyAction :=
  | NoAction
  | CreateChild (parentId : string)     (* createChildNode(parentId) *)
  | DeleteNode (id : string).           (* deleteNodeById(id) *)

(** What a key press did: the nodes handed to [setNodes] (the old ones when
    it is not called), the call on the graph, the value assigned to
    [pendingSelectRef] by the handler itself, and whether
    [preventDefault] was called. *)
Record KeyOutcome := mkKeyOutcome {
  ko_nodes : list RfNode;
  ko_action : KeyAction;
  ko_pending : option string;
  ko_prevented : bool
}.

(** [nds.map((n) => ({ ...n, selected: n.id === targetId }))] *)
Definition markSelected (targetId : string) (nds : list RfNode)
    : list RfNode :=
  (λ n, mkRfNode (rf_id n) (bool_decide (rf_id n = targetId))) <$> nds.

(** A string that is truthy. *)
Definition truthy (s : string) : bool := negb (String.eqb s "").

(** [sibs.indexOf(id)], [None] for [-1]. *)
Definition indexOf (id : string) (sibs : list string) : option nat :=
  fst <$> list_find (λ x, x = id) sibs.

(** [selectId] of the arrow keys, for a target that may be [undefined]. *)
Definition selectId (nodes : list RfNode) (targetId : option string)
    : KeyOutcome :=
  match targetId with
  | Some t =>
      if truthy t then mkKeyOutcome (markSelected t nodes) NoAction None true
      else mkKeyOutcome nodes NoAction None false
  | None => mkKeyOutcome nodes NoAction None false
  end.

Definition onKeyDown (isEditable : bool) (key : Key) (keys : list string)
    (nodes : list RfNode) (userData : Graph) : KeyOutcome :=
  let ignored := mkKeyOutcome nodes NoAction None false in
  if isEditable then ignored
  else
    match find rf_selected nodes with
    | None => ignored
    | Some selected =>
        let parentId :=
          match findParent (entriesIn keys userData) (rf_id selected) with
          | Some pid => if truthy pid then Some pid else None
          | None => None
          end in
        match key with
        | KeyTab =>
            match head (childrenOf (userData !! rf_id selected)) with
            | Some firstChildId =>
                if truthy firstChildId then
                  if existsb (λ n, bool_decide (rf_id n = firstChildId)) nodes
                  then mkKeyOutcome (markSelected firstChildId nodes)
                                    NoAction None true
                  else mkKeyOutcome nodes NoAction None true
                else mkKeyOutcome nodes (CreateChild (rf_id selected)) None true
            | None =>
                mkKeyOutcome nodes (CreateChild (rf_id selected)) None true
            end
        | KeyArrowLeft =>
            if negb (bool_decide (rf_id selected = "root")) then
              selectId nodes parentId
            else ignored
        | KeyArrowRight =>
            selectId nodes (head (childrenOf (userData !! rf_id selected)))
        | KeyArrowUp | KeyArrowDown =>
            match parentId with
            | None => ignored
            | Some pid =>
                let sibs := childrenOf (userData !! pid) in
                match indexOf (rf_id selected) sibs with
                | None => ignored
                | Some idx =>
                    match key with
                    | KeyArrowUp =>
                        if 0 <? idx then selectId nodes (sibs !! (idx - 1))
                        else ignored
                    | _ =>
                        if idx <? length sibs - 1
                        then selectId nodes (sibs !! (idx + 1))
                        else ignored
                    end
                end
            end
        | KeyBackspace =>
            let pending :=
              match parentId with
              | None => None
              | Some pid =>
                  let sibs := childrenOf (userData !! pid) in
                  match indexOf (rf_id selected) sibs with
                  | Some idx =>
                      if 0 <? idx then sibs !! (idx - 1) else Some pid
                  | None => Some pid
                  end
              end in
            mkKeyOutcome nodes (DeleteNode (rf_id selected)) pending true
        | KeyShiftEnter =>
            if bool_decide (rf_id selected = "root") then ignored
            else
              match parentId with
              | None => ignored
              | Some pid => mkKeyOutcome nodes (CreateChild pid) None true
              end
        | KeyOther => ignored
        end
    end.

(** The update of the graph that the call makes, for [newId] the identifier
    that [generateId] returns. *)
Definition applyKeyAction (newId : string) (a : KeyAction) (prev : Graph)
    : option Graph :=
  match a with
  | NoAction => Some prev
  | CreateChild parentId => Some (createChildNode newId parentId emptyPatch prev)
  | DeleteNode id => deleteNodeById id prev
  end.

(** The initial graph of the local-storage home page
    (src/unnamed/part_003, lines 29-61). *)
Definition initialTree : Graph :=
  <["root" := mkNode (Some "Root Node") (Some "task")
                     (Some ["12345"; "67890"]) (Some true) None None
                     (Some 0%Z) None None]>
  (<["12345" := mkNode (Some "Task Node") (Some "task") (Some ["abcde"])
                       (Some true) (Some false) None (Some 0%Z) None None]>
  (<["67890" := mkNode (Some "Task Node 2") (Some "task") (Some [])
                       (Some true) (Some true) None (Some 0%Z) None None]>
  (<["abcde" := mkNode (Some "Text Node") (Some "text") (Some [])
                       (Some false) None None None None
                       (Some "This is a text node.")]> ∅))).

(* ===================================================================== *)
(** * Part II: properties                                                 *)
(* ===================================================================== *)

(** ** Deleting a subtree *)

Section collect.
Variable G : Graph.

Lemma pendingWeight_mono l V x :
  pendingWeight l (V ∪ {[x]}) ≤ pendingWeight l V.
Proof.
  unfold pendingWeight.
  induction l as [|[k n] l IH]; csimpl; [lia|].
  destruct (decide (k ∈ V ∪ {[x]})) as [?|Hn], (decide (k ∈ V)) as [?|?];
    try lia.
  exfalso. apply Hn. set_solver.
Qed.

Lemma pendingWeight_visit l V x n :
  (x, n) ∈ l → x ∉ V →
  pendingWeight l (V ∪ {[x]}) + length (childrenOf (Some n)) ≤ pendingWeight l V.
Proof.
  induction l as [|[k m] l IH]; intros Hin Hx; [by apply elem_of_nil in Hin|].
  apply elem_of_cons in Hin as [Heq|Hin].
  - inversion Heq; subst k m. unfold pendingWeight. csimpl.
    pose proof (pendingWeight_mono l V x) as Hm. unfold pendingWeight in Hm.
    destruct (decide (x ∈ V ∪ {[x]})) as [?|Hn], (decide (x ∈ V)) as [?|?];
      try lia; try done.
    exfalso. apply Hn. set_solver.
  - specialize (IH Hin Hx). unfold pendingWeight in *. csimpl.
    destruct (decide (k ∈ V ∪ {[x]})) as [?|Hn], (decide (k ∈ V)) as [?|?];
      try lia.
    exfalso. apply Hn. set_solver.
Qed.

Lemma collectLoop_terminates fuel stack V :
  length stack + pendingWeight (map_to_list G) V < fuel →
  is_Some (collectLoop fuel G stack V).
Proof.
  revert stack V. induction fuel as [|fuel IH]; intros stack V Hlt; [lia|].
  destruct stack as [|c stack]; simpl; [eauto|].
  case_decide as Hc.
  - apply IH. simpl in Hlt. lia.
  - apply IH. rewrite length_app, length_reverse. simpl in Hlt.
    destruct (G !! c) as [n|] eqn:Hn.
    + pose proof (pendingWeight_visit (map_to_list G) V c n) as Hw.
      rewrite elem_of_map_to_list in Hw. specialize (Hw Hn Hc). lia.
    + pose proof (pendingWeight_mono (map_to_list G) V c).
      unfold childrenOf. simpl. lia.
Qed.

Lemma pendingWeight_empty (l : list (string * Node)) :
  pendingWeight l ∅ = sum_list ((λ kv, length (childrenOf (Some kv.2))) <$> l).
Proof.
  unfold pendingWeight. induction l as [|[k n] l IH]; csimpl; [done|].
  rewrite IH. destruct (decide (k ∈ (∅ : gset string))) as [Hk|_]; [|done].
  by apply not_elem_of_empty in Hk.
Qed.

Lemma collectLoop_spec fuel stack V R :
  collectLoop fuel G stack V = Some R →
  (V ⊆ R ∧ ∀ s, s ∈ stack → s ∈ R) ∧
  (∀ r, r ∈ R → r ∈ V ∨ ∃ s, s ∈ stack ∧ descendant G s r) ∧
  ((∀ a b, a ∈ V → childRel G a b → b ∈ V ∨ b ∈ stack) →
   ∀ a b, a ∈ R → childRel G a b → b ∈ R).
Proof.
  revert stack V. induction fuel as [|fuel IH]; intros stack V; [done|].
  destruct stack as [|c stack]; simpl.
  - intros [= <-]. split_and!; [done|by intros ? ?%elem_of_nil|by left|].
    intros Hcl a b Ha Hab. destruct (Hcl a b Ha Hab) as [?|?%elem_of_nil]; done.
  - destruct (decide (c ∈ V)) as [Hc|Hc]; intros Hrun;
      destruct (IH _ _ Hrun) as ([HV Hst] & Hsound & Hclosed); clear IH.
    + split_and!.
      * done.
      * intros s [->|?]%elem_of_cons; [set_solver|auto].
      * intros r Hr. destruct (Hsound r Hr) as [?|(s & ? & ?)]; [by left|].
        right. exists s. split; [by apply elem_of_cons; right|done].
      * intros Hcl. apply Hclosed. intros a b Ha Hab.
        destruct (Hcl a b Ha Hab) as [?|[->|?]%elem_of_cons]; auto.
    + split_and!.
      * set_solver.
      * intros s [->|?]%elem_of_cons; [set_solver|].
        apply Hst, elem_of_app. by right.
      * intros r Hr. destruct (Hsound r Hr) as [[?|Hrc%elem_of_singleton]%elem_of_union|(s & Hs & Hsr)]; [|subst r|].
        -- by left.
        -- right. exists c. split; [by apply elem_of_cons; left|apply rtc_refl].
        -- right. apply elem_of_app in Hs as [Hs|Hs].
           ++ exists c. split; [by apply elem_of_cons; left|].
              eapply rtc_l; [|exact Hsr]. unfold childRel.
              by apply elem_of_reverse.
           ++ exists s. split; [by apply elem_of_cons; right|done].
      * intros Hcl. apply Hclosed. intros a b [Ha|Hac%elem_of_singleton]%elem_of_union Hab; [|subst a].
        -- destruct (Hcl a b Ha Hab) as [?|[->|?]%elem_of_cons].
           ++ left. set_solver.
           ++ left. set_solver.
           ++ right. apply elem_of_app. by right.
        -- right. apply elem_of_app. left. by apply elem_of_reverse.
Qed.

(** The loop started by [recursiveDelete] ends, and collects exactly the
    identifier and its transitive descendants. *)
Lemma collectLoop_descendants X :
  ∃ D, collectLoop (collectFuel G) G [X] ∅ = Some D ∧
       ∀ d, d ∈ D ↔ descendant G X d.
Proof.
  destruct (collectLoop_terminates (collectFuel G) [X] ∅) as [D HD].
  { rewrite pendingWeight_empty. unfold collectFuel, edgeCount. simpl. lia. }
  exists D. split; [done|].
  destruct (collectLoop_spec _ _ _ _ HD) as ([_ Hst] & Hsound & Hclosed).
  intros d. split.
  - intros Hd. destruct (Hsound d Hd) as [?%not_elem_of_empty|(s & Hs & Hsd)]; [done|].
    by apply list_elem_of_singleton in Hs as ->.
  - revert d. apply (rtc_ind_r (λ d, d ∈ D) X).
    + apply Hst. by apply list_elem_of_singleton.
    + intros y z _ Hyz IH. eapply Hclosed; [|exact IH|exact Hyz].
      by intros a b ?%not_elem_of_empty.
Qed.

End collect.

Lemma lookup_foldr_delete (l : list string) (G : Graph) (k : string) :
  foldr delete G l !! k = if decide (k ∈ l) then None else G !! k.
Proof.
  induction l as [|x l IH]; simpl.
  - destruct (decide (k ∈ [])) as [?%elem_of_nil|]; done.
  - destruct (decide (x = k)) as [->|Hne].
    + rewrite lookup_delete_eq.
      destruct (decide (k ∈ k :: l)) as [|Hn]; [done|].
      exfalso. apply Hn. by apply elem_of_cons; left.
    + rewrite lookup_delete_ne, IH by done.
      destruct (decide (k ∈ l)) as [Hl|Hl], (decide (k ∈ x :: l)) as [Hx|Hx];
        try done.
      * exfalso. apply Hx. by apply elem_of_cons; right.
      * apply elem_of_cons in Hx as [->|?]; done.
Qed.

Lemma lookup_deleteAll (D : gset string) (G : Graph) (k : string) :
  deleteAll D G !! k = if decide (k ∈ D) then None else G !! k.
Proof.
  unfold deleteAll. rewrite lookup_foldr_delete.
  destruct (decide (k ∈ elements D)) as [H|H], (decide (k ∈ D)) as [H'|H'];
    try done; rewrite elem_of_elements in H; done.
Qed.

Lemma filter_length_same {A} (P : A → Prop) `{∀ x, Decision (P x)} (l : list A) :
  length (filter P l) = length l → filter P l = l.
Proof.
  induction l as [|x l IH]; [done|].
  rewrite filter_cons. destruct (decide (P x)); simpl.
  - intros [= Hl]. by rewrite IH.
  - intros Hl. pose proof (length_filter P l). lia.
Qed.

(** Whatever branch step 3 takes, the children array ends up filtered. *)
Lemma stripNode_children (D : gset string) (n : Node) :
  children (stripNode D n) = filter (λ cid, cid ∉ D) <$> children n.
Proof.
  unfold stripNode. destruct (children n) as [cs|] eqn:Hcs; simpl; [|by rewrite Hcs].
  destruct (0 <? length cs) eqn:Hlen.
  - destruct (decide _) as [Hne|Heq]; simpl; [done|].
    rewrite Hcs. f_equal. symmetry. apply filter_length_same.
    destruct (decide (length (filter (λ cid, cid ∉ D) cs) = length cs)); [done|].
    by destruct Heq.
  - apply Nat.ltb_ge in Hlen. destruct cs; simpl in *; [by rewrite Hcs|lia].
Qed.

Lemma stripNode_frame (D : gset string) (n : Node) :
  title (stripNode D n) = title n ∧ type (stripNode D n) = type n ∧
  visible (stripNode D n) = visible n ∧
  completed (stripNode D n) = completed n ∧
  dueDate (stripNode D n) = dueDate n ∧
  repeatDays (stripNode D n) = repeatDays n ∧
  depth (stripNode D n) = depth n ∧ content (stripNode D n) = content n.
Proof.
  unfold stripNode. destruct (children n) as [cs|]; [|done].
  destruct (0 <? length cs); [|done]. by destruct (decide _).
Qed.

Lemma recursiveDelete_lookup (X : string) (G : Graph) :
  ∃ (G' : Graph) (D : gset string), recursiveDelete X G = Some G' ∧
    (∀ d, d ∈ D ↔ descendant G X d) ∧
    (∀ k, G' !! k = if decide (k ∈ D) then None else stripNode D <$> (G !! k)).
Proof.
  destruct (collectLoop_descendants G X) as (D & HD & Hdesc).
  exists (stripNode D <$> deleteAll D G), D. split_and!; [|done|].
  - unfold recursiveDelete. by rewrite HD.
  - intros k. rewrite lookup_fmap, lookup_deleteAll. by destruct (decide _).
Qed.

(** Deleting ["a"] from the stale sample removes ["a"] and ["c"], strips
    them from the children of ["root"] and of the orphan ["z"], and copes
    with a cycle. *)
Example recursiveDelete_sample :
  (λ G', (dom G', childrenOf (G' !! "root"), childrenOf (G' !! "z")))
    <$> recursiveDelete "a" staleDepths
  = Some ({["root"; "b"; "z"]}, ["b"], []).
Proof. by vm_compute. Qed.

Example recursiveDelete_cycle :
  dom <$> recursiveDelete "a" (<["c" := setChildren ["a"] emptyNode]> staleDepths)
  = Some {["root"; "b"; "z"]}.
Proof. by vm_compute. Qed.

(** C1. For every graph [G] and identifier [X], [recursiveDelete] returns a
    graph in which [X] and every transitive descendant of [X] are absent as
    keys, and in which no remaining node lists [X] or a descendant of [X]
    among its children. *)
Theorem recursiveDelete_removes_subtree (X : string) (G : Graph) :
  ∃ G', recursiveDelete X G = Some G' ∧
    (∀ d, descendant G X d → G' !! d = None) ∧
    (∀ k n d, G' !! k = Some n → descendant G X d →
              d ∉ childrenOf (Some n)).
Proof.
  destruct (recursiveDelete_lookup X G) as (G' & D & Hrun & HD & Hlook).
  exists G'. split_and!; [done| |].
  - intros d Hd%HD. rewrite Hlook. by destruct (decide _).
  - intros k n' d Hk Hd%HD. rewrite Hlook in Hk.
    destruct (decide (k ∈ D)); [done|].
    destruct (G !! k) as [m|]; simplify_eq/=.
    unfold childrenOf. simpl. rewrite stripNode_children.
    destruct (children m) as [cs|]; simpl; [|by apply not_elem_of_nil].
    intros (Hin & _)%list_elem_of_filter. done.
Qed.

(** C10. After [recursiveDelete], a surviving node is a node of the input
    graph that is neither [X] nor a descendant of [X]; it keeps every field
    other than [children], and its children array is the old one filtered
    (order kept, nothing added). *)
Theorem recursiveDelete_frame (X : string) (G : Graph) :
  ∃ (G' : Graph) (D : gset string), recursiveDelete X G = Some G' ∧
    (∀ d, d ∈ D ↔ descendant G X d) ∧
    (∀ k n, G !! k = Some n → k ∉ D → is_Some (G' !! k)) ∧
    (∀ k n', G' !! k = Some n' →
       ∃ n, G !! k = Some n ∧ (k ∉ D) ∧
         title n' = title n ∧ type n' = type n ∧ visible n' = visible n ∧
         completed n' = completed n ∧ dueDate n' = dueDate n ∧
         repeatDays n' = repeatDays n ∧ depth n' = depth n ∧
         content n' = content n ∧
         children n' = filter (λ cid, cid ∉ D) <$> children n ∧
         childrenOf (Some n') `sublist_of` childrenOf (Some n)).
Proof.
  destruct (recursiveDelete_lookup X G) as (G' & D & Hrun & HD & Hlook).
  exists G', D. split_and!; [done|done| |].
  - intros k n Hk Hn. rewrite Hlook, Hk. by destruct (decide _).
  - intros k n' Hk. rewrite Hlook in Hk. destruct (decide (k ∈ D)); [done|].
    destruct (G !! k) as [m|]; simplify_eq/=. exists m.
    destruct (stripNode_frame D m) as (?&?&?&?&?&?&?&?).
    split_and!; try done; [apply stripNode_children|].
    unfold childrenOf. simpl. rewrite stripNode_children.
    destruct (children m); simpl; [apply sublist_filter|done].
Qed.

(** ** Creating a child and patching a node *)

Example createChild_ex :
  createChildNode "B" "root" emptyPatch rootAndA !! "root" =
   Some (mkNode (Some "") (Some "task") (Some ["A"; "B"]) (Some true) None
                      None (Some 0%Z) (Some 0%Z) None).
Proof. vm_compute. reflexivity. Qed.

Lemma createChildNode_lookup (newId parentId k : string) (ov : Patch) (G : Graph) :
  createChildNode newId parentId ov G !! k =
    if decide (k = parentId) then
      Some (setChildren (childrenOf (G !! parentId) ++ [newId])
                        (objectOf (G !! parentId)))
    else if decide (k = newId) then
      Some (setDepth (default 0%Z (G !! parentId ≫= depth) + 1)
                     (spread childDefaults ov))
    else G !! k.
Proof.
  unfold createChildNode.
  destruct (decide (k = parentId)) as [->|Hp]; [by rewrite lookup_insert_eq|].
  rewrite lookup_insert_ne by done.
  destruct (decide (k = newId)) as [->|Hn]; [by rewrite lookup_insert_eq|].
  by rewrite lookup_insert_ne.
Qed.

(** C2, as stated: a missing parent makes [createChildNode] a no-op.  It
    does not: on the graph holding only [root], a child asked under the
    unknown parent ["ghost"] is stored, and ["ghost"] becomes a key. *)
Lemma createChild_missing_parent_not_noop :
  rootOnly !! "ghost" = None ∧
  createChildNode "B" "ghost" emptyPatch rootOnly ≠ rootOnly ∧
  createChildNode "B" "ghost" emptyPatch rootOnly !! "ghost" =
    Some (setChildren ["B"] emptyNode) ∧
  createChildNode "B" "ghost" emptyPatch rootOnly !! "B" =
    Some (setDepth 1 childDefaults).
Proof.
  split_and!; [done| |by vm_compute|by vm_compute].
  intros Heq. apply (f_equal (λ G : Graph, G !! "B")) in Heq.
  vm_compute in Heq. discriminate.
Qed.

(** C2, amended.  When [parentId] is not a key, [createChildNode] stores the
    new node under [newId] with depth 1 (defaults, then overrides, then
    depth), creates an entry at [parentId] whose only field is
    [children = [newId]], and leaves every other entry as it was. *)
Theorem createChild_missing_parent (newId parentId : string) (ov : Patch)
    (G : Graph) :
  G !! parentId = None → newId ≠ parentId →
  let G' := createChildNode newId parentId ov G in
  G' !! parentId = Some (setChildren [newId] emptyNode) ∧
  G' !! newId = Some (setDepth 1 (spread childDefaults ov)) ∧
  (∀ k, k ≠ parentId → k ≠ newId → G' !! k = G !! k).
Proof.
  intros Hp Hne G'. subst G'. split_and!.
  - rewrite createChildNode_lookup, Hp. by destruct (decide _).
  - rewrite createChildNode_lookup, Hp.
    destruct (decide (newId = parentId)); [done|]. by destruct (decide _).
  - intros k ? ?. rewrite createChildNode_lookup.
    destruct (decide (k = parentId)); [done|]. by destruct (decide _).
Qed.

Lemma createChild_missing_parent_witness :
  let G' := createChildNode "B" "ghost" emptyPatch rootOnly in
  G' !! "ghost" = Some (setChildren ["B"] emptyNode) ∧
  G' !! "B" = Some (setDepth 1 (spread childDefaults emptyPatch)) ∧
  (∀ k, k ≠ "ghost" → k ≠ "B" → G' !! k = rootOnly !! k).
Proof.
  apply (createChild_missing_parent "B" "ghost" emptyPatch rootOnly);
    [reflexivity | discriminate].
Defined.




(** The name built when [crypto.randomUUID] is missing. *)
Example generateId_fallback :
  generateId (ClockAndDraw "lq3x8k2f" "0.4fzyo82mvyr") = "n_lq3x8k2f_4fzyo".
Proof. reflexivity. Qed.

(** A [depth] supplied by [overrides] is overwritten. *)
Example createChild_overrides_depth :
  depth <$> createChildNode "B" "root" deepPatch rootAndA !! "B"
  = Some (Some 1%Z).
Proof. by vm_compute. Qed.

(** C3, as stated: patching an identifier that is not a key is a no-op.  It
    is not: the patch becomes a new node. *)
Lemma updateNode_missing_id_not_noop :
  rootOnly !! "ghost" = None ∧
  updateNode "ghost" titlePatch rootOnly ≠ rootOnly ∧
  updateNode "ghost" titlePatch rootOnly !! "ghost" =
    Some (mkNode (Some "x") None None None None None None None None).
Proof.
  split_and!; [done| |by vm_compute].
  intros Heq. apply (f_equal (λ G : Graph, G !! "ghost")) in Heq.
  vm_compute in Heq. discriminate.
Qed.

(** C3, amended.  When [id] is not a key, [updateNode] creates an entry at
    [id] that holds exactly the fields of the patch, and leaves every other
    entry as it was. *)
Theorem updateNode_missing_id (id : string) (patch : Patch) (G : Graph) :
  G !! id = None →
  updateNode id patch G !! id = Some (spread emptyNode patch) ∧
  (∀ k, k ≠ id → updateNode id patch G !! k = G !! k).
Proof.
  intros Hid. unfold updateNode. rewrite Hid. split.
  - by rewrite lookup_insert_eq.
  - intros k Hk. by rewrite lookup_insert_ne.
Qed.

Lemma updateNode_missing_id_witness :
  updateNode "ghost" titlePatch rootOnly !! "ghost"
    = Some (spread emptyNode titlePatch) ∧
  (∀ k, k ≠ "ghost" → updateNode "ghost" titlePatch rootOnly !! k = rootOnly !! k).
Proof.
  apply (updateNode_missing_id "ghost" titlePatch rootOnly). reflexivity.
Defined.

(** ** Reordering siblings *)

Lemma indexFrom_notin (a : string) (l : list string) (i : nat) (m : gmap string nat) :
  a ∉ l → indexFrom i l m !! a = m !! a.
Proof.
  revert i m. induction l as [|x l IH]; intros i m Hin; [done|].
  apply not_elem_of_cons in Hin as [Hax Hal]. simpl.
  rewrite IH by done. by rewrite lookup_insert_ne.
Qed.

(** The index recorded for a member is that of its last occurrence. *)
Lemma indexFrom_in (a : string) (l : list string) (i : nat) (m : gmap string nat) :
  a ∈ l →
  ∃ j, indexFrom i l m !! a = Some (i + j) ∧ l !! j = Some a ∧
       ∀ j', l !! j' = Some a → j' ≤ j.
Proof.
  revert i m. induction l as [|x l IH]; intros i m Hin; [by apply elem_of_nil in Hin|].
  simpl. destruct (decide (a ∈ l)) as [Hl|Hl].
  - destruct (IH (S i) (<[x:=i]> m) Hl) as (j & Hj & Hlj & Hmax).
    exists (S j). split_and!; [by rewrite Hj; f_equal; lia|done|].
    intros [|j'] Hj'; [lia|]. simpl in Hj'. apply Hmax in Hj'. lia.
  - apply elem_of_cons in Hin as [->|?]; [|done].
    exists 0. rewrite indexFrom_notin by done.
    rewrite lookup_insert_eq. split_and!; [by f_equal; lia|done|].
    intros [|j'] Hj'; [lia|]. simpl in Hj'.
    exfalso. apply Hl. by eapply list_elem_of_lookup_2.
Qed.

Lemma orderIndexOf_in (a : string) (l : list string) :
  a ∈ l →
  ∃ j, orderIndexOf l !! a = Some j ∧ l !! j = Some a ∧
       ∀ j', l !! j' = Some a → j' ≤ j.
Proof. intros Hin. apply (indexFrom_in a l 0 ∅ Hin). Qed.

Section sorting.
Variable posById : gmap string Z.

Lemma compareY_trans (x y z : option Z) :
  compareY x y ≠ Gt → compareY y z ≠ Gt → compareY x z ≠ Gt.
Proof.
  destruct x, y, z; simpl; try done.
  rewrite !Z.compare_gt_iff. lia.
Qed.

Lemma compareY_antisym (x y : option Z) :
  compareY x y ≠ Gt → compareY y x ≠ Gt → x = y.
Proof.
  destruct x, y; simpl; try done.
  rewrite !Z.compare_gt_iff. intros. f_equal. lia.
Qed.

Lemma compareY_total (x y : option Z) :
  compareY x y ≠ Gt ∨ compareY y x ≠ Gt.
Proof.
  destruct x, y; simpl; auto.
  rewrite !Z.compare_gt_iff. lia.
Qed.

Lemma mayPrecede_cases oi a b :
  mayPrecede posById oi a b ↔
    (posById !! a ≠ posById !! b ∧ compareY (posById !! a) (posById !! b) ≠ Gt)
    ∨ (posById !! a = posById !! b ∧
       default 0 (oi !! a) ≤ default 0 (oi !! b)).
Proof.
  unfold mayPrecede, siblingCompare.
  destruct (decide (posById !! a ≠ posById !! b)) as [Hne|Heq].
  - split; [by left|]. intros [[_ ?]|[? _]]; done.
  - apply dec_stable in Heq. rewrite Nat.compare_gt_iff.
    split; [right; split; [done|lia]|]. intros [[? _]|[_ ?]]; [done|lia].
Qed.

Lemma mayPrecede_trans oi a b c :
  mayPrecede posById oi a b → mayPrecede posById oi b c → mayPrecede posById oi a c.
Proof.
  rewrite !mayPrecede_cases.
  intros [[Hab Hab']|[Hab Hab']] [[Hbc Hbc']|[Hbc Hbc']].
  - left. split; [|by eapply compareY_trans].
    intros Hac. rewrite Hac in Hab'. apply Hab.
    rewrite Hac. symmetry. by apply compareY_antisym.
  - left. rewrite <- Hbc. done.
  - left. rewrite Hab. done.
  - right. split; [congruence|lia].
Qed.

Lemma mayPrecede_total oi a b : mayPrecede posById oi a b ∨ mayPrecede posById oi b a.
Proof.
  rewrite !mayPrecede_cases.
  destruct (decide (posById !! a = posById !! b)) as [Heq|Hne].
  - destruct (Nat.le_ge_cases (default 0 (oi !! a)) (default 0 (oi !! b)));
      [left|right]; right; split; done.
  - destruct (compareY_total (posById !! a) (posById !! b)); [left|right]; left; split; done.
Qed.

Lemma insertSorted_perm cmp x l : insertSorted cmp x l ≡ₚ x :: l.
Proof.
  induction l as [|y l IH]; simpl; [done|].
  destruct (cmp x y); try done. rewrite IH. apply Permutation_swap.
Qed.

Lemma stableSort_perm cmp l : stableSort cmp l ≡ₚ l.
Proof.
  induction l as [|x l IH]; simpl; [done|].
  rewrite insertSorted_perm. by rewrite IH.
Qed.

Lemma insertSorted_sorted oi x l :
  StronglySorted (mayPrecede posById oi) l →
  StronglySorted (mayPrecede posById oi) (insertSorted (siblingCompare posById oi) x l).
Proof.
  induction l as [|y l IH]; simpl; intros Hs.
  - repeat constructor.
  - destruct (siblingCompare posById oi x y) eqn:Hc.
    + constructor; [done|].
      assert (mayPrecede posById oi x y) as Hxy by (unfold mayPrecede; congruence).
      apply StronglySorted_inv in Hs as [_ Hall].
      constructor; [done|].
      eapply Forall_impl; [exact Hall|]. intros z. by apply mayPrecede_trans.
    + constructor; [done|].
      assert (mayPrecede posById oi x y) as Hxy by (unfold mayPrecede; congruence).
      apply StronglySorted_inv in Hs as [_ Hall].
      constructor; [done|].
      eapply Forall_impl; [exact Hall|]. intros z. by apply mayPrecede_trans.
    + apply StronglySorted_inv in Hs as [Hs Hall].
      constructor; [by apply IH|].
      rewrite insertSorted_perm. constructor; [|done].
      destruct (mayPrecede_total oi y x) as [|Hxy]; [done|].
      unfold mayPrecede in Hxy. congruence.
Qed.

Lemma stableSort_sorted oi l :
  StronglySorted (mayPrecede posById oi) (stableSort (siblingCompare posById oi) l).
Proof.
  induction l as [|x l IH]; simpl; [constructor|].
  by apply insertSorted_sorted.
Qed.

(** Sorting a list that is already in order leaves it as it is. *)
Lemma stableSort_fixed oi l :
  StronglySorted (mayPrecede posById oi) l →
  stableSort (siblingCompare posById oi) l = l.
Proof.
  induction l as [|x l IH]; [done|]. intros [Hs Hall]%StronglySorted_inv.
  simpl. rewrite IH by done. destruct l as [|y l]; [done|]. simpl.
  apply Forall_cons in Hall as [Hxy _]. unfold mayPrecede in Hxy.
  by destruct (siblingCompare posById oi x y).
Qed.

Lemma StronglySorted_lookup {A} (R : relation A) (l : list A) i j a b :
  StronglySorted R l → i < j → l !! i = Some a → l !! j = Some b → R a b.
Proof.
  intros Hs. revert i j. induction Hs as [|x l Hs IH Hall]; intros i j Hij Hi Hj; [done|].
  destruct j as [|j]; [lia|]. simpl in Hj. destruct i as [|i]; simpl in Hi.
  - simplify_eq. rewrite Forall_forall in Hall. apply Hall.
    by eapply list_elem_of_lookup_2.
  - apply (IH i j); [lia|done|done].
Qed.

Lemma StronglySorted_of_lookup {A} (R : relation A) (l : list A) :
  (∀ i j a b, i < j → l !! i = Some a → l !! j = Some b → R a b) →
  StronglySorted R l.
Proof.
  induction l as [|x l IH]; intros H; constructor.
  - apply IH. intros i j a b Hij Hi Hj. apply (H (S i) (S j) a b); [lia|done|done].
  - apply Forall_forall. intros y [j Hj]%list_elem_of_lookup_1.
    apply (H 0 (S j) x y); [lia|done|done].
Qed.

(** A list in order for the indices of another list with the same elements
    is in order for its own indices. *)
Lemma sorted_own_index l s :
  s ≡ₚ l →
  StronglySorted (mayPrecede posById (orderIndexOf l)) s →
  StronglySorted (mayPrecede posById (orderIndexOf s)) s.
Proof.
  intros Hperm Hs. apply StronglySorted_of_lookup. intros i j a b Hij Hi Hj.
  pose proof (StronglySorted_lookup _ _ _ _ _ _ Hs Hij Hi Hj) as Hab.
  apply mayPrecede_cases. apply mayPrecede_cases in Hab.
  destruct Hab as [Hab|[Hy Hidx]]; [by left|]. right. split; [done|].
  assert (a ∈ s) as Has by (by eapply list_elem_of_lookup_2).
  assert (b ∈ s) as Hbs by (by eapply list_elem_of_lookup_2).
  destruct (orderIndexOf_in a s Has) as (ia & Hia & Hsa & Hmaxa).
  destruct (orderIndexOf_in b s Hbs) as (ib & Hib & Hsb & Hmaxb).
  rewrite Hia, Hib. simpl.
  destruct (decide (ia ≤ ib)) as [|Hgt]; [done|]. exfalso.
  assert (ib < ia) as Hlt by lia.
  pose proof (StronglySorted_lookup _ _ _ _ _ _ Hs Hlt Hsb Hsa) as Hba.
  apply mayPrecede_cases in Hba.
  destruct Hba as [[Hne _]|[_ Hidx']]; [congruence|].
  destruct (orderIndexOf_in a l) as (ka & Hka & Hla & _); [by rewrite <- Hperm|].
  destruct (orderIndexOf_in b l) as (kb & Hkb & Hlb & _); [by rewrite <- Hperm|].
  rewrite Hka, Hkb in Hidx, Hidx'. simpl in *.
  assert (ka = kb) as -> by lia. assert (a = b) as -> by congruence.
  assert (ia = ib) by congruence. lia.
Qed.

(** Sorting the sorted children again, with the indices taken afresh, does
    not move anything. *)
Lemma stableSort_idempotent l :
  let s := stableSort (siblingCompare posById (orderIndexOf l)) l in
  stableSort (siblingCompare posById (orderIndexOf s)) s = s.
Proof.
  intros s. apply stableSort_fixed. apply (sorted_own_index l).
  - apply stableSort_perm.
  - apply stableSort_sorted.
Qed.

End sorting.

Example reorder_ex :
  children <$> reorderChildrenByPosition kidPositions "root" threeKids !! "root"
  = Some (Some ["b"; "c"; "a"; "d"]).
Proof. by vm_compute. Qed.

Lemma reorder_lookup posById pid (G : Graph) k :
  (is_Some (reorderChildrenByPosition posById pid G !! k) ↔ is_Some (G !! k)) ∧
  ∀ d, d ∈ childrenOf (reorderChildrenByPosition posById pid G !! k)
       ↔ d ∈ childrenOf (G !! k).
Proof.
  unfold reorderChildrenByPosition.
  destruct (G !! pid) as [parent|] eqn:Hp; [|done].
  destruct (length _ <=? 1); [done|].
  destruct (decide _) as [|_]; [done|].
  destruct (decide (k = pid)) as [->|Hne].
  - rewrite lookup_insert_eq, Hp. split; [by split; eauto|].
    intros d. unfold childrenOf. simpl. by rewrite stableSort_perm.
  - by rewrite lookup_insert_ne.
Qed.

Lemma findParent_reorder posById pid keys d (G : Graph) :
  findParent (entriesIn keys (reorderChildrenByPosition posById pid G)) d
  = findParent (entriesIn keys G) d.
Proof.
  unfold findParent, entriesIn. induction keys as [|k keys IH]; [done|].
  simpl. destruct (reorder_lookup posById pid G k) as [Hsome Hmem].
  destruct (G !! k) as [n|] eqn:Hk.
  - destruct (proj2 Hsome) as [n' Hn']; [eauto|]. rewrite Hn'. simpl.
    rewrite Hn' in Hmem.
    rewrite (bool_decide_ext _ _ (Hmem d)).
    by destruct (bool_decide _).
  - destruct (reorderChildrenByPosition posById pid G !! k) eqn:Hk'; [|done].
    destruct (proj1 Hsome); eauto. done.
Qed.

(** C9.  Reordering the children of a parent by position is idempotent:
    for every graph, parent and positions, doing it a second time with the
    same positions gives the graph (hence the children order) of the first
    time.  The same holds for the whole drag-stop handler, which looks the
    parent up first: the second drag-stop finds the same parent and has
    nothing left to reorder. *)
Theorem reorderChildrenByPosition_idempotent (posById : gmap string Z)
    (parentId : string) (G : Graph) :
  reorderChildrenByPosition posById parentId
    (reorderChildrenByPosition posById parentId G)
  = reorderChildrenByPosition posById parentId G
  ∧ ∀ keys nodes draggedId,
      onNodeDragStop keys nodes draggedId
        (onNodeDragStop keys nodes draggedId G)
      = onNodeDragStop keys nodes draggedId G.
Proof.
  assert (∀ posById parentId,
            reorderChildrenByPosition posById parentId
              (reorderChildrenByPosition posById parentId G)
            = reorderChildrenByPosition posById parentId G) as Htwice.
  { clear posById parentId. intros posById parentId.
    unfold reorderChildrenByPosition at 2 3.
    destruct (G !! parentId) as [parent|] eqn:Hp;
      [|by unfold reorderChildrenByPosition; rewrite Hp].
    set (sibs := default [] (children parent)).
    destruct (length sibs <=? 1) eqn:Hlen.
    { unfold reorderChildrenByPosition. rewrite Hp. fold sibs. by rewrite Hlen. }
    set (sorted := stableSort _ sibs).
    destruct (decide (sibs = sorted)) as [Heq|Hne].
    { unfold reorderChildrenByPosition. rewrite Hp. fold sibs. rewrite Hlen.
      fold sorted. by destruct (decide (sibs = sorted)). }
    unfold reorderChildrenByPosition. rewrite lookup_insert_eq. simpl.
    destruct (length sorted <=? 1); [done|].
    pose proof (stableSort_idempotent posById sibs) as Hidem. simpl in Hidem.
    fold sorted in Hidem. rewrite Hidem.
    by destruct (decide (sorted = sorted)).
  }
  split; [apply Htwice|]. intros keys nodes d.
  unfold onNodeDragStop at 2 3. destruct (decide (d = "")) as [Hd|Hd].
  { unfold onNodeDragStop. by rewrite decide_True. }
  destruct (findParent (entriesIn keys G) d) as [pid|] eqn:Hfp.
  - destruct (decide (pid = "")) as [Hpid|Hpid].
    + unfold onNodeDragStop. by rewrite decide_False, Hfp, decide_True.
    + unfold onNodeDragStop. rewrite decide_False by done.
      rewrite findParent_reorder, Hfp, decide_False by done.
      apply Htwice.
  - unfold onNodeDragStop. by rewrite decide_False, Hfp.
Qed.

(** ** Depth recomputation *)

Section bfs.
Variable G : Graph.

(** What one pass over the children of a dequeued node does, when no depth
    recorded so far exceeds [d + 1]: it labels some new keys with [d + 1]
    and queues them, and touches nothing else. *)
Lemma relaxChildren_spec (d : Z) (cs q : list string) (td : gmap string Z) :
  (∀ y dy, td !! y = Some dy → (dy ≤ d + 1)%Z) →
  ∃ new : list string,
    relaxChildren G d cs q td
      = (q ++ new, foldr (λ c m, <[c := (d + 1)%Z]> m) td new) ∧
    NoDup new ∧
    (∀ c, c ∈ new → td !! c = None ∧ is_Some (G !! c) ∧ c ∈ cs) ∧
    (∀ c, c ∈ cs → is_Some (G !! c) → c ∈ new ∨ is_Some (td !! c)).
Proof.
  revert q td. induction cs as [|cid rest IH]; intros q td Hle.
  - exists []. simpl. rewrite app_nil_r. split_and!; [done|constructor| |].
    + by intros c ?%elem_of_nil.
    + by intros c ?%elem_of_nil.
  - simpl. destruct (G !! cid) as [n|] eqn:Hcid.
    + destruct (td !! cid) as [cur|] eqn:Hcur.
      * assert ((d + 1 <? cur)%Z = false) as ->.
        { apply Z.ltb_ge. by eapply Hle. }
        destruct (IH q td Hle) as (new & Hrun & Hnd & Hnew & Hall).
        exists new. split_and!; [done|done| |].
        -- intros c Hc. destruct (Hnew c Hc) as (?&?&?).
           split_and!; [done|done|by apply elem_of_cons; right].
        -- intros c [->|Hc]%elem_of_cons Hk; [right; eauto|by apply Hall].
      * destruct (IH (q ++ [cid]) (<[cid := (d + 1)%Z]> td)) as (new & Hrun & Hnd & Hnew & Hall).
        { intros y dy. destruct (decide (y = cid)) as [->|Hne].
          - rewrite lookup_insert_eq. intros [= <-]. lia.
          - rewrite lookup_insert_ne by done. apply Hle. }
        assert (cid ∉ new) as Hfresh.
        { intros Hin. destruct (Hnew cid Hin) as (Hnone & _).
          by rewrite lookup_insert_eq in Hnone. }
        exists (cid :: new). split_and!.
        -- rewrite Hrun. f_equal; [by rewrite <- app_assoc|].
           simpl. clear -Hfresh.
           induction new as [|x new IHn]; [done|]. simpl.
           apply not_elem_of_cons in Hfresh as [Hne Hfresh].
           rewrite IHn by done. by rewrite insert_insert_ne.
        -- by constructor.
        -- intros c [->|Hc]%elem_of_cons.
           ++ split_and!; [done|eauto|by apply elem_of_cons; left].
           ++ destruct (Hnew c Hc) as (Hnone & ? & ?).
              split_and!; [|done|by apply elem_of_cons; right].
              destruct (decide (c = cid)) as [->|Hne]; [done|].
              by rewrite lookup_insert_ne in Hnone.
        -- intros c [->|Hc]%elem_of_cons Hk.
           ++ left. by apply elem_of_cons; left.
           ++ destruct (Hall c Hc Hk) as [?|Hs].
              ** left. by apply elem_of_cons; right.
              ** destruct (decide (c = cid)) as [->|Hne].
                 --- left. by apply elem_of_cons; left.
                 --- right. by rewrite lookup_insert_ne in Hs.
    + destruct (IH q td Hle) as (new & Hrun & Hnd & Hnew & Hall).
      exists new. split_and!; [done|done| |].
      * intros c Hc. destruct (Hnew c Hc) as (?&?&?).
        split_and!; [done|done|by apply elem_of_cons; right].
      * intros c [->|Hc]%elem_of_cons Hk; [|by apply Hall].
        rewrite Hcid in Hk. by destruct Hk.
Qed.

Lemma lookup_label_all (v : Z) (new : list string) (td : gmap string Z) k :
  foldr (λ c m, <[c := v]> m) td new !! k
  = if decide (k ∈ new) then Some v else td !! k.
Proof.
  induction new as [|x new IH]; simpl.
  - by destruct (decide (k ∈ [])) as [?%elem_of_nil|].
  - destruct (decide (x = k)) as [->|Hne].
    + rewrite lookup_insert_eq. rewrite decide_True; [done|by apply elem_of_cons; left].
    + rewrite lookup_insert_ne, IH by done.
      destruct (decide (k ∈ new)) as [Hin|Hin].
      * rewrite decide_True; [done|by apply elem_of_cons; right].
      * rewrite decide_False; [done|]. intros [->|?]%elem_of_cons; done.
Qed.

Lemma size_label_all (v : Z) (new : list string) (td : gmap string Z) :
  NoDup new → (∀ c, c ∈ new → td !! c = None) →
  size (foldr (λ c m, <[c := v]> m) td new) = size td + length new.
Proof.
  induction 1 as [|x new Hx Hnd IH]; intros Hfresh; simpl; [lia|].
  rewrite map_size_insert_None.
  - rewrite IH; [lia|]. intros c Hc. apply Hfresh. by apply elem_of_cons; right.
  - rewrite lookup_label_all. rewrite decide_False by done.
    apply Hfresh. by apply elem_of_cons; left.
Qed.

End bfs.

Section bfs_loop.
Variable G : Graph.

Lemma depthIn_Some td x d : td !! x = Some d → depthIn td x = d.
Proof. unfold depthIn. by intros ->. Qed.

(** One iteration keeps the invariant and dequeues one identifier for each
    set of keys it records. *)
Lemma bfs_step (h : string) (q' : list string) (td : gmap string Z) :
  bfsInv G (h :: q') td →
  ∃ q'' td'',
    relaxChildren G (depthIn td h) (childrenOf (G !! h)) q' td = (q'', td'') ∧
    bfsInv G q'' td'' ∧
    length q'' + size td = length q' + size td''.
Proof.
  intros (Hroot & Hsound & Hq & Hsorted & Hfront & Hclosed & Hkeys).
  destruct (Hq h) as [d Hh]; [by apply elem_of_cons; left|].
  rewrite (depthIn_Some _ _ _ Hh).
  assert (∀ y dy, td !! y = Some dy → (dy ≤ d + 1)%Z) as Hle.
  { intros y dy Hy. specialize (Hfront h q' eq_refl y dy Hy).
    by rewrite (depthIn_Some _ _ _ Hh) in Hfront. }
  destruct (relaxChildren_spec G d (childrenOf (G !! h)) q' td Hle)
    as (new & Hrun & Hnd & Hnew & Hall).
  set (td'' := foldr (λ c m, <[c := (d + 1)%Z]> m) td new) in *.
  assert (∀ k, td'' !! k = if decide (k ∈ new) then Some (d + 1)%Z else td !! k)
    as Hlook by (intros k; apply lookup_label_all).
  assert (∀ k, is_Some (td !! k) → td'' !! k = td !! k) as Hold.
  { intros k Hk. rewrite Hlook. destruct (decide (k ∈ new)) as [Hin|]; [|done].
    destruct (Hnew k Hin) as (Hnone & _). rewrite Hnone in Hk. by destruct Hk. }
  assert (∀ k, k ∈ new → td'' !! k = Some (d + 1)%Z) as Hnewv.
  { intros k Hk. rewrite Hlook. by rewrite decide_True. }
  assert (∀ k, k ∈ q' → depthIn td'' k = depthIn td k) as Hdq.
  { intros k Hk. unfold depthIn. rewrite Hold; [done|].
    apply Hq. by apply elem_of_cons; right. }
  apply StronglySorted_inv in Hsorted as [Hsorted Hhead].
  rewrite Forall_forall in Hhead. rewrite (depthIn_Some _ _ _ Hh) in Hhead.
  exists (q' ++ new), td''. split; [done|]. split; [|].
  - split_and!.
    + rewrite Hold; eauto.
    + intros x dx. rewrite Hlook. destruct (decide (x ∈ new)) as [Hin|Hin].
      * intros [= <-]. destruct (Hsound h d Hh) as (n & -> & Hpath).
        destruct (Hnew x Hin) as (_ & Hkey & Hcs).
        exists (S n). split; [lia|]. eapply nsteps_r; [exact Hpath|].
        by split.
      * apply Hsound.
    + intros x [Hx|Hx]%elem_of_app.
      * rewrite Hold; apply Hq; by apply elem_of_cons; right.
      * rewrite Hnewv; eauto.
    + apply StronglySorted_app_2.
      * intros x y Hx Hy. rewrite (Hdq x Hx).
        rewrite (depthIn_Some _ _ _ (Hnewv y Hy)).
        destruct (Hq x) as [dx Hdx]; [by apply elem_of_cons; right|].
        rewrite (depthIn_Some _ _ _ Hdx). by eapply Hle.
      * apply StronglySorted_of_lookup. intros i j a b Hij Hi Hj.
        rewrite (Hdq a), (Hdq b) by (by eapply list_elem_of_lookup_2).
        by eapply (StronglySorted_lookup _ _ _ _ _ _ Hsorted Hij).
      * apply StronglySorted_of_lookup. intros i j a b Hij Hi Hj.
        rewrite (depthIn_Some _ _ _ (Hnewv a ltac:(by eapply list_elem_of_lookup_2))).
        rewrite (depthIn_Some _ _ _ (Hnewv b ltac:(by eapply list_elem_of_lookup_2))).
        done.
    + intros h' r Heq y dy Hy.
      assert (dy ≤ d + 1)%Z as Hdy.
      { rewrite Hlook in Hy. destruct (decide (y ∈ new)); [by simplify_eq|by eapply Hle]. }
      assert (h' ∈ q' ++ new) as [Hin|Hin]%elem_of_app
        by (rewrite Heq; by apply elem_of_cons; left).
      * rewrite (Hdq h' Hin). specialize (Hhead h' Hin). lia.
      * rewrite (depthIn_Some _ _ _ (Hnewv h' Hin)). lia.
    + intros x dx Hx Hnq c Hc.
      apply not_elem_of_app in Hnq as [Hnq' Hnn].
      rewrite Hlook, decide_False in Hx by done.
      destruct (decide (x = h)) as [->|Hne].
      * assert (dx = d) as -> by congruence.
        destruct Hc as [Hc Hkey].
        destruct (Hall c Hc Hkey) as [Hin|[dc Hdc]].
        -- exists (d + 1)%Z. split; [by apply Hnewv|lia].
        -- exists dc. split; [rewrite Hold; eauto|by eapply Hle].
      * destruct (Hclosed x dx Hx) with (c := c) as (dc & Hdc & Hle'); [|done|].
        { intros [->|?]%elem_of_cons; done. }
        exists dc. split; [rewrite Hold; eauto|done].
    + intros x. rewrite Hlook. destruct (decide (x ∈ new)) as [Hin|Hin].
      * intros _. by destruct (Hnew x Hin) as (_ & ? & _).
      * apply Hkeys.
  - rewrite length_app. unfold td''. rewrite size_label_all; [lia|done|].
    intros c Hc. by destruct (Hnew c Hc).
Qed.

Lemma bfsInv_size (q : list string) (td : gmap string Z) :
  bfsInv G q td → size td ≤ size G.
Proof.
  intros (_ & _ & _ & _ & _ & _ & Hkeys).
  rewrite <- !size_dom. apply subseteq_size.
  intros x. rewrite !elem_of_dom. apply Hkeys.
Qed.

(** With one unit of fuel per identifier still to be dequeued, and one
    more, the loop ends, on a state that satisfies the invariant with an
    empty queue. *)
Lemma bfsLoop_terminates (fuel : nat) (q : list string) (td : gmap string Z) :
  bfsInv G q td → length q + size G < fuel + size td →
  ∃ td', bfsLoop fuel G q td = Some td' ∧ bfsInv G [] td'.
Proof.
  revert q td. induction fuel as [|fuel IH]; intros q td Hinv Hfuel.
  - pose proof (bfsInv_size q td Hinv). lia.
  - destruct q as [|h q']; simpl; [eauto|].
    destruct (bfs_step h q' td Hinv) as (q'' & td'' & -> & Hinv' & Hsize).
    apply IH; [done|]. simpl in Hfuel. lia.
Qed.

Lemma bfsInv_init :
  is_Some (G !! "root") → bfsInv G ["root"] {["root" := 0%Z]}.
Proof.
  intros Hroot. split_and!.
  - by rewrite lookup_singleton_eq.
  - intros x dx [-> <-]%lookup_singleton_Some. exists 0. split; [done|constructor].
  - intros x Hx%list_elem_of_singleton. subst x. by rewrite lookup_singleton_eq.
  - repeat constructor.
  - intros h q' [= <- <-] y dy [-> <-]%lookup_singleton_Some.
    unfold depthIn. rewrite lookup_singleton_eq. simpl. lia.
  - intros x dx [-> <-]%lookup_singleton_Some Hn. exfalso. apply Hn.
    by apply list_elem_of_singleton.
  - intros x [dx [<- <-]%lookup_singleton_Some]. done.
Qed.

End bfs_loop.

Section bfs_result.
Variable G : Graph.
Hypothesis Hroot : is_Some (G !! "root").

(** A path along the children relation that ends on a key only visits
    keys. *)
Lemma nsteps_child_nodeEdge n x :
  nsteps (childRel G) n "root" x → is_Some (G !! x) →
  nsteps (nodeEdge G) n "root" x.
Proof.
  revert x. induction n as [|n IH]; intros x Hpath Hx.
  - inversion Hpath; subst. constructor.
  - apply nsteps_inv_r in Hpath as (y & Hpath & Hyx).
    eapply nsteps_r; [|by split]. apply IH; [done|].
    unfold childRel, childrenOf in Hyx.
    destruct (G !! y); [eauto|]. by apply elem_of_nil in Hyx.
Qed.

Lemma nsteps_nodeEdge_child n x :
  nsteps (nodeEdge G) n "root" x →
  nsteps (childRel G) n "root" x ∧ is_Some (G !! x).
Proof.
  revert x. induction n as [|n IH]; intros x Hpath.
  - inversion Hpath; subst. split; [constructor|done].
  - apply nsteps_inv_r in Hpath as (y & Hpath & Hyx & Hx).
    split; [|done]. eapply nsteps_r; [|done]. by apply IH.
Qed.

Lemma reachableNode_nsteps x :
  reachableNode G x ↔ ∃ n, nsteps (nodeEdge G) n "root" x.
Proof.
  unfold reachableNode, descendant. rewrite rtc_nsteps. split.
  - intros [Hx [n Hn]]. exists n. by apply nsteps_child_nodeEdge.
  - intros [n Hn]. apply nsteps_nodeEdge_child in Hn as [? ?]. eauto.
Qed.

(** Once the queue is empty every node at the end of a path has a recorded
    depth, at most the length of the path. *)
Lemma bfs_complete (td : gmap string Z) n x :
  bfsInv G [] td → nsteps (nodeEdge G) n "root" x →
  ∃ d, td !! x = Some d ∧ (d ≤ Z.of_nat n)%Z.
Proof.
  intros (Hr & _ & _ & _ & _ & Hclosed & _). revert x.
  induction n as [|n IH]; intros x Hpath.
  - inversion Hpath; subst. exists 0%Z. split; [done|lia].
  - apply nsteps_inv_r in Hpath as (y & Hpath & Hyx).
    destruct (IH y Hpath) as (dy & Hdy & Hle).
    destruct (Hclosed y dy Hdy (not_elem_of_nil _) x Hyx) as (dx & Hdx & Hle').
    exists dx. split; [done|lia].
Qed.

Lemma recomputeDepths_lookup :
  ∃ td, bfsInv G [] td ∧
    recomputeDepths G
      = Some (map_imap (λ id node, Some (applyDepth td id node)) G).
Proof.
  destruct (bfsLoop_terminates G (S (size G)) ["root"] {["root" := 0%Z]})
    as (td & Hrun & Hinv).
  - by apply bfsInv_init.
  - rewrite map_size_singleton. simpl. lia.
  - exists td. split; [done|]. unfold recomputeDepths, targetDepths.
    destruct Hroot as [r ->]. by rewrite Hrun.
Qed.

Lemma depth_applyDepth td x n :
  depth (applyDepth td x n) = match td !! x with Some want => Some want | None => depth n end.
Proof.
  unfold applyDepth. destruct (td !! x) as [want|]; [|done].
  destruct (decide (depth n ≠ Some want)) as [|Heq]; [done|].
  by apply dec_stable in Heq.
Qed.

End bfs_result.

(** C5.  On a graph that has a root, [recomputeDepths] returns a graph in
    which the root has depth 0; every other node reachable from the root has
    a depth one more than that of a reachable parent, and no reachable
    parent lies higher (the depth is the length of a shortest path from the
    root), so that it is one more than the depth of its parent when it has a
    single one; nodes that are not reachable are left as they were. *)
Theorem recomputeDepths_bfs (G : Graph) :
  is_Some (G !! "root") →
  ∃ G', recomputeDepths G = Some G' ∧
    depthAt G' "root" = Some 0%Z ∧
    (∀ x, reachableNode G x → x ≠ "root" →
       ∃ p dp, reachableNode G p ∧ childRel G p x ∧
         depthAt G' p = Some dp ∧ depthAt G' x = Some (1 + dp)%Z ∧
         ∀ p', reachableNode G p' → childRel G p' x →
               ∃ dp', depthAt G' p' = Some dp' ∧ (dp ≤ dp')%Z) ∧
    (∀ x p, reachableNode G x → x ≠ "root" →
       (∀ p', childRel G p' x → p' = p) →
       ∃ dp, depthAt G' p = Some dp ∧ depthAt G' x = Some (1 + dp)%Z) ∧
    (∀ x, reachableNode G x →
       ∃ n, depthAt G' x = Some (Z.of_nat n) ∧
            nsteps (childRel G) n "root" x ∧
            ∀ m, nsteps (childRel G) m "root" x → n ≤ m) ∧
    (∀ x, ¬ reachableNode G x → G' !! x = G !! x).
Proof.
  intros Hroot.
  destruct (recomputeDepths_lookup G Hroot) as (td & Hinv & Hrun).
  eexists. split; [exact Hrun|].
  pose proof Hinv as (Hr & Hsound & _ & _ & _ & Hclosed & Hkeys).
  assert (∀ x, depthAt (map_imap (λ id node, Some (applyDepth td id node)) G) x
               = G !! x ≫= λ n, match td !! x with
                                | Some want => Some want
                                | None => depth n
                                end) as Hdepth.
  { intros x. unfold depthAt. rewrite map_lookup_imap.
    destruct (G !! x) as [n|]; [|done]. simpl. apply depth_applyDepth. }
  assert (∀ x d, td !! x = Some d →
     depthAt (map_imap (λ id node, Some (applyDepth td id node)) G) x = Some d)
    as Hrec.
  { intros x d Hx. rewrite Hdepth. destruct (Hkeys x) as [n ->]; [eauto|].
    simpl. by rewrite Hx. }
  assert (∀ x, reachableNode G x →
     ∃ n, td !! x = Some (Z.of_nat n) ∧ nsteps (nodeEdge G) n "root" x ∧
          ∀ m, nsteps (nodeEdge G) m "root" x → n ≤ m) as Hmin.
  { intros x [m Hm]%reachableNode_nsteps; [|done].
    destruct (bfs_complete G td m x Hinv Hm) as (d & Hd & _).
    destruct (Hsound x d Hd) as (n & -> & Hn). exists n. split_and!; [done|done|].
    intros m' Hm'. destruct (bfs_complete G td m' x Hinv Hm') as (d' & Hd' & Hle).
    rewrite Hd in Hd'. simplify_eq. lia. }
  assert (∀ x, reachableNode G x → x ≠ "root" →
       ∃ p dp, reachableNode G p ∧ childRel G p x ∧
         td !! p = Some dp ∧ td !! x = Some (1 + dp)%Z ∧
         ∀ p', reachableNode G p' → childRel G p' x →
               ∃ dp', td !! p' = Some dp' ∧ (dp ≤ dp')%Z) as Hparent.
  { intros x Hx Hne. destruct (Hmin x Hx) as (n & Hn & Hpath & _).
    destruct n as [|n]; [inversion Hpath; by subst|].
    apply nsteps_inv_r in Hpath as (p & Hpath & Hpx).
    destruct (bfs_complete G td n p Hinv Hpath) as (dp & Hdp & Hle).
    destruct (Hclosed p dp Hdp (not_elem_of_nil _) x Hpx) as (dx & Hdx & Hle').
    rewrite Hn in Hdx. simplify_eq.
    assert (dp = Z.of_nat n) as -> by lia.
    exists p, (Z.of_nat n). split_and!.
    - apply reachableNode_nsteps; eauto.
    - by destruct Hpx.
    - done.
    - rewrite Hn. f_equal. lia.
    - intros p' Hp' Hp'x. destruct (Hmin p' Hp') as (k & Hk & _ & _).
      exists (Z.of_nat k). split; [done|].
      destruct (Hclosed p' _ Hk (not_elem_of_nil _) x) as (dx & Hdx & Hle'').
      { split; [done|by destruct Hx]. }
      rewrite Hn in Hdx. simplify_eq. lia. }
  split_and!.
  - by apply Hrec.
  - intros x Hx Hne.
    destruct (Hparent x Hx Hne) as (p & dp & Hp & Hpx & Hdp & Hdx & Hleast).
    exists p, dp. split_and!; [done|done|by apply Hrec|by apply Hrec|].
    intros p' Hp' Hp'x. destruct (Hleast p' Hp' Hp'x) as (dp' & Hdp' & Hle).
    exists dp'. split; [by apply Hrec|done].
  - intros x p Hx Hne Huniq.
    destruct (Hparent x Hx Hne) as (p0 & dp & Hp & Hpx & Hdp & Hdx & _).
    rewrite (Huniq p0 Hpx) in Hdp. exists dp. split; by apply Hrec.
  - intros x Hx. destruct (Hmin x Hx) as (n & Hn & Hpath & Hleast).
    exists n. split_and!; [by apply Hrec| |].
    + by apply (nsteps_nodeEdge_child G Hroot).
    + intros m Hm. apply Hleast. apply nsteps_child_nodeEdge; [done|].
      by destruct Hx.
  - intros x Hx. rewrite map_lookup_imap.
    destruct (G !! x) as [n|] eqn:Hn; [|done]. simpl. f_equal.
    unfold applyDepth. destruct (td !! x) as [d|] eqn:Hd; [|done].
    exfalso. apply Hx. destruct (Hsound x d Hd) as (k & _ & Hk).
    apply reachableNode_nsteps; eauto.
Qed.

Lemma recomputeDepths_bfs_witness :
  is_Some (staleDepths !! "root") ∧
  ∃ G', recomputeDepths staleDepths = Some G' ∧
    depthAt G' "root" = Some 0%Z ∧
    (∀ x, ¬ reachableNode staleDepths x → G' !! x = staleDepths !! x).
Proof.
  assert (is_Some (staleDepths !! "root")) as Hroot by (by eexists).
  split; [exact Hroot|].
  destruct (recomputeDepths_bfs staleDepths Hroot)
    as (G' & Hrun & H0 & _ & _ & _ & Hrest).
  exists G'. split_and!; [exact Hrun|exact H0|exact Hrest].
Defined.

(** On the sample graph the stale depths 5 and 7 of ["a"] and ["c"] become 1
    and 2; the orphan ["z"] keeps its 9. *)
Example recomputeDepths_sample :
  (λ G', (depthAt G' "root", depthAt G' "a", depthAt G' "b",
          depthAt G' "c", depthAt G' "z")) <$> recomputeDepths staleDepths
  = Some (Some 0, Some 1, Some 1, Some 2, Some 9)%Z.
Proof. by vm_compute. Qed.

(** ** Recurring tasks *)

Example calendar_epoch : daysFromCivil 1970 1 1 = 0%Z.
Proof. reflexivity. Qed.

Example calendar_day : civilFromDays 19732 = (2024, 1, 10)%Z.
Proof. reflexivity. Qed.

Example parseDue_day : parseDue "2020-01-01" = Some 18262%Z.
Proof. reflexivity. Qed.

Example parseDue_rolls_over :
  parseDue "2020-13-45" = Some (daysFromCivil 2021 2 14).
Proof. reflexivity. Qed.

Example parseDue_two_parts : parseDue "2020-01" = None.
Proof. reflexivity. Qed.

Example isoDate_day : isoDate 19262 = "2022-09-27".
Proof. by vm_compute. Qed.

(** The loop stops on the first date that is not before [today], unless the
    guard stops it after [left] steps or a date leaves the range of
    [Date]. *)
Lemma advanceLoop_spec (left : nat) (step today due : Z) :
  (0 < step)%Z →
  ∃ k : nat, k ≤ left ∧
    (∀ j : nat, j < k → (due + Z.of_nat j * step < today)%Z) ∧
    (∀ j : nat, 1 ≤ j < k →
       (Z.abs (due + Z.of_nat j * step) ≤ 100000000)%Z) ∧
    ((advanceLoop left step today due = Some (due + Z.of_nat k * step)%Z ∧
      (1 ≤ k → (Z.abs (due + Z.of_nat k * step) ≤ 100000000)%Z) ∧
      ((today ≤ due + Z.of_nat k * step)%Z ∨ k = left)) ∨
     (advanceLoop left step today due = None ∧ 1 ≤ k ∧
      (100000000 < Z.abs (due + Z.of_nat k * step))%Z)).
Proof.
  intros Hstep. revert due. induction left as [|left IH]; intros due.
  - exists 0. split_and!; [lia|lia|lia|]. left.
    split_and!; [cbn [advanceLoop]; f_equal; lia|lia|by right].
  - cbn [advanceLoop]. destruct (due <? today)%Z eqn:Hlt.
    + apply Z.ltb_lt in Hlt. cbv zeta.
      destruct (Z.abs (due + step) <=? 100000000)%Z eqn:Hrange.
      * apply Z.leb_le in Hrange.
        destruct (IH (due + step)%Z)
          as (k & Hk & Hbefore & Hin & Hend).
        exists (S k). split_and!; [lia| | |].
        -- intros [|j] Hj; [lia|]. specialize (Hbefore j ltac:(lia)). lia.
        -- intros [|j] Hj; [lia|]. destruct j as [|j].
           ++ replace (due + Z.of_nat 1 * step)%Z with (due + step)%Z by lia.
              done.
           ++ specialize (Hin (S j) ltac:(lia)).
              replace (due + Z.of_nat (S (S j)) * step)%Z
                with (due + step + Z.of_nat (S j) * step)%Z by lia.
              done.
        -- replace (due + Z.of_nat (S k) * step)%Z
             with (due + step + Z.of_nat k * step)%Z by lia.
           destruct Hend as [(Hrun & Hlast & Hstop)|(Hrun & Hk1 & Hout)].
           ++ left. split_and!; [done| |].
              ** intros _. destruct k as [|k]; [|apply Hlast; lia].
                 replace (due + step + Z.of_nat 0 * step)%Z
                   with (due + step)%Z by lia. done.
              ** destruct Hstop as [?| ->]; [by left|by right].
           ++ right. split_and!; [done|lia|done].
      * apply Z.leb_gt in Hrange. exists 1. split_and!; [lia| |lia|].
        -- intros j Hj. replace j with 0 by lia. lia.
        -- right. split_and!; [done|lia|].
           replace (due + Z.of_nat 1 * step)%Z with (due + step)%Z by lia.
           done.
    + apply Z.ltb_ge in Hlt.
      exists 0. split_and!; [lia|lia|lia|]. left.
      split_and!; [f_equal; lia|lia|left; lia].
Qed.

Section recurrence.
Context `{JsHost}.

(** On a completed, repeating task that is due before [today] the body runs
    the loop. *)
Lemma advanceNode_run (today : Z) (node : Node) (s : string) (step due : Z) :
  dueDate node = Some s → repeatDays node = Some step → (0 < step)%Z →
  completed node = Some true → parseDue s = Some due → (due < today)%Z →
  advanceNode today node
  = match advanceLoop 1000 step today due with
    | None => None
    | Some due' =>
        if decide (due' ≠ due) then Some (setDueAndReopen (isoDate due') node)
        else Some node
    end.
Proof.
  intros Hs Hstep Hpos Hdone Hparse Hpast. unfold advanceNode.
  rewrite Hs, Hstep, Hdone.
  assert (s ≠ "") as Hne by (intros ->; by vm_compute in Hparse).
  rewrite (proj2 (String.eqb_neq s "") Hne).
  rewrite (proj2 (Z.ltb_lt 0 step) Hpos).
  cbn [negb orb default from_option id]. rewrite Hparse.
  rewrite (proj2 (Z.leb_gt today due) Hpast).
  by rewrite (proj2 (Z.leb_gt step 0) Hpos).
Qed.

(** Every other node is left as it is. *)
Lemma advanceNode_skips (today : Z) (node : Node) :
  (∀ s step due,
     dueDate node = Some s → repeatDays node = Some step → (0 < step)%Z →
     completed node = Some true → parseDue s = Some due →
     ¬ (due < today)%Z) →
  advanceNode today node = Some node.
Proof.
  intros Hskip. unfold advanceNode.
  destruct (dueDate node) as [s|] eqn:Hs; [|done].
  destruct (String.eqb s "") eqn:Hempty; [done|]. cbn [negb orb].
  destruct (repeatDays node) as [step|] eqn:Hstep; [|done].
  destruct (0 <? step)%Z eqn:Hpos; [|done]. cbn [negb orb].
  destruct (completed node) as [[|]|] eqn:Hdone; [|done|done].
  cbn [negb orb default from_option id].
  destruct (parseDue s) as [due|] eqn:Hparse; [|done].
  destruct (today <=? due)%Z eqn:Hpast; [done|].
  apply Z.ltb_lt in Hpos. apply Z.leb_gt in Hpast.
  by destruct (Hskip s step due).
Qed.

(** What the body does to a node: it leaves it as it is, or it reopens it
    on a later date of its series, or it throws because the series has left
    the range of [Date]. *)
Lemma advanceNode_cases (today : Z) (node : Node) :
  advanceNode today node = Some node ∨
  ∃ (s : string) (step due : Z) (k : nat),
    dueDate node = Some s ∧ repeatDays node = Some step ∧
    completed node = Some true ∧ parseDue s = Some due ∧
    (due < today)%Z ∧ (0 < step)%Z ∧ 1 ≤ k ≤ 1000 ∧
    (∀ j : nat, j < k → (due + Z.of_nat j * step < today)%Z) ∧
    ((advanceNode today node
      = Some (setDueAndReopen (isoDate (due + Z.of_nat k * step)) node) ∧
      (Z.abs (due + Z.of_nat k * step) ≤ 100000000)%Z ∧
      ((today ≤ due + Z.of_nat k * step)%Z ∨ k = 1000)) ∨
     (advanceNode today node = None ∧
      (100000000 < Z.abs (due + Z.of_nat k * step))%Z)).
Proof.
  destruct (dueDate node) as [s|] eqn:Hs;
    [|left; apply advanceNode_skips; intros; congruence].
  destruct (repeatDays node) as [step|] eqn:Hstep;
    [|left; apply advanceNode_skips; intros; congruence].
  destruct (decide (completed node = Some true)) as [Hdone|Hdone];
    [|left; apply advanceNode_skips; intros; congruence].
  destruct (parseDue s) as [due|] eqn:Hparse;
    [|left; apply advanceNode_skips; intros; congruence].
  destruct (decide (0 < step)%Z) as [Hpos|Hpos];
    [|left; apply advanceNode_skips; intros; simplify_eq; lia].
  destruct (decide (due < today)%Z) as [Hpast|Hpast];
    [|left; apply advanceNode_skips; intros; by simplify_eq].
  right. exists s, step, due.
  rewrite (advanceNode_run today node s step due) by done.
  destruct (advanceLoop_spec 1000 step today due Hpos)
    as (k & Hk & Hbefore & Hin & Hend).
  assert (1 ≤ k) as Hk1.
  { destruct Hend as [(_ & _ & [?|?])|(_ & ? & _)]; [|lia|lia].
    destruct k as [|k]; lia. }
  exists k. split_and!; try done.
  destruct Hend as [(-> & Hlast & Hstop)|(-> & _ & Hout)]; [left|by right].
  rewrite decide_True by lia. split_and!; [done|by apply Hlast|done].
Qed.

Lemma advanceNode_untouched (today : Z) (node : Node) :
  completed node ≠ Some true ∨ dueDate node = None ∨ dueDate node = Some ""
  ∨ repeatDays node = None ∨ repeatDays node = Some 0%Z →
  advanceNode today node = Some node.
Proof.
  intros Hcase. apply advanceNode_skips. intros s step due Hs Hstep Hpos Hdone Hp.
  destruct Hcase as [?|[?|[?|[?|?]]]]; simplify_eq; lia.
Qed.

(** The updater returns when no body throws, and then it holds for each
    key what the body gave; it throws when some body does. *)
Lemma advanceRecurringTasks_returns (today : Z) (G G' : Graph) :
  advanceRecurringTasks today G = Some G' →
  ∀ k, G' !! k = G !! k ≫= advanceNode today.
Proof.
  unfold advanceRecurringTasks. destruct (decide _) as [Hall|Hsome]; [|done].
  intros [= <-] k. rewrite lookup_fmap.
  destruct (G !! k) as [n|] eqn:Hk; [|done]. simpl.
  by destruct (Hall k n Hk) as [n' ->].
Qed.

Lemma advanceRecurringTasks_throws (today : Z) (G : Graph) :
  advanceRecurringTasks today G = None ↔
  ∃ k n, G !! k = Some n ∧ advanceNode today n = None.
Proof.
  unfold advanceRecurringTasks. destruct (decide _) as [Hall|Hsome].
  - split; [done|]. intros (k & n & Hk & Hn).
    destruct (Hall k n Hk) as [n' Hn']. congruence.
  - split; [|done]. intros _.
    apply map_not_Forall in Hsome as (k & n & Hk & Hn); [|apply _].
    exists k, n. split; [done|].
    destruct (advanceNode today n); [|done]. destruct Hn. by eexists.
Qed.

End recurrence.




Example advance_weekly :
  advanceRecurringTasks (daysFromCivil 2024 1 10) overdueWeekly
  = Some {[ "t" := setDueAndReopen "2024-01-10" (repeating 7) ]}.
Proof. by vm_compute. Qed.

(** Where local time is ahead of UTC the text written back names the day
    before the date the loop stopped on. *)
Example advance_weekly_east :
  @advanceRecurringTasks {| toNumber := digitsValue 0%Z; utcAhead := λ _, true |}
     (daysFromCivil 2024 1 10) overdueWeekly
  = Some {[ "t" := setDueAndReopen "2024-01-09" (repeating 7) ]}.
Proof. by vm_compute. Qed.

(** A task that repeats every 1,000,000,000 days leaves the range of [Date]
    at its first step: the updater throws. *)
Example advance_leaves_range :
  advanceRecurringTasks (daysFromCivil 2024 1 10)
    {[ "t" := repeating 1000000000 ]} = None.
Proof. by vm_compute. Qed.

(** ** Debounced saving *)

Section debounce.
Context {A : Type}.

(** A burst of [setState] calls on a mounted, loaded hook only moves
    [latestRef] and leaves one timer armed. *)
Lemma burst_setState (us : list (Updater A)) (st : HookState A) :
  hs_mounted st = true → hs_loaded st = true → us ≠ [] →
  hookRun true (SetState <$> us) st
  = mkHook true true (hs_requested st) true (hs_saving st) (hs_queued st)
           (foldl (λ v u, applyUpdater u v) (hs_latest st) us)
           (hs_status st) (hs_writes st).
Proof.
  intros Hm Hl Hne. revert st Hm Hl.
  induction us as [|u us IH]; [done|]. intros st Hm Hl. clear Hne.
  unfold hookRun in *. simpl.
  assert (setState true u st
          = mkHook true true (hs_requested st) true (hs_saving st)
                   (hs_queued st) (applyUpdater u (hs_latest st))
                   (hs_status st) (hs_writes st)) as Hstep.
  { unfold setState, scheduleSave. simpl. by rewrite Hm, Hl. }
  rewrite Hstep. destruct us as [|u' us]; [done|].
  by rewrite IH.
Qed.

(** C6.  On a mounted, loaded, auto-saving hook with no write in flight,
    [N >= 1] calls of the setter followed by the firing of the timer make
    exactly one call of the write, with the latest value; when that write
    settles nothing more is written and the status is idle.  If a write is
    in flight when the timer fires, nothing is written then, and exactly
    one write, of the latest value, starts when the write in flight
    settles. *)
Theorem debounce_coalesces (us : list (Updater A)) (st : HookState A) :
  us ≠ [] → hs_mounted st = true → hs_loaded st = true →
  (hs_saving st = false → hs_queued st = false) →
  let latest := foldl (λ v u, applyUpdater u v) (hs_latest st) us in
  let fired := hookRun true ((SetState <$> us) ++ [TimerFire]) st in
  let settled := hookStep true fired WriteSettled in
  (hs_saving st = false →
     hs_writes fired = hs_writes st ++ [latest] ∧
     hs_saving fired = true ∧ hs_timer fired = false ∧
     hs_writes settled = hs_writes st ++ [latest] ∧
     hs_saving settled = false ∧ hs_status settled = Idle) ∧
  (hs_saving st = true →
     hs_writes fired = hs_writes st ∧ hs_timer fired = false ∧
     hs_writes settled = hs_writes st ++ [latest] ∧
     hs_saving settled = true ∧
     hs_writes (hookStep true settled WriteSettled)
       = hs_writes st ++ [latest]).
Proof.
  intros Hne Hm Hl Hq latest fired settled.
  assert (fired = timerFire
            (mkHook true true (hs_requested st) true (hs_saving st)
                    (hs_queued st) latest (hs_status st) (hs_writes st)))
    as Hfired.
  { unfold fired, hookRun. rewrite foldl_app. simpl.
    pose proof (burst_setState us st Hm Hl Hne) as Hburst.
    unfold hookRun in Hburst. by rewrite Hburst. }
  split; intros Hs; unfold settled; rewrite Hfired, Hs.
  - by rewrite (Hq Hs).
  - by destruct (hs_queued st).
Qed.

End debounce.

(** Three snapshots in one window: one write, of the third. *)
Lemma debounce_coalesces_witness :
  let st := hookStep true (hookInit 0) (LoadFinished None) in
  let fired :=
    hookRun true ((SetState <$> [UValue 1; UValue 2; UValue 3]) ++ [TimerFire])
            st in
  hs_writes fired = [3] ∧
  hs_writes (hookStep true fired WriteSettled) = [3] ∧
  hs_status (hookStep true fired WriteSettled) = Idle.
Proof.
  pose proof (debounce_coalesces
                [UValue 1; UValue 2; UValue 3]
                (hookStep true (hookInit 0) (LoadFinished None))
                ltac:(discriminate) eq_refl eq_refl (λ _, eq_refl))
    as [Hidle _].
  destruct (Hidle eq_refl) as (Hw & _ & _ & Hw' & _ & Hst).
  split_and!; [exact Hw|exact Hw'|exact Hst].
Defined.

(** ** Retrying a failed write *)

Lemma string_app_cons (x : ascii) (a b : string) :
  String x a +:+ b = String x (a +:+ b).
Proof. reflexivity. Qed.

Lemma string_app_assoc (a b c : string) : (a +:+ b) +:+ c = a +:+ (b +:+ c).
Proof.
  induction a as [|x a IH]; [done|]. rewrite !string_app_cons. by f_equal.
Qed.

Lemma retryLoop_spec (write : nat → WriteResult) (random : nat → float)
    (fuel attempt : nat) (waits : list float) :
  attempt < maxAttempts → maxAttempts ≤ attempt + fuel →
  ∃ run, retryLoop fuel write random attempt waits = Some run ∧
    attempt < rr_calls run ≤ maxAttempts ∧
    (∀ k, attempt ≤ k → S k < rr_calls run →
       ∃ msg, write k = WriteFails msg ∧ retryable msg = true) ∧
    ((write (rr_calls run - 1) = WriteOk ∧ rr_thrown run = None) ∨
     (∃ msg, write (rr_calls run - 1) = WriteFails msg ∧
             rr_thrown run = Some msg ∧
             (retryable msg = false ∨ rr_calls run = maxAttempts))) ∧
    rr_waits run
      = waits ++ ((λ k, backoffWait (S k) (random k))
                    <$> seq attempt (rr_calls run - 1 - attempt)).
Proof.
  revert attempt waits. induction fuel as [|fuel IH]; intros attempt waits Hlt Hfuel.
  { unfold maxAttempts in *. lia. }
  cbn [retryLoop]. destruct (write attempt) as [|msg] eqn:Hw.
  - eexists. split; [done|]. cbn [rr_calls rr_waits rr_thrown].
    replace (S attempt - 1) with attempt by lia. rewrite Nat.sub_diag.
    split_and!; [lia|unfold maxAttempts in *; lia|intros; lia|by left|].
    cbn [seq fmap list_fmap]. by rewrite app_nil_r.
  - cbv zeta.
    destruct (retryable msg && (S attempt <? maxAttempts)) eqn:Hretry;
      cbn [negb].
    + apply andb_true_iff in Hretry as [Hre Hmore].
      apply Nat.ltb_lt in Hmore.
      destruct (IH (S attempt) (waits ++ [backoffWait (S attempt) (random attempt)]))
        as (run & Hrun & [Hlo Hhi] & Hfailed & Hlast & Hwaits); [done|lia|].
      exists run. split; [done|]. split_and!; [lia|done| |done|].
      * intros k Hk Hk'. destruct (decide (k = attempt)) as [->|Hne]; [eauto|].
        apply Hfailed; lia.
      * rewrite Hwaits, <- app_assoc. f_equal.
        replace (rr_calls run - 1 - attempt) with (S (rr_calls run - 1 - S attempt)) by lia.
        done.
    + eexists. split; [done|]. cbn [rr_calls rr_waits rr_thrown].
      replace (S attempt - 1) with attempt by lia. rewrite Nat.sub_diag.
      split_and!; [lia|unfold maxAttempts in *; lia|intros; lia| |].
      * right. exists msg. split_and!; [done|done|].
        apply andb_false_iff in Hretry as [?|Hmore]; [by left|right].
        apply Nat.ltb_ge in Hmore. unfold maxAttempts in *. lia.
      * cbn [seq fmap list_fmap]. by rewrite app_nil_r.
Qed.

(** A run of [saveWithRetry], call by call. *)
Lemma saveWithRetry_run (write : nat → WriteResult) (random : nat → float) :
  ∃ run, saveWithRetry write random = Some run ∧
    1 ≤ rr_calls run ≤ 5 ∧
    (∀ a msg, 1 ≤ a ≤ rr_calls run → write (a - 1) = WriteFails msg →
       (a < rr_calls run ↔ retryable msg = true ∧ a < 5)) ∧
    (∀ a, 1 ≤ a < rr_calls run → ∃ msg, write (a - 1) = WriteFails msg) ∧
    rr_thrown run = match write (rr_calls run - 1) with
                    | WriteOk => None
                    | WriteFails msg => Some msg
                    end ∧
    rr_waits run
      = (λ a, backoffWait a (random (a - 1))) <$> seq 1 (rr_calls run - 1).
Proof.
  destruct (retryLoop_spec write random maxAttempts 0 [])
    as (run & Hrun & [Hlo Hhi] & Hfailed & Hlast & Hwaits);
    [unfold maxAttempts; lia|unfold maxAttempts; lia|].
  exists run. unfold maxAttempts in *. split; [done|].
  split_and!; [lia|lia| | | |].
  - intros a msg [Ha1 Ha2] Hw. split.
    + intros Hlt. destruct (Hfailed (a - 1)) as (msg' & Hw' & Hre); [lia|lia|].
      rewrite Hw in Hw'. simplify_eq. split; [done|lia].
    + intros [Hre Ha5]. destruct (decide (a < rr_calls run)); [done|].
      assert (a = rr_calls run) as -> by lia.
      destruct Hlast as [[Hok _]|(msg' & Hw' & _ & [Hno|Hmax])].
      * rewrite Hw in Hok. done.
      * rewrite Hw in Hw'. simplify_eq. congruence.
      * lia.
  - intros a [Ha1 Ha2]. destruct (Hfailed (a - 1)) as (msg & Hw & _); [lia|lia|].
    eauto.
  - destruct Hlast as [[-> ->]|(msg & -> & -> & _)]; done.
  - rewrite Hwaits. rewrite app_nil_l, Nat.sub_0_r.
    generalize (rr_calls run - 1). intros n.
    rewrite <- (fmap_S_seq 0 n), <- list_fmap_compose.
    apply list_fmap_ext. intros _ k _. unfold compose.
    by replace (S k - 1) with k by lia.
Qed.

(** Among the messages of failed responses, the retryable ones are those of
    status 429 and of the statuses 5xx. *)
Lemma retryable_http (status : nat) :
  100 ≤ status ≤ 999 →
  retryable (httpMessage status)
  = (status =? 429) || ((500 <=? status) && (status <=? 599)).
Proof.
  intros Hrange.
  assert (forallb (λ s, Bool.eqb (retryable (httpMessage s))
                          ((s =? 429) || ((500 <=? s) && (s <=? 599))))
                  (seq 100 900) = true) as Hall by (vm_compute; reflexivity).
  rewrite forallb_forall in Hall.
  apply Bool.eqb_prop, Hall, in_seq. lia.
Qed.

(** The test of the code against the reading of the regular expression. *)

Lemma nat_of_lowerChar (c : ascii) :
  nat_of_ascii (lowerChar c)
  = if (65 <=? nat_of_ascii c) && (nat_of_ascii c <=? 90)
    then nat_of_ascii c + 32 else nat_of_ascii c.
Proof.
  unfold lowerChar. cbv zeta.
  destruct ((65 <=? nat_of_ascii c) && (nat_of_ascii c <=? 90)) eqn:H; [|done].
  apply andb_true_iff in H as [H1 H2]. apply Nat.leb_le in H1, H2.
  apply nat_ascii_embedding. lia.
Qed.

Lemma lowerChar_sameLetter (a b : ascii) :
  Ascii.eqb (lowerChar a) (lowerChar b) = true ↔ sameLetter a b.
Proof.
  assert (Hinj : ∀ x y : ascii, x = y ↔ nat_of_ascii x = nat_of_ascii y).
  { intros x y. split; [by intros ->|]. intros H.
    rewrite <- (ascii_nat_embedding x), <- (ascii_nat_embedding y).
    by rewrite H. }
  rewrite Ascii.eqb_eq. unfold sameLetter.
  rewrite (Hinj (lowerChar a)), (Hinj a), !nat_of_lowerChar.
  destruct (Nat.leb_spec 65 (nat_of_ascii a)),
    (Nat.leb_spec (nat_of_ascii a) 90), (Nat.leb_spec 65 (nat_of_ascii b)),
    (Nat.leb_spec (nat_of_ascii b) 90); cbn [andb]; lia.
Qed.

Lemma isDigit_decimalDigit (c : ascii) : isDigit c = true ↔ decimalDigit c.
Proof.
  unfold isDigit, decimalDigit. by rewrite andb_true_iff, !Nat.leb_le.
Qed.

Lemma startsWithNoCase_spec (pat s : string) :
  startsWithNoCase pat s = true ↔
  ∃ mid post, s = mid +:+ post ∧
    Forall2 sameLetter (list_ascii_of_string pat) (list_ascii_of_string mid).
Proof.
  revert s. induction pat as [|p pat IH]; intros s.
  - split; [|done]. intros _. exists "", s. split; [done|constructor].
  - destruct s as [|c s]; cbn [startsWithNoCase].
    + split; [done|]. intros (mid & post & Hs & HF).
      destruct mid; cbn [list_ascii_of_string] in HF; by inversion HF.
    + rewrite andb_true_iff, lowerChar_sameLetter, IH. split.
      * intros (Hc & mid & post & -> & HF). exists (String c mid), post.
        split; [done|]. cbn [list_ascii_of_string]. by constructor.
      * intros (mid & post & Hs & HF).
        destruct mid as [|c' mid]; cbn [list_ascii_of_string] in HF;
          [by inversion HF|].
        rewrite string_app_cons in Hs. injection Hs as -> ->.
        inversion HF; subst. eauto.
Qed.

Lemma startsWithFiveXX_spec (s : string) :
  startsWithFiveXX s = true ↔
  ∃ b c post, s = String "5" (String b (String c post)) ∧
    decimalDigit b ∧ decimalDigit c.
Proof.
  destruct s as [|a [|b [|c s]]]; cbn [startsWithFiveXX];
    try (split; [done|by intros (? & ? & ? & ? & _)]).
  rewrite !andb_true_iff, Ascii.eqb_eq, !isDigit_decimalDigit. split.
  - intros [[-> Hb] Hc]. by exists b, c, s.
  - intros (b' & c' & post & Heq & Hb & Hc). by simplify_eq.
Qed.

Lemma retryable_here (s : string) : retryableHere s = true → retryable s = true.
Proof.
  intros H. destruct s as [|c s]; [by vm_compute in H|].
  cbn [retryable]. by rewrite H.
Qed.

Lemma retryable_suffix (msg : string) :
  retryable msg = true ↔
  ∃ pre suf, msg = pre +:+ suf ∧ retryableHere suf = true.
Proof.
  split.
  - induction msg as [|c m IH].
    + by vm_compute.
    + cbn [retryable]. intros [H|H]%orb_true_iff.
      * by exists "", (String c m).
      * destruct (IH H) as (pre & suf & -> & Hsuf).
        by exists (String c pre), suf.
  - intros (pre & suf & -> & Hsuf). induction pre as [|c pre IH].
    + by apply retryable_here.
    + rewrite string_app_cons. cbn [retryable]. rewrite IH.
      apply orb_true_r.
Qed.

Lemma retryable_markers (msg : string) :
  retryable msg = true ↔
  holdsMarker "429" msg ∨ holdsFiveXX msg ∨ holdsMarker "Rate Limit" msg
  ∨ holdsMarker "quota" msg ∨ holdsMarker "timeout" msg
  ∨ holdsMarker "network" msg.
Proof.
  rewrite retryable_suffix. unfold holdsMarker, holdsFiveXX, retryableHere.
  split.
  - intros (pre & suf & -> & H).
    rewrite !orb_true_iff, !startsWithNoCase_spec, startsWithFiveXX_spec in H.
    destruct H as [[[[[H|H]|H]|H]|H]|H].
    + left. destruct H as (mid & post & -> & HF). by exists pre, mid, post.
    + right; left. destruct H as (b & c & post & -> & Hb & Hc).
      by exists pre, b, c, post.
    + do 2 right; left. destruct H as (mid & post & -> & HF).
      by exists pre, mid, post.
    + do 3 right; left. destruct H as (mid & post & -> & HF).
      by exists pre, mid, post.
    + do 4 right; left. destruct H as (mid & post & -> & HF).
      by exists pre, mid, post.
    + do 5 right. destruct H as (mid & post & -> & HF).
      by exists pre, mid, post.
  - intros H.
    assert (∃ pre suf, msg = pre +:+ suf ∧
              (startsWithNoCase "429" suf = true ∨ startsWithFiveXX suf = true
               ∨ startsWithNoCase "Rate Limit" suf = true
               ∨ startsWithNoCase "quota" suf = true
               ∨ startsWithNoCase "timeout" suf = true
               ∨ startsWithNoCase "network" suf = true))
      as (pre & suf & -> & Hsuf).
    { setoid_rewrite startsWithFiveXX_spec.
      setoid_rewrite startsWithNoCase_spec.
      destruct H as [H|[H|[H|[H|[H|H]]]]].
      + destruct H as (pre & mid & post & -> & HF).
        exists pre, (mid +:+ post). split; [done|]. left.
        by exists mid, post.
      + destruct H as (pre & b & c & post & -> & Hb & Hc).
        exists pre, (String "5" (String b (String c post))).
        split; [done|]. right; left. by exists b, c, post.
      + destruct H as (pre & mid & post & -> & HF).
        exists pre, (mid +:+ post). split; [done|]. do 2 right; left.
        by exists mid, post.
      + destruct H as (pre & mid & post & -> & HF).
        exists pre, (mid +:+ post). split; [done|]. do 3 right; left.
        by exists mid, post.
      + destruct H as (pre & mid & post & -> & HF).
        exists pre, (mid +:+ post). split; [done|]. do 4 right; left.
        by exists mid, post.
      + destruct H as (pre & mid & post & -> & HF).
        exists pre, (mid +:+ post). split; [done|]. do 5 right.
        by exists mid, post. }
    exists pre, suf. split; [done|]. rewrite !orb_true_iff. tauto.
Qed.

(** C7.  [saveWithRetry] always ends, after 1 to 5 calls of the write.  A
    failed call number [a] is followed by another call exactly when its
    message is retryable and [a < 5]; the run returns if the last call
    succeeds and throws the error of the last call otherwise.  Before the
    call number [a + 1] it waits [min(8000, 400 * 2^(a-1)) * (0.5 + r)] for
    the draw [r], in the arithmetic of binary64 numbers.  A message is
    retryable exactly when it holds, anywhere and in any case of the
    letters, one of [429], [Rate Limit], [quota], [timeout], [network], or a
    [5] followed by two digits; for a failed response these are the
    statuses 429 and 5xx.  A write that fails twice with 503 and then
    succeeds is called 3 times and leaves the status idle; an error that is
    not retryable is thrown after the first call, without waiting. *)
Theorem saveWithRetry_spec (write : nat → WriteResult) (random : nat → float) :
  (∃ run, saveWithRetry write random = Some run ∧
     1 ≤ rr_calls run ≤ 5 ∧
     (∀ a msg, 1 ≤ a ≤ rr_calls run → write (a - 1) = WriteFails msg →
        (a < rr_calls run ↔ retryable msg = true ∧ a < 5)) ∧
     (∀ a, 1 ≤ a < rr_calls run → ∃ msg, write (a - 1) = WriteFails msg) ∧
     rr_thrown run = match write (rr_calls run - 1) with
                     | WriteOk => None
                     | WriteFails msg => Some msg
                     end ∧
     rr_waits run
       = (λ a, PrimFloat.mul
                 (PrimFloat.of_uint63
                    (Uint63.of_Z (Z.min 8000 (400 * 2 ^ Z.of_nat (a - 1)))))
                 (PrimFloat.add 0.5%float (random (a - 1))))
           <$> seq 1 (rr_calls run - 1)) ∧
  (∀ msg, retryable msg = true
     ↔ holdsMarker "429" msg ∨ holdsFiveXX msg ∨ holdsMarker "Rate Limit" msg
       ∨ holdsMarker "quota" msg ∨ holdsMarker "timeout" msg
       ∨ holdsMarker "network" msg) ∧
  (∀ status, 100 ≤ status ≤ 999 →
     retryable (httpMessage status) = true
     ↔ status = 429 ∨ 500 ≤ status ≤ 599) ∧
  saveTask false (Some "file") twice503 random
    = Some (Idle, Some (mkRetryRun 3
                          [PrimFloat.mul 400%float
                             (PrimFloat.add 0.5%float (random 0));
                           PrimFloat.mul 800%float
                             (PrimFloat.add 0.5%float (random 1))]
                          None)) ∧
  (∀ msg, write 0 = WriteFails msg → retryable msg = false →
     saveWithRetry write random = Some (mkRetryRun 1 [] (Some msg)) ∧
     saveTask false (Some "file") write random
       = Some (Error, Some (mkRetryRun 1 [] (Some msg)))).
Proof.
  split_and!.
  - exact (saveWithRetry_run write random).
  - apply retryable_markers.
  - intros status Hrange. rewrite retryable_http by done.
    rewrite orb_true_iff, andb_true_iff, Nat.eqb_eq, !Nat.leb_le. lia.
  - reflexivity.
  - intros msg Hw Hno. unfold saveTask, saveWithRetry.
    cbn [retryLoop maxAttempts]. rewrite Hw, Hno. done.
Qed.

Example retry_gives_up_after_five :
  saveWithRetry (λ _, httpResult 503) (λ _, 0%float)
  = Some (mkRetryRun 5 [200%float; 400%float; 800%float; 1600%float]
                     (Some "Drive update failed: 503")).
Proof. reflexivity. Qed.

Example retry_not_found :
  saveWithRetry (λ _, httpResult 404) (λ _, 0%float)
  = Some (mkRetryRun 1 [] (Some "Drive update failed: 404")).
Proof. reflexivity. Qed.

Example backoff_bases :
  backoffBase <$> [1; 2; 3; 4; 5; 6] = [400; 800; 1600; 3200; 6400; 8000]%Z.
Proof. reflexivity. Qed.

Example retryable_markers_any_case :
  retryable "RATE LIMIT exceeded" = true
  ∧ retryable "Quota used up" = true
  ∧ retryable "ETIMEOUT: Timeout" = true
  ∧ retryable "NetworkError when attempting to fetch resource" = true
  ∧ retryable "Failed to fetch" = false.
Proof. by vm_compute. Qed.

(* ===================================================================== *)
(** * Part III: further properties of the code                            *)
(* ===================================================================== *)

(** ** Subtrees *)

(** X1.  [collectDescendants] always ends, cycles included, and returns
    exactly the start identifier and its transitive descendants. *)
Theorem collectDescendants_exact (startId : string) (G : Graph) :
  ∃ D, collectDescendants startId G = Some D ∧
       startId ∈ D ∧
       (∀ d, d ∈ D ↔ descendant G startId d) ∧
       (∀ a b, a ∈ D → b ∈ childrenOf (G !! a) → b ∈ D).
Proof.
  destruct (collectLoop_descendants G startId) as (D & HD & Hdesc).
  exists D. split_and!; [done| |done|].
  - apply Hdesc, rtc_refl.
  - intros a b Ha Hb. apply Hdesc. eapply rtc_r; [by apply Hdesc|done].
Qed.

Lemma descendant_of_missing (G : Graph) (X d : string) :
  G !! X = None → descendant G X d → d = X.
Proof.
  intros HX Hd. destruct Hd as [|x y z Hxy _]; [done|].
  unfold childRel in Hxy. rewrite HX in Hxy. by apply elem_of_nil in Hxy.
Qed.

Lemma filter_all {A} (P : A → Prop) `{∀ x, Decision (P x)} (l : list A) :
  (∀ x, x ∈ l → P x) → filter P l = l.
Proof.
  induction l as [|x l IH]; intros Hall; [done|].
  rewrite filter_cons_True by (apply Hall; by apply elem_of_cons; left).
  f_equal. apply IH. intros y Hy. apply Hall. by apply elem_of_cons; right.
Qed.

Lemma stripNode_unreferenced (D : gset string) (n : Node) :
  (∀ c, c ∈ childrenOf (Some n) → c ∉ D) → stripNode D n = n.
Proof.
  intros Hfree. unfold stripNode. destruct (children n) as [cs|] eqn:Hcs; [|done].
  destruct (0 <? length cs); [|done].
  destruct (decide _) as [Hne|]; [|done]. exfalso. apply Hne. f_equal.
  apply filter_all. intros c Hc. apply Hfree.
  unfold childrenOf. simpl. by rewrite Hcs.
Qed.

(** X2.  Deleting an identifier that is not a key removes no node: it only
    strips the references to that identifier, and returns the graph as it
    is when nothing refers to it. *)
Theorem recursiveDelete_missing (X : string) (G : Graph) :
  G !! X = None →
  recursiveDelete X G = Some (stripNode {[X]} <$> G) ∧
  ((∀ k, X ∉ childrenOf (G !! k)) → recursiveDelete X G = Some G).
Proof.
  intros HX.
  destruct (recursiveDelete_lookup X G) as (G' & D & Hrun & HD & Hlook).
  assert (D = {[X]}) as ->.
  { apply set_eq. intros d. rewrite HD, elem_of_singleton. split.
    - by apply descendant_of_missing.
    - intros ->. apply rtc_refl. }
  assert (G' = stripNode {[X]} <$> G) as ->.
  { apply map_eq. intros k. rewrite Hlook, lookup_fmap.
    destruct (decide (k ∈ ({[X]} : gset string))) as [Hk|]; [|done].
    apply elem_of_singleton in Hk as ->. by rewrite HX. }
  split; [done|]. intros Hfree. rewrite Hrun. f_equal.
  apply map_eq. intros k. rewrite lookup_fmap.
  destruct (G !! k) as [n|] eqn:Hk; [|done]. simpl. f_equal.
  apply stripNode_unreferenced. intros c Hc ->%elem_of_singleton.
  apply (Hfree k). by rewrite Hk.
Qed.

Lemma recursiveDelete_missing_witness :
  recursiveDelete "ghost" staleDepths
    = Some (stripNode {["ghost"]} <$> staleDepths) ∧
  ((∀ k, "ghost" ∉ childrenOf (staleDepths !! k)) →
   recursiveDelete "ghost" staleDepths = Some staleDepths).
Proof. apply (recursiveDelete_missing "ghost" staleDepths). reflexivity. Defined.

(** X3.  [deleteNodeById] is the identity on ["root"].  For another
    identifier the root is lost exactly when it is among the descendants of
    that identifier, which a children array that lists ["root"] makes
    possible; otherwise the root is kept. *)
Theorem deleteNodeById_root (id : string) (G : Graph) :
  deleteNodeById "root" G = Some G ∧
  ∃ G', deleteNodeById id G = Some G' ∧
    (G' !! "root" = None ↔
       G !! "root" = None ∨ (id ≠ "root" ∧ descendant G id "root")).
Proof.
  split; [done|]. unfold deleteNodeById.
  destruct (decide (id = "root")) as [->|Hne].
  { exists G. split; [done|]. split; [by left|]. by intros [?|[? _]]. }
  destruct (recursiveDelete_lookup id G) as (G' & D & Hrun & HD & Hlook).
  exists G'. split; [done|]. rewrite Hlook.
  destruct (decide ("root" ∈ D)) as [Hin|Hout].
  - apply HD in Hin. split; [by right|done].
  - split.
    + destruct (G !! "root"); [done|by left].
    + intros [->|[_ Hd%HD]]; done.
Qed.

(** The root is deleted along with a node that (wrongly) lists it. *)
Example deleteNodeById_loses_root :
  (λ G', G' !! "root") <$>
    deleteNodeById "a" (<["c" := setChildren ["root"] emptyNode]> staleDepths)
  = Some None.
Proof. by vm_compute. Qed.

Lemma descendant_of_leaf (G : Graph) (X d : string) :
  childrenOf (G !! X) = [] → descendant G X d → d = X.
Proof.
  intros HX Hd. destruct Hd as [|x y z Hxy _]; [done|].
  unfold childRel in Hxy. rewrite HX in Hxy. by apply elem_of_nil in Hxy.
Qed.

Lemma unreferenced_spec (id : string) (G : Graph) :
  unreferenced id G ↔ ∀ k, id ∉ childrenOf (G !! k).
Proof.
  unfold unreferenced, map_Forall. split.
  - intros H k. destruct (G !! k) as [n|] eqn:Hk; [by eapply H|].
    apply not_elem_of_nil.
  - intros H k n Hk. specialize (H k). by rewrite Hk in H.
Qed.

Lemma noDangling_spec (G : Graph) :
  noDangling G ↔ ∀ k c, c ∈ childrenOf (G !! k) → is_Some (G !! c).
Proof.
  unfold noDangling, map_Forall. split.
  - intros H k c Hc. destruct (G !! k) as [n|] eqn:Hk; [|by apply elem_of_nil in Hc].
    specialize (H k n Hk). rewrite Forall_forall in H. by apply H.
  - intros H k n Hk. apply Forall_forall. intros c Hc. apply (H k). by rewrite Hk.
Qed.

Lemma singleParent_spec (G : Graph) :
  singleParent G ↔
    (∀ k, NoDup (childrenOf (G !! k))) ∧
    (∀ p1 p2 c, c ∈ childrenOf (G !! p1) → c ∈ childrenOf (G !! p2) → p1 = p2).
Proof.
  unfold singleParent, map_Forall. split.
  - intros H. split.
    + intros k. destruct (G !! k) as [n|] eqn:Hk; [by apply (H k n Hk)|constructor].
    + intros p1 p2 c H1 H2.
      destruct (G !! p1) as [n1|] eqn:Hk1; [|by apply elem_of_nil in H1].
      destruct (G !! p2) as [n2|] eqn:Hk2; [|by apply elem_of_nil in H2].
      destruct (H p1 n1 Hk1) as [_ Hall]. specialize (Hall p2 n2 Hk2).
      rewrite Forall_forall in Hall. by apply (Hall c).
  - intros [Hnd Huniq] p1 n1 Hk1. split.
    + specialize (Hnd p1). by rewrite Hk1 in Hnd.
    + intros p2 n2 Hk2. apply Forall_forall. intros c H1 H2.
      apply (Huniq p1 p2 c); [by rewrite Hk1|by rewrite Hk2].
Qed.

(** X4.  Creating a child and deleting it again gives the graph back,
    provided the identifier was new (neither a key nor listed anywhere), the
    parent has a children array and [overrides] gives the child no
    children. *)
Theorem createChild_then_delete (newId parentId : string) (ov : Patch)
    (G : Graph) (p : Node) (cs : list string) :
  G !! parentId = Some p → children p = Some cs →
  G !! newId = None → unreferenced newId G →
  p_children ov = None →
  recursiveDelete newId (createChildNode newId parentId ov G) = Some G.
Proof.
  intros Hp Hcs Hnew Hunref Hov.
  pose proof (proj1 (unreferenced_spec _ _) Hunref) as Hfree.
  assert (newId ≠ parentId) as Hne by congruence.
  set (G1 := createChildNode newId parentId ov G).
  destruct (recursiveDelete_lookup newId G1) as (G' & D & Hrun & HD & Hlook).
  assert (D = {[newId]}) as ->.
  { apply set_eq. intros d. rewrite HD, elem_of_singleton. split.
    - apply descendant_of_leaf. unfold G1.
      rewrite createChildNode_lookup, decide_False, decide_True by done.
      unfold childrenOf. simpl. by rewrite Hov.
    - intros ->. apply rtc_refl. }
  rewrite Hrun. f_equal. apply map_eq. intros k. rewrite Hlook.
  destruct (decide (k ∈ ({[newId]} : gset string))) as [Hk|Hk].
  { apply elem_of_singleton in Hk as ->. done. }
  apply not_elem_of_singleton in Hk. unfold G1.
  rewrite createChildNode_lookup.
  destruct (decide (k = parentId)) as [->|Hkp].
  - rewrite Hp. simpl. f_equal. unfold childrenOf. simpl. rewrite Hcs. simpl.
    assert (newId ∉ cs) as Hnc.
    { specialize (Hfree parentId). unfold childrenOf in Hfree.
      by rewrite Hp in Hfree; simpl in Hfree; rewrite Hcs in Hfree. }
    unfold stripNode. simpl.
    assert (filter (λ cid, cid ∉ ({[newId]} : gset string)) (cs ++ [newId]) = cs)
      as Hfilter.
    { rewrite filter_app, filter_cons_False, filter_nil, app_nil_r.
      - apply filter_all. intros c Hc ->%elem_of_singleton. done.
      - intros Hn. apply Hn. by apply elem_of_singleton. }
    rewrite Hfilter.
    destruct (0 <? length (cs ++ [newId])) eqn:Hlen.
    + destruct (decide _) as [_|Heq].
      * destruct p. simpl in *. by subst.
      * exfalso. apply Heq. rewrite length_app. simpl. lia.
    + apply Nat.ltb_ge in Hlen. rewrite length_app in Hlen. simpl in Hlen. lia.
  - rewrite decide_False by done.
    destruct (G !! k) as [n|] eqn:Hn; [|done]. simpl. f_equal.
    apply stripNode_unreferenced. intros c Hc ->%elem_of_singleton.
    apply (Hfree k). by rewrite Hn.
Qed.

Lemma createChild_then_delete_witness :
  recursiveDelete "B" (createChildNode "B" "root" deepPatch staleDepths)
  = Some staleDepths.
Proof.
  eapply (createChild_then_delete "B" "root" deepPatch staleDepths);
    [reflexivity|reflexivity|reflexivity| |reflexivity].
  refine (bool_decide_unpack _ _). vm_compute. exact I.
Defined.

(** ** Structural invariants *)

Lemma recursiveDelete_children (X : string) (G : Graph) :
  ∃ (G' : Graph) (D : gset string), recursiveDelete X G = Some G' ∧
    (∀ k, is_Some (G' !! k) ↔ is_Some (G !! k) ∧ k ∉ D) ∧
    (∀ k, childrenOf (G' !! k)
          = if decide (k ∈ D) then []
            else filter (λ c, c ∉ D) (childrenOf (G !! k))).
Proof.
  destruct (recursiveDelete_lookup X G) as (G' & D & Hrun & HD & Hlook).
  exists G', D. split_and!; [done| |].
  - intros k. rewrite Hlook. destruct (decide (k ∈ D)) as [Hk|Hk].
    + split; [by intros [? ?]|by intros [_ ?]].
    + rewrite fmap_is_Some. split; [done|by intros [? _]].
  - intros k. rewrite Hlook. destruct (decide (k ∈ D)); [done|].
    destruct (G !! k) as [m|]; [|done]. unfold childrenOf. simpl.
    rewrite stripNode_children. by destruct (children m).
Qed.

(** X5.  [recursiveDelete] keeps the structure sound: if every child was a
    key, every child still is; if no identifier was listed twice or by two
    nodes, none is afterwards. *)
Theorem recursiveDelete_keeps_invariants (X : string) (G : Graph) :
  ∃ G', recursiveDelete X G = Some G' ∧
    (noDangling G → noDangling G') ∧
    (singleParent G → singleParent G').
Proof.
  destruct (recursiveDelete_children X G) as (G' & D & Hrun & Hkeys & Hch).
  exists G'. split; [done|]. split.
  - rewrite !noDangling_spec. intros Hnd k c. rewrite Hch.
    destruct (decide (k ∈ D)); [by intros ?%elem_of_nil|].
    intros [Hc Hin]%list_elem_of_filter. apply Hkeys. split; [|done].
    by apply (Hnd k).
  - rewrite !singleParent_spec. intros [Hnodup Huniq]. split.
    + intros k. rewrite Hch. destruct (decide (k ∈ D)); [constructor|].
      by apply NoDup_filter.
    + intros p1 p2 c. rewrite !Hch.
      destruct (decide (p1 ∈ D)); [by intros ?%elem_of_nil|].
      destruct (decide (p2 ∈ D)); [by intros _ ?%elem_of_nil|].
      intros [_ H1]%list_elem_of_filter [_ H2]%list_elem_of_filter.
      by apply (Huniq p1 p2 c).
Qed.

Example initialTree_sound : noDangling initialTree ∧ singleParent initialTree.
Proof. split; refine (bool_decide_unpack _ _); vm_compute; exact I. Qed.

Lemma createChildNode_children (newId parentId k : string) (ov : Patch)
    (G : Graph) :
  p_children ov = None →
  childrenOf (createChildNode newId parentId ov G !! k)
  = if decide (k = parentId) then childrenOf (G !! parentId) ++ [newId]
    else if decide (k = newId) then [] else childrenOf (G !! k).
Proof.
  intros Hov. rewrite createChildNode_lookup.
  destruct (decide (k = parentId)); [done|].
  destruct (decide (k = newId)); [|done].
  unfold childrenOf. simpl. by rewrite Hov.
Qed.

(** X6.  [createChildNode] with a new identifier, and no children given by
    [overrides], keeps the structure sound: every child is still a key, and
    no identifier is listed twice or by two nodes. *)
Theorem createChild_keeps_invariants (newId parentId : string) (ov : Patch)
    (G : Graph) :
  G !! newId = None → p_children ov = None → noDangling G →
  noDangling (createChildNode newId parentId ov G) ∧
  (singleParent G → singleParent (createChildNode newId parentId ov G)).
Proof.
  intros Hnew Hov Hnd. pose proof (proj1 (noDangling_spec _) Hnd) as Hkeys.
  assert (∀ k, newId ∉ childrenOf (G !! k)) as Hfree.
  { intros k Hin. apply Hkeys in Hin. rewrite Hnew in Hin. by destruct Hin. }
  assert (∀ k, is_Some (G !! k) →
               is_Some (createChildNode newId parentId ov G !! k)) as Hmono.
  { intros k Hk. rewrite createChildNode_lookup.
    destruct (decide (k = parentId)); [eauto|].
    destruct (decide (k = newId)); [eauto|done]. }
  assert (is_Some (createChildNode newId parentId ov G !! newId)) as Hin.
  { rewrite createChildNode_lookup.
    destruct (decide (newId = parentId)); [eauto|].
    rewrite decide_True by done. eauto. }
  split.
  - apply noDangling_spec. intros k c.
    rewrite createChildNode_children by done.
    destruct (decide (k = parentId)) as [->|?].
    + intros [Hc|Hc%list_elem_of_singleton]%elem_of_app; [|by subst c].
      by apply Hmono, (Hkeys parentId).
    + destruct (decide (k = newId)); [by intros ?%elem_of_nil|].
      intros Hc. by apply Hmono, (Hkeys k).
  - rewrite !singleParent_spec. intros [Hnodup Huniq].
    assert (∀ k c, c ∈ childrenOf (createChildNode newId parentId ov G !! k) →
                   (c = newId ∧ k = parentId) ∨
                   (c ≠ newId ∧ c ∈ childrenOf (G !! k))) as Hcases.
    { intros k c. rewrite createChildNode_children by done.
      destruct (decide (k = parentId)) as [->|?].
      - intros [Hc|Hc%list_elem_of_singleton]%elem_of_app; [right|by left].
        split; [|done]. intros ->. by apply (Hfree parentId).
      - destruct (decide (k = newId)); [by intros ?%elem_of_nil|].
        intros Hc. right. split; [|done]. intros ->. by apply (Hfree k). }
    split.
    + intros k. rewrite createChildNode_children by done.
      destruct (decide (k = parentId)) as [->|?].
      * apply NoDup_app. split_and!; [done| |apply NoDup_singleton].
        intros c Hc Hc'%list_elem_of_singleton. subst c.
        by apply (Hfree parentId).
      * destruct (decide (k = newId)); [constructor|done].
    + intros p1 p2 c H1 H2.
      destruct (Hcases p1 c H1) as [[Hc1 Hp1]|[Hne1 H1']],
               (Hcases p2 c H2) as [[Hc2 Hp2]|[Hne2 H2']].
      * congruence.
      * congruence.
      * congruence.
      * by apply (Huniq p1 p2 c).
Qed.

Lemma createChild_keeps_invariants_witness :
  noDangling (createChildNode "fresh" "12345" emptyPatch initialTree) ∧
  (singleParent initialTree →
   singleParent (createChildNode "fresh" "12345" emptyPatch initialTree)).
Proof.
  apply (createChild_keeps_invariants "fresh" "12345" emptyPatch initialTree);
    [reflexivity|reflexivity|].
  refine (bool_decide_unpack _ _). vm_compute. exact I.
Defined.

(** ** Sorting siblings *)

Lemma compareY_refl (y : option Z) : compareY y y = Eq.
Proof. destruct y; simpl; [apply Z.compare_refl|done]. Qed.

Lemma mayPrecede_by_position posById oi a b :
  mayPrecede posById oi a b →
  compareY (posById !! a) (posById !! b) ≠ Gt.
Proof.
  intros [[_ ?]|[-> _]]%mayPrecede_cases; [done|]. by rewrite compareY_refl.
Qed.

Lemma reorder_children posById pid (G : Graph) k :
  childrenOf (reorderChildrenByPosition posById pid G !! k)
  = if decide (k = pid) then
      stableSort (siblingCompare posById (orderIndexOf (childrenOf (G !! pid))))
                 (childrenOf (G !! pid))
    else childrenOf (G !! k).
Proof.
  unfold reorderChildrenByPosition.
  destruct (G !! pid) as [parent|] eqn:Hp.
  - change (default [] (children parent)) with (childrenOf (Some parent)).
    set (sibs := childrenOf (Some parent)).
    destruct (length sibs <=? 1) eqn:Hlen.
    + destruct (decide (k = pid)) as [->|]; [|done]. rewrite Hp. fold sibs.
      apply Nat.leb_le in Hlen. destruct sibs as [|x [|y sibs]]; simpl in *; [done|done|lia].
    + destruct (decide (sibs = _)) as [Heq|Hne].
      * destruct (decide (k = pid)) as [->|]; [|done]. rewrite Hp. by fold sibs.
      * destruct (decide (k = pid)) as [->|].
        -- by rewrite lookup_insert_eq.
        -- by rewrite lookup_insert_ne.
  - destruct (decide (k = pid)) as [->|]; [|done]. by rewrite Hp.
Qed.

(** X7.  [reorderChildrenByPosition] touches nothing but the children array
    of the parent: the keys and every other entry are kept; the new array
    holds the same identifiers, each as often as before, ordered by
    ascending position (a node unknown to React Flow goes last). *)
Theorem reorderChildrenByPosition_sorts (posById : gmap string Z)
    (parentId : string) (G : Graph) :
  let G' := reorderChildrenByPosition posById parentId G in
  (∀ k, k ≠ parentId → G' !! k = G !! k) ∧
  (∀ k, is_Some (G' !! k) ↔ is_Some (G !! k)) ∧
  (∀ n', G' !! parentId = Some n' →
     ∃ n, G !! parentId = Some n ∧
          (n' = n ∨ n' = setChildren (childrenOf (Some n')) n)) ∧
  childrenOf (G' !! parentId) ≡ₚ childrenOf (G !! parentId) ∧
  StronglySorted
    (λ a b, compareY (posById !! a) (posById !! b) ≠ Gt)
    (childrenOf (G' !! parentId)).
Proof.
  intros G'. split_and!.
  - intros k Hk. unfold G', reorderChildrenByPosition.
    destruct (G !! parentId); [|done]. destruct (_ <=? _); [done|].
    destruct (decide _); [done|]. by rewrite lookup_insert_ne.
  - intros k. apply (reorder_lookup posById parentId G k).
  - intros n'. unfold G', reorderChildrenByPosition.
    destruct (G !! parentId) as [parent|] eqn:Hp; [|by rewrite Hp].
    destruct (_ <=? _); [rewrite Hp; intros [= <-]; eauto|].
    destruct (decide _); [rewrite Hp; intros [= <-]; eauto|].
    rewrite lookup_insert_eq. intros [= <-]. exists parent. split; [done|].
    by right.
  - unfold G'. rewrite reorder_children, decide_True by done.
    apply stableSort_perm.
  - unfold G'. rewrite reorder_children, decide_True by done.
    eapply StronglySorted_of_lookup. intros i j a b Hij Hi Hj.
    eapply mayPrecede_by_position.
    eapply StronglySorted_lookup; [apply stableSort_sorted|done..].
Qed.

Example reorder_initialTree :
  childrenOf (reorderChildrenByPosition {["12345" := 80%Z; "67890" := 15%Z]}
                "root" initialTree !! "root")
  = ["67890"; "12345"].
Proof. by vm_compute. Qed.

Lemma filter_insertSorted_out (P : string → Prop) `{∀ x, Decision (P x)}
    cmp x s :
  ¬ P x → filter P (insertSorted cmp x s) = filter P s.
Proof.
  intros Hx. induction s as [|y s IH]; simpl.
  - by rewrite filter_cons_False.
  - destruct (cmp x y); [by rewrite filter_cons_False..|].
    rewrite !filter_cons. by rewrite IH.
Qed.

Lemma filter_insertSorted_in (P : string → Prop) `{∀ x, Decision (P x)}
    cmp x s :
  P x → (∀ y, y ∈ s → P y → cmp x y ≠ Gt) →
  filter P (insertSorted cmp x s) = x :: filter P s.
Proof.
  intros Hx. induction s as [|y s IH]; intros Hle; simpl.
  - by rewrite filter_cons_True.
  - destruct (cmp x y) eqn:Hc; [by rewrite filter_cons_True..|].
    assert (¬ P y) as Hy.
    { intros Hy. by apply (Hle y); [apply elem_of_cons; left|..]. }
    rewrite !(filter_cons_False _ y) by done. apply IH.
    intros z Hz. apply Hle. by apply elem_of_cons; right.
Qed.

Lemma orderIndexOf_NoDup (l : list string) (i : nat) (a : string) :
  NoDup l → l !! i = Some a → orderIndexOf l !! a = Some i.
Proof.
  intros Hnd Hi.
  destruct (orderIndexOf_in a l) as (j & Hj & Hlj & _);
    [by eapply list_elem_of_lookup_2|].
  by rewrite (NoDup_lookup l i j a Hnd Hi Hlj).
Qed.

Lemma stableSort_stable posById (y : option Z) (pre l : list string) :
  NoDup (pre ++ l) →
  filter (λ c, posById !! c = y)
         (stableSort (siblingCompare posById (orderIndexOf (pre ++ l))) l)
  = filter (λ c, posById !! c = y) l.
Proof.
  revert pre. induction l as [|x l IH]; intros pre Hnd; [done|]. simpl.
  assert (pre ++ x :: l = (pre ++ [x]) ++ l) as Hcons by by rewrite <- app_assoc.
  specialize (IH (pre ++ [x])). rewrite <- Hcons in IH. specialize (IH Hnd).
  destruct (decide (posById !! x = y)) as [Hx|Hx].
  - rewrite filter_insertSorted_in, IH, filter_cons_True; [done..|].
    intros z Hz Hzy. rewrite stableSort_perm in Hz.
    apply list_elem_of_lookup_1 in Hz as [i Hi].
    unfold siblingCompare. rewrite decide_False by (intros Hn; apply Hn; congruence).
    rewrite (orderIndexOf_NoDup _ (length pre) x Hnd)
      by (by rewrite lookup_app_r, Nat.sub_diag by lia).
    rewrite (orderIndexOf_NoDup _ (length pre + S i) z Hnd).
    + simpl. rewrite Nat.compare_gt_iff. lia.
    + rewrite lookup_app_r by lia.
      replace (length pre + S i - length pre) with (S i) by lia. done.
  - by rewrite filter_insertSorted_out, IH, filter_cons_False.
Qed.

(** X8.  The sort is stable: when the children array has no duplicate, the
    children that sit at one and the same position (or are all unknown to
    React Flow) are in the same relative order after
    [reorderChildrenByPosition] as before. *)
Theorem reorderChildrenByPosition_stable (posById : gmap string Z)
    (parentId : string) (G : Graph) (y : option Z) :
  NoDup (childrenOf (G !! parentId)) →
  filter (λ c, posById !! c = y)
         (childrenOf (reorderChildrenByPosition posById parentId G !! parentId))
  = filter (λ c, posById !! c = y) (childrenOf (G !! parentId)).
Proof.
  intros Hnd. rewrite reorder_children, decide_True by done.
  apply (stableSort_stable posById y []). done.
Qed.

Lemma reorderChildrenByPosition_stable_witness :
  filter (λ c, kidPositions !! c = Some 10%Z)
         (childrenOf (reorderChildrenByPosition kidPositions "root" threeKids
                        !! "root"))
  = filter (λ c, kidPositions !! c = Some 10%Z)
           (childrenOf (threeKids !! "root")).
Proof.
  apply (reorderChildrenByPosition_stable kidPositions "root" threeKids).
  refine (bool_decide_unpack _ _). vm_compute. exact I.
Defined.

(** ** Visibility *)

Lemma revealOne_lookup (next : Graph) (cid k : string) :
  revealOne next cid !! k
  = if decide (k = cid) then revealNode <$> next !! k else next !! k.
Proof.
  unfold revealOne, revealNode. destruct (decide (k = cid)) as [->|Hne].
  - destruct (next !! cid) as [n|] eqn:Hn; [|by rewrite Hn].
    simpl. destruct (decide (visible n = Some false)) as [Hv|Hv].
    + by rewrite lookup_insert_eq.
    + by rewrite Hn.
  - destruct (next !! cid) as [n|]; [|done].
    destruct (decide _); [|done]. by rewrite lookup_insert_ne.
Qed.

Lemma revealNode_idemp n : revealNode (revealNode n) = revealNode n.
Proof.
  unfold revealNode. destruct (decide (visible n = Some false)) as [Hv|Hv].
  - by destruct (decide (visible (setVisible true n) = Some false)).
  - by rewrite decide_False.
Qed.

Lemma foldl_revealOne_lookup (cs : list string) (next : Graph) (k : string) :
  foldl revealOne next cs !! k
  = if decide (k ∈ cs) then revealNode <$> next !! k else next !! k.
Proof.
  revert next. induction cs as [|c cs IH]; intros next.
  - destruct (decide (k ∈ [])) as [?%elem_of_nil|]; done.
  - cbn [foldl]. rewrite IH, revealOne_lookup.
    destruct (decide (k = c)) as [->|Hne].
    + destruct (decide (c ∈ c :: cs)) as [_|Hn];
        [|by destruct Hn; apply elem_of_cons; left].
      destruct (decide (c ∈ cs)); [|done].
      destruct (next !! c); [|done]. simpl. by rewrite revealNode_idemp.
    + destruct (decide (k ∈ cs)) as [Hin|Hin],
               (decide (k ∈ c :: cs)) as [Hin'|Hin']; try done.
      * destruct Hin'. by apply elem_of_cons; right.
      * by apply elem_of_cons in Hin' as [?|?].
Qed.

(** The revealed identifiers: the children, in [prev], of the selected
    nodes. *)
Lemma onSelectionChange_lookup (sel : list string) (G : Graph) (k : string) :
  onSelectionChange sel G !! k
  = if decide (Exists (λ sid, k ∈ childrenOf (G !! sid)) sel)
    then revealNode <$> G !! k else G !! k.
Proof.
  unfold onSelectionChange.
  assert (∀ (sel : list string) (next : Graph),
    foldl (λ next sid, foldl revealOne next (childrenOf (G !! sid))) next sel !! k
    = if decide (Exists (λ sid, k ∈ childrenOf (G !! sid)) sel)
      then revealNode <$> next !! k else next !! k) as Hgen.
  { clear sel. induction sel as [|s sel IH]; intros next.
    - destruct (decide _) as [?%Exists_nil|]; done.
    - cbn [foldl]. rewrite IH, foldl_revealOne_lookup.
      destruct (decide (Exists _ (s :: sel))) as [Hex|Hex];
        rewrite Exists_cons in Hex.
      + destruct (decide (k ∈ childrenOf (G !! s))) as [Hs|Hs],
                 (decide (Exists _ sel)) as [Hsel|Hsel]; try done.
        * destruct (next !! k); [|done]. simpl. by rewrite revealNode_idemp.
        * by destruct Hex.
      + destruct (decide (k ∈ childrenOf (G !! s))) as [Hs|Hs];
          [by destruct Hex; left|].
        destruct (decide (Exists _ sel)) as [Hsel|Hsel]; [|done].
        by destruct Hex; right. }
  apply Hgen.
Qed.

(** X9.  [onSelectionChange] sets [visible] to [true] on the nodes that are
    children of a selected node and have [visible === false], and changes
    nothing else: no key is added or removed, no other field is touched, no
    node that was not hidden becomes hidden, and grandchildren stay as they
    are.  Selecting the same nodes again changes nothing. *)
Theorem onSelectionChange_reveals (sel : list string) (G : Graph) :
  let G' := onSelectionChange sel G in
  (∀ k, G' !! k = G !! k ∨
        ∃ n sid, G !! k = Some n ∧ visible n = Some false ∧
                 sid ∈ sel ∧ k ∈ childrenOf (G !! sid) ∧
                 G' !! k = Some (setVisible true n)) ∧
  (∀ k n sid, G !! k = Some n → sid ∈ sel → k ∈ childrenOf (G !! sid) →
              ∃ n', G' !! k = Some n' ∧ visible n' ≠ Some false) ∧
  (∀ k n n', G !! k = Some n → G' !! k = Some n' →
             visible n ≠ Some false → n' = n) ∧
  onSelectionChange sel G' = G'.
Proof.
  intros G'. split_and!.
  - intros k. unfold G'. rewrite onSelectionChange_lookup.
    destruct (decide _) as [(sid & Hsid & Hk)%Exists_exists|]; [|by left].
    destruct (G !! k) as [n|] eqn:Hn; [|by left]. simpl. unfold revealNode.
    destruct (decide (visible n = Some false)); [|by left].
    right. exists n, sid. done.
  - intros k n sid Hn Hsid Hk. unfold G'. rewrite onSelectionChange_lookup.
    rewrite decide_True by (apply Exists_exists; eauto).
    rewrite Hn. simpl. eexists. split; [done|].
    unfold revealNode. by destruct (decide (visible n = Some false)).
  - intros k n n' Hn. unfold G'. rewrite onSelectionChange_lookup, Hn.
    intros Hn' Hv. destruct (decide _); simpl in Hn'; [|congruence].
    unfold revealNode in Hn'. rewrite decide_False in Hn' by done. congruence.
  - apply map_eq. intros k. rewrite onSelectionChange_lookup.
    assert (∀ sid, childrenOf (G' !! sid) = childrenOf (G !! sid)) as Hch.
    { intros sid. unfold G'. rewrite onSelectionChange_lookup.
      destruct (decide _); [|done]. destruct (G !! sid) as [n|]; [|done].
      simpl. unfold revealNode, childrenOf.
      by destruct (decide (visible n = Some false)). }
    destruct (decide _) as [(sid & Hsid & Hk)%Exists_exists|]; [|done].
    rewrite Hch in Hk. unfold G'. rewrite onSelectionChange_lookup.
    rewrite decide_True by (apply Exists_exists; eauto).
    destruct (G !! k); [|done]. simpl. by rewrite revealNode_idemp.
Qed.

Example onSelectionChange_initialTree :
  (λ G', (visible <$> G' !! "abcde", G' !! "root", G' !! "67890"))
    (onSelectionChange ["12345"] initialTree)
  = (Some (Some true), initialTree !! "root", initialTree !! "67890").
Proof. by vm_compute. Qed.




Example normalizeVisibility_initialTree :
  (λ G', (visible <$> G' !! "root", visible <$> G' !! "12345",
          visible <$> G' !! "67890", visible <$> G' !! "abcde"))
    (normalizeVisibilityOnFirstLoad initialTree)
  = (Some (Some true), Some (Some true), Some (Some true), Some (Some false)).
Proof. by vm_compute. Qed.

(** ** Patches *)

(** X11.  Patches compose like the object spreads they are: two patches of
    one node act as the second spread over the first, patches of different
    nodes commute, and the empty patch changes nothing on an existing
    node. *)
Theorem updateNode_compose (id : string) (p1 p2 : Patch) (G : Graph) :
  updateNode id p2 (updateNode id p1 G) = updateNode id (mergePatch p1 p2) G ∧
  (∀ id' q, id ≠ id' →
     updateNode id p1 (updateNode id' q G)
     = updateNode id' q (updateNode id p1 G)) ∧
  (is_Some (G !! id) → updateNode id emptyPatch G = G).
Proof.
  split_and!.
  - unfold updateNode. rewrite lookup_insert_eq, insert_insert_eq. f_equal.
    unfold spread, mergePatch. simpl.
    f_equal; match goal with |- context [default _ (?f p2)] => by destruct (f p2) end.
  - intros id' q Hne. unfold updateNode.
    rewrite !lookup_insert_ne by done. by apply insert_insert_ne.
  - intros [n Hn]. unfold updateNode. rewrite Hn. simpl.
    apply insert_id. rewrite Hn. by destruct n.
Qed.

(** ** Edges *)

Lemma elem_of_entriesIn keys (G : Graph) k n :
  (k, n) ∈ entriesIn keys G ↔ k ∈ keys ∧ G !! k = Some n.
Proof.
  unfold entriesIn. rewrite list_elem_of_omap. split.
  - intros (k' & Hk' & Hsome). destruct (G !! k') eqn:Hg; simplify_eq/=. done.
  - intros [Hk Hn]. exists k. split; [done|]. by rewrite Hn.
Qed.

Lemma member_is_Some (G : Graph) (k : string) :
  is_Some (member G k) ↔ is_Some (G !! k) ∨ k ∈ objectPrototypeNames.
Proof.
  unfold member. destruct (G !! k) as [n|].
  - split; [by left|by eexists].
  - destruct (bool_decide (k ∈ objectPrototypeNames)) eqn:Hk.
    + apply bool_decide_eq_true in Hk. split; [by right|by eexists].
    + apply bool_decide_eq_false in Hk.
      split; [by intros [? ?]|]. by intros [[? ?]|?].
Qed.

Lemma memberNode_member (G : Graph) (k : string) :
  memberNode (member G k) = G !! k.
Proof.
  unfold member. destruct (G !! k); [done|]. by destruct (bool_decide _).
Qed.

(** X12.  The layout edges are the (parent, child) links of the graph, from
    a parent that is an enumerated key to a child for which [userData[child]]
    is truthy: a child that is a key, or a name that every object inherits
    from [Object.prototype] ([constructor], [toString], ...), each with the
    id [parent-child].  The rendered edges are those of them whose two ends
    are not hidden ([visible !== false], which an inherited member never
    is), and they are animated. *)
Theorem buildEdges_spec (keys : list string) (G : Graph) (e : Edge) :
  (e ∈ buildEdgesForLayout keys G ↔
     e_source e ∈ keys ∧ childRel G (e_source e) (e_target e) ∧
     (is_Some (G !! e_target e) ∨ e_target e ∈ objectPrototypeNames) ∧
     e_id e = edgeId (e_source e) (e_target e) ∧ e_animated e = None) ∧
  (e ∈ buildEdgesFrom keys G ↔
     e_source e ∈ keys ∧ childRel G (e_source e) (e_target e) ∧
     (is_Some (G !! e_target e) ∨ e_target e ∈ objectPrototypeNames) ∧
     (G !! e_source e ≫= visible) ≠ Some false ∧
     (G !! e_target e ≫= visible) ≠ Some false ∧
     e_id e = edgeId (e_source e) (e_target e) ∧ e_animated e = Some true).
Proof.
  split.
  - unfold buildEdgesForLayout. rewrite list_elem_of_bind. split.
    + intros ([p info] & He & [Hp Hinfo]%elem_of_entriesIn).
      apply list_elem_of_bind in He as (c & He & Hc).
      destruct (member G c) as [m|] eqn:Hm; [|by apply elem_of_nil in He].
      apply list_elem_of_singleton in He as ->. cbn [e_source e_target e_id e_animated].
      split_and!; [done| | |done|done].
      * unfold childRel. by rewrite Hinfo.
      * apply member_is_Some. by rewrite Hm.
    + intros (Hk & Hc & Hm%member_is_Some & Hid & Han). unfold childRel in Hc.
      destruct (G !! e_source e) as [info|] eqn:Hinfo;
        [|by apply elem_of_nil in Hc].
      exists (e_source e, info). split; [|by apply elem_of_entriesIn].
      apply list_elem_of_bind. exists (e_target e). split; [|done].
      destruct Hm as [m ->]. apply list_elem_of_singleton.
      destruct e. simpl in *. by subst.
  - unfold buildEdgesFrom, shown. rewrite list_elem_of_bind. split.
    + intros ([p info] & He & [Hp Hinfo]%elem_of_entriesIn).
      apply list_elem_of_bind in He as (c & He & Hc). cbv zeta in He.
      rewrite memberNode_member in He.
      destruct (member G c) as [m|] eqn:Hm; [|by apply elem_of_nil in He].
      destruct (bool_decide _ && bool_decide _) eqn:Hs;
        [|by apply elem_of_nil in He].
      apply andb_true_iff in Hs as [Hs1%bool_decide_eq_true Hs2%bool_decide_eq_true].
      apply list_elem_of_singleton in He as ->. cbn [e_source e_target e_id e_animated].
      rewrite Hinfo. split_and!; try done.
      * unfold childRel. by rewrite Hinfo.
      * apply member_is_Some. by rewrite Hm.
    + intros (Hk & Hc & Hm%member_is_Some & Hs1 & Hs2 & Hid & Han).
      unfold childRel in Hc.
      destruct (G !! e_source e) as [info|] eqn:Hinfo;
        [|by apply elem_of_nil in Hc].
      exists (e_source e, info). split; [|by apply elem_of_entriesIn].
      apply list_elem_of_bind. exists (e_target e). split; [|done].
      cbv zeta. rewrite memberNode_member. destruct Hm as [m ->].
      rewrite !bool_decide_eq_true_2 by done. cbn [andb].
      apply list_elem_of_singleton. destruct e. simpl in *. by subst.
Qed.

Example buildEdges_initialTree :
  (e_id <$> buildEdgesForLayout ["root"; "12345"; "67890"; "abcde"] initialTree,
   e_id <$> buildEdgesFrom ["root"; "12345"; "67890"; "abcde"] initialTree)
  = (["root-12345"; "root-67890"; "12345-abcde"],
     ["root-12345"; "root-67890"]).
Proof. by vm_compute. Qed.

(** A child list that names [toString], which is not a key, and a node
    that is gone: the first gets an edge to no node, the second none. *)
Example buildEdges_inherited :
  let G : Graph := {[ "root" := setChildren ["toString"; "gone"] childDefaults ]} in
  G !! "toString" = None ∧
  e_id <$> buildEdgesForLayout ["root"] G = ["root-toString"] ∧
  e_id <$> buildEdgesFrom ["root"] G = ["root-toString"].
Proof. by vm_compute. Qed.

(** ** Recurring tasks, once advanced *)

(** X13.  When a run of the advancement returns a graph (it throws, and
    gives none, when a series leaves the range of [Date]), that graph has
    the keys of the old one and differs from it in [dueDate] and
    [completed] only; a task that differs was completed and is reopened,
    [completed = false], so that every later run leaves it alone, on
    whatever day and host, until it is completed again.  In particular a
    second run on the same day returns the same graph. *)
Theorem advanceRecurringTasks_once (H H' : JsHost) (today today' : Z)
    (G G1 : Graph) :
  @advanceRecurringTasks H today G = Some G1 →
  (∀ k, is_Some (G1 !! k) ↔ is_Some (G !! k)) ∧
  (∀ k n n1, G !! k = Some n → G1 !! k = Some n1 →
     title n1 = title n ∧ type n1 = type n ∧ children n1 = children n ∧
     visible n1 = visible n ∧ repeatDays n1 = repeatDays n ∧
     depth n1 = depth n ∧ content n1 = content n ∧
     (n1 ≠ n → completed n = Some true ∧ completed n1 = Some false ∧
               @advanceNode H' today' n1 = Some n1)) ∧
  @advanceRecurringTasks H today G1 = Some G1.
Proof.
  intros Hrun.
  pose proof (@advanceRecurringTasks_returns H today G G1 Hrun) as Hlook.
  assert (Hadv : ∀ n n1, @advanceNode H today n = Some n1 →
            n1 = n ∨ (completed n = Some true ∧
                      ∃ s, n1 = setDueAndReopen s n)).
  { intros n n1 Hn.
    destruct (@advanceNode_cases H today n)
      as [E|(s & step & due & k & _ & _ & Hdone & _ & _ & _ & _ & _
             & [(E & _)|(E & _)])]; rewrite E in Hn; simplify_eq; eauto. }
  assert (Hre : ∀ (H0 : JsHost) t s n,
            @advanceNode H0 t (setDueAndReopen s n)
            = Some (setDueAndReopen s n)).
  { intros H0 t s n. apply advanceNode_untouched. by left. }
  assert (Hfix : ∀ k n1, G1 !! k = Some n1 →
            @advanceNode H today n1 = Some n1).
  { intros k n1 Hn1. rewrite Hlook in Hn1.
    destruct (G !! k) as [n|] eqn:Hn; [|done]. cbn in Hn1.
    destruct (Hadv n n1 Hn1) as [->|(_ & s & ->)]; [done|apply Hre]. }
  split_and!.
  - intros k. rewrite Hlook. destruct (G !! k) as [n|] eqn:Hn; cbn.
    + split; [by eexists|]. intros _.
      destruct (@advanceNode H today n) as [n1|] eqn:Hn1; [by eexists|].
      assert (@advanceRecurringTasks H today G = None) as Hnone
        by (apply advanceRecurringTasks_throws; eauto).
      congruence.
    + done.
  - intros k n n1 Hn Hn1. rewrite Hlook, Hn in Hn1. cbn in Hn1.
    destruct (Hadv n n1 Hn1) as [->|(Hdone & s & ->)]; [done|].
    split_and!; [done..|]. intros _. split_and!; [done|done|apply Hre].
  - unfold advanceRecurringTasks. rewrite decide_True.
    + f_equal. apply map_eq. intros k. rewrite lookup_fmap.
      destruct (G1 !! k) as [n1|] eqn:Hn1; [|done]. cbn.
      by rewrite (Hfix k n1 Hn1).
    + intros k n1 Hn1. rewrite (Hfix k n1 Hn1). by eexists.
Qed.

Lemma advanceRecurringTasks_once_witness :
  let today := daysFromCivil 2024 1 10 in
  let G1 : Graph := {[ "t" := setDueAndReopen "2024-01-10" (repeating 7) ]} in
  advanceRecurringTasks today overdueWeekly = Some G1 ∧
  (∀ k, is_Some (G1 !! k) ↔ is_Some (overdueWeekly !! k)) ∧
  advanceRecurringTasks today G1 = Some G1.
Proof.
  intros today G1.
  assert (Hrun : advanceRecurringTasks today overdueWeekly = Some G1)
    by (by vm_compute).
  destruct (advanceRecurringTasks_once utcHost utcHost today today
              overdueWeekly G1 Hrun) as (Hkeys & _ & Hagain).
  split_and!; [exact Hrun|exact Hkeys|exact Hagain].
Defined.

(** ** Dates written and read back *)

(** The civil-calendar conversion inside one era of 400 years, checked on
    each of its 146097 days. *)
Lemma civil_era (doe : Z) :
  (0 ≤ doe < 146097)%Z →
  let yoe := ((doe - doe / 1460 + doe / 36524 - doe / 146096) / 365)%Z in
  let doy := (doe - (365 * yoe + yoe / 4 - yoe / 100))%Z in
  let mp := ((5 * doy + 2) / 153)%Z in
  let d := (doy - (153 * mp + 2) / 5 + 1)%Z in
  let m := if (mp <? 10)%Z then (mp + 3)%Z else (mp - 9)%Z in
  let mp' := if (2 <? m)%Z then (m - 3)%Z else (m + 9)%Z in
  (0 ≤ yoe < 400)%Z ∧ (1 ≤ m ≤ 12)%Z ∧ (1 ≤ d ≤ 31)%Z ∧
  (yoe * 365 + yoe / 4 - yoe / 100 + ((153 * mp' + 2) / 5 + d - 1) = doe)%Z ∧
  ((36465 ≤ doe → 100 ≤ yoe + (if (m <=? 2) then 1 else 0))
   ∧ (doe ≤ 146036 → yoe + (if (m <=? 2) then 1 else 0) ≤ 399))%Z.
Proof.
  intros Hdoe. cbv zeta.
  set (yoe := ((doe - doe / 1460 + doe / 36524 - doe / 146096) / 365)%Z).
  set (doy := (doe - (365 * yoe + yoe / 4 - yoe / 100))%Z).
  assert (Hy : (0 ≤ yoe < 400 ∧ 0 ≤ doy ≤ 365)%Z).
  { unfold doy, yoe. Z.div_mod_to_equations. lia. }
  assert (Hlo : (36465 ≤ doe → 100 ≤ yoe ∨ (yoe = 99 ∧ 306 ≤ doy))%Z).
  { unfold doy, yoe. Z.div_mod_to_equations. lia. }
  assert (Hhi : (doe ≤ 146036 → yoe < 399 ∨ (yoe = 399 ∧ doy < 306))%Z).
  { unfold doy, yoe. Z.div_mod_to_equations. lia. }
  assert (Hdoy : (yoe * 365 + yoe / 4 - yoe / 100 + doy = doe)%Z)
    by (unfold doy; lia).
  clearbody doy. clearbody yoe.
  set (mp := ((5 * doy + 2) / 153)%Z).
  assert (Hmp : (0 ≤ mp ≤ 11 ∧ (10 ≤ mp ↔ 306 ≤ doy)
                 ∧ 1 ≤ doy - (153 * mp + 2) / 5 + 1 ≤ 31)%Z).
  { unfold mp. Z.div_mod_to_equations. lia. }
  clearbody mp.
  destruct (Z.ltb_spec mp 10); destruct (Z.ltb_spec 2 (mp + 3));
    destruct (Z.ltb_spec 2 (mp - 9)); destruct (Z.leb_spec (mp + 3) 2);
    destruct (Z.leb_spec (mp - 9) 2); try lia;
    (split_and!; [lia..| |lia|lia]);
    match goal with
    | |- context [(?a + 3 - 3)%Z] => replace (a + 3 - 3)%Z with a by lia
    | |- context [(?a - 9 + 9)%Z] => replace (a - 9 + 9)%Z with a by lia
    end; lia.
Qed.

Lemma civil_roundtrip (z : Z) :
  ∃ y m d, civilFromDays z = (y, m, d) ∧ daysFromCivil y m d = z ∧
    (1 ≤ m ≤ 12)%Z ∧ (1 ≤ d ≤ 31)%Z ∧
    ((daysFromCivil 100 1 1 ≤ z ≤ daysFromCivil 9999 12 31)%Z →
     (100 ≤ y ≤ 9999)%Z).
Proof.
  unfold civilFromDays. cbv zeta.
  set (z' := (z + 719468)%Z). set (era := (z' / 146097)%Z).
  set (doe := (z' - era * 146097)%Z).
  assert (Hdoe : (0 ≤ doe < 146097)%Z).
  { unfold doe, era. pose proof (Z.mod_pos_bound z' 146097 ltac:(lia)).
    pose proof (Z.div_mod z' 146097 ltac:(lia)). lia. }
  assert (Hz : (z = era * 146097 + doe - 719468)%Z) by (unfold doe, z'; lia).
  assert (Hera0 : (0 ≤ z + 719468 → 0 ≤ era)%Z).
  { intros. unfold era, z'. apply Z.div_pos; lia. }
  assert (Hera24 : (z + 719468 < 25 * 146097 → era ≤ 24)%Z).
  { intros. unfold era, z'. apply Z.lt_succ_r, Z.div_lt_upper_bound; lia. }
  pose proof (civil_era doe Hdoe) as Hera. cbv zeta in Hera.
  clearbody doe. clearbody era. clear z'.
  set (yoe := ((doe - doe / 1460 + doe / 36524 - doe / 146096) / 365)%Z) in *.
  set (doy := (doe - (365 * yoe + yoe / 4 - yoe / 100))%Z) in *.
  set (mp := ((5 * doy + 2) / 153)%Z) in *.
  set (d := (doy - (153 * mp + 2) / 5 + 1)%Z) in *.
  set (m := if (mp <? 10)%Z then (mp + 3)%Z else (mp - 9)%Z) in *.
  destruct Hera as (Hyoe & Hm & Hd & Hback & Hlo & Hhi).
  eexists _, m, d. split; [reflexivity|]. split_and!; try lia.
  - unfold daysFromCivil. cbv zeta.
    assert (Hy : ((if (m <=? 2)%Z
                   then ((if (m <=? 2)%Z then yoe + era * 400 + 1
                          else yoe + era * 400) - 1)
                   else (if (m <=? 2)%Z then yoe + era * 400 + 1
                         else yoe + era * 400)) = yoe + era * 400)%Z).
    { destruct (m <=? 2)%Z; lia. }
    rewrite Hy.
    assert (He : ((yoe + era * 400) / 400 = era)%Z).
    { rewrite Z.div_add by lia. rewrite Z.div_small by lia. lia. }
    rewrite He.
    replace (yoe + era * 400 - era * 400)%Z with yoe by lia.
    lia.
  - assert (Hd100 : daysFromCivil 100 1 1 = (-683003)%Z) by reflexivity.
    assert (Hd9999 : daysFromCivil 9999 12 31 = 2932896%Z) by reflexivity.
    rewrite Hd100, Hd9999. intros Hrange.
    assert (0 ≤ era ≤ 24)%Z by lia.
    destruct (m <=? 2)%Z; lia.
Qed.

Lemma string_length_app (a b : string) :
  String.length (a +:+ b) = String.length a + String.length b.
Proof.
  induction a as [|x a IH]; [done|].
  rewrite string_app_cons. cbn [String.length Nat.add]. by f_equal.
Qed.

Lemma substring_whole (s : string) : substring 0 (String.length s) s = s.
Proof.
  induction s as [|x s IH]; [done|].
  cbn [String.length substring]. by f_equal.
Qed.

Lemma padDigits_length (w : nat) (n : Z) : String.length (padDigits w n) = w.
Proof.
  revert n. induction w as [|w IH]; intros n; [done|].
  simpl. rewrite string_length_app, IH. simpl. lia.
Qed.

Lemma digitsValue_app (acc : Z) (s t : string) :
  digitsValue acc (s +:+ t) = digitsValue acc s ≫= λ v, digitsValue v t.
Proof.
  revert acc. induction s as [|c s IH]; intros acc; [done|].
  rewrite string_app_cons. simpl. destruct (_ && _); [apply IH|done].
Qed.

(** [Number] reads a zero-padded number back. *)
Lemma digitsValue_pad (w : nat) (n acc : Z) :
  (0 ≤ n < 10 ^ Z.of_nat w)%Z →
  digitsValue acc (padDigits w n) = Some (acc * 10 ^ Z.of_nat w + n)%Z.
Proof.
  revert n. induction w as [|w IH]; intros n Hn.
  - simpl in *. f_equal. lia.
  - rewrite Nat2Z.inj_succ, Z.pow_succ_r in * by lia.
    cbn [padDigits]. rewrite digitsValue_app, IH.
    2:{ split; [apply Z.div_pos; lia|apply Z.div_lt_upper_bound; lia]. }
    cbn [mbind option_bind digitsValue].
    pose proof (Z.mod_pos_bound n 10 ltac:(lia)) as Hmod.
    rewrite nat_ascii_embedding by lia.
    replace ((48 <=? 48 + Z.to_nat (n mod 10)) &&
             (48 + Z.to_nat (n mod 10) <=? 57)) with true.
    2:{ symmetry. apply andb_true_iff.
        split; apply Nat.leb_le; lia. }
    f_equal. pose proof (Z.div_mod n 10 ltac:(lia)).
    replace (Z.of_nat (48 + Z.to_nat (n mod 10) - 48)) with (n mod 10)%Z by lia.
    lia.
Qed.

(** A part made of digits ends at the next dash. *)
Lemma splitOn_digits (acc : Z) (a rest : string) :
  is_Some (digitsValue acc a) →
  splitOn "-" (a +:+ String "-" rest) = a :: splitOn "-" rest ∧
  splitOn "-" a = [a].
Proof.
  revert acc. induction a as [|c a IH]; intros acc Ha; [done|].
  simpl in Ha. destruct (_ && _) eqn:Hc; [|by destruct Ha].
  destruct (IH _ Ha) as [IH1 IH2].
  rewrite string_app_cons. cbn [splitOn]. rewrite IH1, IH2.
  destruct (Ascii.eqb c "-") eqn:Hdash; [|done].
  apply Ascii.eqb_eq in Hdash. subst c. done.
Qed.

(** The text that [toISOString().slice(0, 10)] gives for a day whose UTC
    year lies between 100 and 9999, and what [Number] makes of its parts. *)
Lemma isoDate_text (ahead : Z → bool) (due : Z) :
  let host := {| toNumber := digitsValue 0%Z; utcAhead := ahead |} in
  let utcDay := if ahead due then (due - 1)%Z else due in
  (daysFromCivil 100 1 1 ≤ utcDay ≤ daysFromCivil 9999 12 31)%Z →
  ∃ y m d,
    @isoDate host due
    = padDigits 4 y +:+ String "-" (padDigits 2 m +:+ String "-" (padDigits 2 d)) ∧
    digitsValue 0 (padDigits 4 y) = Some y ∧
    digitsValue 0 (padDigits 2 m) = Some m ∧
    digitsValue 0 (padDigits 2 d) = Some d ∧
    makeDay y (m - 1) d = utcDay ∧
    (Z.abs utcDay <=? 100000000)%Z = true.
Proof.
  cbv zeta. intros Hrange. unfold isoDate. cbn [utcAhead].
  set (utcDay := if ahead due then (due - 1)%Z else due) in *.
  destruct (civil_roundtrip utcDay) as (y & m & d & -> & Hback & Hm & Hd & Hy).
  specialize (Hy Hrange). exists y, m, d.
  replace ((0 <=? y)%Z && (y <=? 9999)%Z) with true
    by (symmetry; apply andb_true_iff; split; apply Z.leb_le; lia).
  set (s := padDigits 4 y +:+ "-" +:+ padDigits 2 m +:+ "-" +:+ padDigits 2 d).
  assert (Hlen : String.length s = 10).
  { unfold s. rewrite !string_length_app, !padDigits_length. done. }
  rewrite <- Hlen, substring_whole. unfold s.
  split_and!.
  - done.
  - rewrite digitsValue_pad; [f_equal; lia|simpl; lia].
  - rewrite digitsValue_pad; [f_equal; lia|simpl; lia].
  - rewrite digitsValue_pad; [f_equal; lia|simpl; lia].
  - unfold makeDay.
    replace ((0 <=? y)%Z && (y <=? 99)%Z) with false
      by (symmetry; apply andb_false_iff; right; apply Z.leb_gt; lia).
    rewrite Z.div_small, Z.mod_small by lia.
    rewrite <- Hback. unfold daysFromCivil. cbv zeta.
    replace (m - 1 + 1)%Z with m by lia. replace (y + 0)%Z with y by lia.
    lia.
  - assert (Hd100 : daysFromCivil 100 1 1 = (-683003)%Z) by reflexivity.
    assert (Hd9999 : daysFromCivil 9999 12 31 = 2932896%Z) by reflexivity.
    apply Z.leb_le. lia.
Qed.

Lemma splitOn_date (y m d : string) :
  is_Some (digitsValue 0 y) → is_Some (digitsValue 0 m) →
  is_Some (digitsValue 0 d) →
  splitOn "-" (y +:+ String "-" (m +:+ String "-" d)) = [y; m; d].
Proof.
  intros Hy Hm Hd.
  rewrite (proj1 (splitOn_digits 0 _ _ Hy)).
  rewrite (proj1 (splitOn_digits 0 _ _ Hm)).
  by rewrite (proj2 (splitOn_digits 0 _ "" Hd)).
Qed.

(** X14.  The date text stored by the advancement effect, read again by its
    parser, is the UTC day of the computed local midnight: the computed day
    itself where local time is not ahead of UTC, and the day before where it
    is.  [Number] is taken on digit strings; the UTC year lies between 100
    and 9999. *)
Theorem dueDate_write_back (ahead : Z → bool) (due : Z) :
  let host := {| toNumber := digitsValue 0%Z; utcAhead := ahead |} in
  let utcDay := if ahead due then (due - 1)%Z else due in
  (daysFromCivil 100 1 1 ≤ utcDay ≤ daysFromCivil 9999 12 31)%Z →
  @parseDue host (@isoDate host due) = Some utcDay.
Proof.
  cbv zeta. intros Hrange.
  destruct (isoDate_text ahead due Hrange)
    as (y & m & d & -> & Hy & Hm & Hd & Hmake & Habs).
  unfold parseDue. rewrite splitOn_date by (rewrite ?Hy, ?Hm, ?Hd; eauto).
  cbn [toNumber]. rewrite Hy, Hm, Hd. cbv zeta. by rewrite Hmake, Habs.
Qed.

Lemma dueDate_write_back_witness :
  @parseDue utcHost (@isoDate utcHost 19732%Z) = Some 19732%Z ∧
  @parseDue {| toNumber := digitsValue 0%Z; utcAhead := λ _, true |}
    (@isoDate {| toNumber := digitsValue 0%Z; utcAhead := λ _, true |} 19732%Z)
  = Some 19731%Z.
Proof.
  split.
  - apply (dueDate_write_back (λ _, false) 19732%Z). vm_compute. by split.
  - apply (dueDate_write_back (λ _, true) 19732%Z). vm_compute. by split.
Defined.

(** ** Depths, once recomputed *)

(** The traversal reads a graph only through its keys and children
    arrays. *)
Lemma relaxChildren_shape (G1 G2 : Graph) d cs q td :
  (∀ k, is_Some (G1 !! k) ↔ is_Some (G2 !! k)) →
  relaxChildren G1 d cs q td = relaxChildren G2 d cs q td.
Proof.
  intros Hkeys. revert q td. induction cs as [|c cs IH]; intros q td; [done|].
  simpl. pose proof (Hkeys c) as Hc.
  destruct (G1 !! c) as [n1|], (G2 !! c) as [n2|].
  - destruct (match td !! c with Some cur => _ | None => _ end); apply IH.
  - destruct (proj1 Hc ltac:(eauto)) as [? [=]].
  - destruct (proj2 Hc ltac:(eauto)) as [? [=]].
  - apply IH.
Qed.

Lemma bfsLoop_shape (G1 G2 : Graph) fuel q td :
  (∀ k, is_Some (G1 !! k) ↔ is_Some (G2 !! k)) →
  (∀ k, childrenOf (G1 !! k) = childrenOf (G2 !! k)) →
  bfsLoop fuel G1 q td = bfsLoop fuel G2 q td.
Proof.
  intros Hkeys Hkids. revert q td.
  induction fuel as [|fuel IH]; intros q td; [done|].
  destruct q as [|id q]; [done|]. simpl.
  rewrite Hkids, (relaxChildren_shape G1 G2) by done.
  destruct (relaxChildren _ _ _ _ _). apply IH.
Qed.

Lemma applyDepth_fields td k n :
  title (applyDepth td k n) = title n ∧ type (applyDepth td k n) = type n ∧
  children (applyDepth td k n) = children n ∧
  visible (applyDepth td k n) = visible n ∧
  completed (applyDepth td k n) = completed n ∧
  dueDate (applyDepth td k n) = dueDate n ∧
  repeatDays (applyDepth td k n) = repeatDays n ∧
  content (applyDepth td k n) = content n.
Proof.
  unfold applyDepth. destruct (td !! k); [|done]. by destruct (decide _).
Qed.

Lemma applyDepth_idemp td k n :
  applyDepth td k (applyDepth td k n) = applyDepth td k n.
Proof.
  unfold applyDepth. destruct (td !! k) as [want|]; [|done].
  destruct (decide (depth n ≠ Some want)) as [Hne|Heq].
  - by destruct (decide _) as [Hne'|].
  - by destruct (decide _).
Qed.

(** X15.  [recomputeDepths] always returns; the graph it returns has the
    same keys, differs from the input in no field but [depth], and is a
    fixed point: recomputing the depths of the result changes nothing. *)
Theorem recomputeDepths_stable (G : Graph) :
  ∃ G', recomputeDepths G = Some G' ∧
    (∀ k, is_Some (G' !! k) ↔ is_Some (G !! k)) ∧
    (∀ k n n', G !! k = Some n → G' !! k = Some n' →
       title n' = title n ∧ type n' = type n ∧ children n' = children n ∧
       visible n' = visible n ∧ completed n' = completed n ∧
       dueDate n' = dueDate n ∧ repeatDays n' = repeatDays n ∧
       content n' = content n) ∧
    recomputeDepths G' = Some G'.
Proof.
  destruct (G !! "root") as [r|] eqn:Hr.
  2:{ exists G. unfold recomputeDepths. rewrite Hr.
      split_and!; [done|done| |done].
      intros k n n' Hn Hn'. by simplify_eq. }
  destruct (bfsLoop_terminates G (S (size G)) ["root"] {["root" := 0%Z]})
    as (td & Hrun & _).
  { apply bfsInv_init. eauto. }
  { rewrite map_size_singleton. simpl. lia. }
  set (G' := map_imap (λ id node, Some (applyDepth td id node)) G).
  assert (Hlook : ∀ k, G' !! k = applyDepth td k <$> G !! k).
  { intros k. unfold G'. rewrite map_lookup_imap. by destruct (G !! k). }
  assert (Hkeys : ∀ k, is_Some (G' !! k) ↔ is_Some (G !! k)).
  { intros k. rewrite Hlook. apply fmap_is_Some. }
  assert (Hkids : ∀ k, childrenOf (G' !! k) = childrenOf (G !! k)).
  { intros k. rewrite Hlook. destruct (G !! k) as [n|]; [|done]. simpl.
    unfold childrenOf. simpl.
    by rewrite (proj1 (proj2 (proj2 (applyDepth_fields td k n)))). }
  assert (Hsize : size G' = size G).
  { rewrite <- !(size_dom (D := gset string)). f_equal.
    apply set_eq. intros k. rewrite !elem_of_dom. apply Hkeys. }
  exists G'. split_and!.
  - unfold recomputeDepths, targetDepths. by rewrite Hr, Hrun.
  - done.
  - intros k n n' Hn. rewrite Hlook, Hn. intros [= <-].
    apply applyDepth_fields.
  - unfold recomputeDepths, targetDepths.
    destruct (proj2 (Hkeys "root") ltac:(eauto)) as [r' ->].
    rewrite Hsize, (bfsLoop_shape G' G) by done. rewrite Hrun. simpl.
    f_equal. apply map_eq. intros k. rewrite map_lookup_imap, Hlook.
    destruct (G !! k) as [n|]; [|done]. simpl. f_equal.
    apply applyDepth_idemp.
Qed.

Example recomputeDepths_staleDepths :
  (λ G', (λ k, G' !! k ≫= depth) <$> ["root"; "a"; "b"; "c"; "z"])
    <$> recomputeDepths staleDepths
  = Some [Some 0%Z; Some 1%Z; Some 1%Z; Some 2%Z; Some 9%Z].
Proof. by vm_compute. Qed.

(** ** The save path over arbitrary event sequences *)

Lemma hookRun_cons {A} autoSave (e : HookEvent A) es st :
  hookRun autoSave (e :: es) st = hookRun autoSave es (hookStep autoSave st e).
Proof. done. Qed.

Lemma hookRun_app {A} autoSave (es1 es2 : list (HookEvent A)) st :
  hookRun autoSave (es1 ++ es2) st
  = hookRun autoSave es2 (hookRun autoSave es1 st).
Proof. unfold hookRun. apply foldl_app. Qed.

(** One event moves the number of writes started and [savingRef]
    together. *)
Lemma hookStep_flight {A} autoSave (st : HookState A) (e : HookEvent A) :
  enabled st e = true →
  length (hs_writes (hookStep autoSave st e)) + Nat.b2n (hs_saving st)
  = length (hs_writes st) + Nat.b2n (isWriteSettled e)
    + Nat.b2n (hs_saving (hookStep autoSave st e)) ∧
  ∃ more, hs_writes (hookStep autoSave st e) = hs_writes st ++ more.
Proof.
  destruct st as [m l r t s q lat stat w].
  destruct e as [u| | | |data]; simpl; intros He;
    unfold setState, timerFire, writeSettled, flush, loadFinished,
      scheduleSave, performSave; simpl;
    destruct autoSave, m, l, r, t, s, q; simpl in *; try done;
    (split; [rewrite ?length_app; simpl; lia|]);
    first [ by (exists []; rewrite app_nil_r) | by eexists ].
Qed.

(** X16.  Writes never overlap: along any sequence of events in which a
    write settles only while one is in flight, the number of calls of
    [writeAppDataConfig] exceeds the number of settled writes by one while
    [savingRef] is set and by nothing while it is not; and what has been
    written is never taken back. *)
Theorem hook_single_flight {A} (autoSave : bool) (es : list (HookEvent A))
    (st : HookState A) :
  wellTimed autoSave st es = true →
  let st' := hookRun autoSave es st in
  length (hs_writes st') + Nat.b2n (hs_saving st)
  = length (hs_writes st) + length (filter (λ e, isWriteSettled e = true) es)
    + Nat.b2n (hs_saving st') ∧
  ∃ more, hs_writes st' = hs_writes st ++ more.
Proof.
  cbv zeta. revert st. induction es as [|e es IH]; intros st Hwt.
  - simpl. split; [lia|]. exists []. by rewrite app_nil_r.
  - simpl in Hwt. apply andb_true_iff in Hwt as [He Hwt].
    rewrite hookRun_cons. destruct (IH _ Hwt) as [IHn [more2 IHw]].
    destruct (hookStep_flight autoSave st e He) as [Hstep [more1 Hw]].
    split.
    + rewrite filter_cons.
      destruct (decide (isWriteSettled e = true)) as [Hs|Hs].
      * rewrite Hs in Hstep. simpl in *. lia.
      * apply not_true_is_false in Hs. rewrite Hs in Hstep. simpl in *. lia.
    + exists (more1 ++ more2). by rewrite IHw, Hw, app_assoc.
Qed.

Lemma hook_single_flight_witness :
  let es := [SetState (UValue 1%Z); TimerFire; SetState (UValue 2%Z);
             Flush; WriteSettled; WriteSettled] in
  let st := mkHook true true false false false false 0%Z Idle [] in
  hs_writes (hookRun true es st) = [1%Z; 2%Z] ∧
  length (hs_writes (hookRun true es st)) + Nat.b2n (hs_saving st)
  = length (hs_writes st) + length (filter (λ e, isWriteSettled e = true) es)
    + Nat.b2n (hs_saving (hookRun true es st)).
Proof.
  split; [reflexivity|].
  apply (hook_single_flight true
           [SetState (UValue 1%Z); TimerFire; SetState (UValue 2%Z);
            Flush; WriteSettled; WriteSettled]
           (mkHook true true false false false false 0%Z Idle [])).
  reflexivity.
Defined.

(** What a save still owes: a timer is armed, or a save is queued behind the
    write in flight, or the last write was given the latest value. *)
Lemma hookStep_settles {A} (st : HookState A) (e : HookEvent A) :
  hs_mounted st = true → hs_loaded st = true →
  (hs_queued st = true → hs_saving st = true) →
  isLoadFinished e = false →
  let st' := hookStep true st e in
  let owes (s : HookState A) :=
    hs_timer s = true ∨ (hs_saving s = true ∧ hs_queued s = true)
    ∨ last (hs_writes s) = Some (hs_latest s) in
  hs_mounted st' = true ∧ hs_loaded st' = true ∧
  (hs_queued st' = true → hs_saving st' = true) ∧
  (owes st ∨ isSetState e = true → owes st').
Proof.
  destruct st as [m l r t s q lat stat w]. simpl. intros -> -> Hq Hload.
  destruct e as [u| | | |data]; [| | | |done]; simpl;
    unfold setState, timerFire, writeSettled, flush, scheduleSave,
      performSave; simpl;
    destruct t, s, q; simpl in *; try (by specialize (Hq eq_refl));
    (split_and!; [done|done|done|]); intros H;
    first [ by left | by (right; left) | by (right; right; rewrite last_snoc)
          | destruct H as [[H|[[H1 H2]|H]]|H]; try done; by (right; right) ].
Qed.

(** X17.  No update is lost: on a mounted, loaded, auto-saving hook, after
    any sequence of events that holds a call of the setter (and no return of
    the initial read), either a save is still due (the timer is armed, or a
    save is queued behind the write in flight) or the last call of
    [writeAppDataConfig] was given the latest value. *)
Theorem hook_no_lost_update {A} (es : list (HookEvent A)) (st : HookState A) :
  hs_mounted st = true → hs_loaded st = true →
  (hs_queued st = true → hs_saving st = true) →
  Forall (λ e, isLoadFinished e = false) es →
  Exists (λ e, isSetState e = true) es →
  let st' := hookRun true es st in
  hs_timer st' = true ∨ (hs_saving st' = true ∧ hs_queued st' = true)
  ∨ last (hs_writes st') = Some (hs_latest st').
Proof.
  cbv zeta. intros Hm Hl Hq Hload Hset.
  set (owes := λ s : HookState A,
         hs_timer s = true ∨ (hs_saving s = true ∧ hs_queued s = true)
         ∨ last (hs_writes s) = Some (hs_latest s)).
  assert (Hkeep : ∀ es st, hs_mounted st = true → hs_loaded st = true →
            (hs_queued st = true → hs_saving st = true) →
            Forall (λ e : HookEvent A, isLoadFinished e = false) es →
            owes st ∨ Exists (λ e : HookEvent A, isSetState e = true) es →
            owes (hookRun true es st)).
  { clear. intros es. induction es as [|e es IH]; intros st Hm Hl Hq Hload Hown.
    - destruct Hown as [?|Hex]; [done|]. by apply Exists_nil in Hex.
    - apply Forall_cons in Hload as [He Hload]. rewrite hookRun_cons.
      destruct (hookStep_settles st e Hm Hl Hq He) as (Hm' & Hl' & Hq' & Hstep).
      apply IH; [done..|].
      destruct Hown as [Hown|[Hex|Hex]%Exists_cons].
      + left. apply Hstep. by left.
      + left. apply Hstep. by right.
      + by right. }
  apply (Hkeep es st); auto.
Qed.

Lemma hook_no_lost_update_witness :
  let st' := hookRun true
               [SetState (UValue 1%Z); TimerFire; SetState (UValue 2%Z);
                TimerFire; WriteSettled]
               (mkHook true true false false false false 0%Z Idle []) in
  hs_writes st' = [1%Z; 2%Z] ∧
  (hs_timer st' = true ∨ (hs_saving st' = true ∧ hs_queued st' = true)
   ∨ last (hs_writes st') = Some (hs_latest st')).
Proof.
  split; [reflexivity|].
  apply (hook_no_lost_update
           [SetState (UValue 1%Z); TimerFire; SetState (UValue 2%Z);
            TimerFire; WriteSettled]
           (mkHook true true false false false false 0%Z Idle []));
    [reflexivity|reflexivity|done| |].
  - repeat constructor.
  - apply Exists_cons. by left.
Defined.

(** While the initial read is pending nothing is armed, in flight or
    written; a call of the setter or of [flush] is only remembered. *)
Lemma hookRun_loading {A} autoSave (es : list (HookEvent A)) (st : HookState A) :
  hs_mounted st = true → hs_loaded st = false → hs_timer st = false →
  hs_saving st = false → hs_queued st = false →
  Forall (λ e, isLoadFinished e = false) es →
  let st' := hookRun autoSave es st in
  hs_mounted st' = true ∧ hs_loaded st' = false ∧ hs_timer st' = false ∧
  hs_saving st' = false ∧ hs_queued st' = false ∧
  hs_writes st' = hs_writes st ∧
  (autoSave = true → Exists (λ e, isSetState e = true) es →
   hs_requested st' = true).
Proof.
  cbv zeta. revert st. induction es as [|e es IH];
    intros st Hm Hl Ht Hs Hq Hload.
  - split_and!; try done. by intros _ ?%Exists_nil.
  - apply Forall_cons in Hload as [He Hload]. rewrite hookRun_cons.
    destruct st as [m l r t s q lat stat w]. simpl in *. subst.
    assert (Hstep : ∃ r' lat' stat',
              hookStep autoSave (mkHook true false r false false false lat
                                        stat w) e
              = mkHook true false r' false false false lat' stat' w ∧
              (r = true → r' = true) ∧
              (autoSave = true → isSetState e = true → r' = true)).
    { destruct e as [u| | | |data]; [| | | |done]; simpl;
        unfold setState, timerFire, writeSettled, flush, scheduleSave,
          performSave; simpl; destruct autoSave; simpl;
        (eexists _, _, _; split; [reflexivity|]); by split. }
    destruct Hstep as (r' & lat' & stat' & -> & Hr & Hset).
    destruct (IH (mkHook true false r' false false false lat' stat' w))
      as (? & ? & ? & ? & ? & ? & Hreq); try done.
    split_and!; try done.
    intros Hauto [Hhd|Htl]%Exists_cons; [|by apply Hreq].
    specialize (Hset Hauto Hhd). subst r'. clear -Hload.
    (* once remembered, the request stays *)
    revert lat' stat'. induction es as [|e es IH]; intros lat' stat'; [done|].
    apply Forall_cons in Hload as [He Hload]. rewrite hookRun_cons.
    destruct e as [u| | | |data]; [| | | |done]; simpl;
      unfold setState, timerFire, writeSettled, flush, scheduleSave,
        performSave; simpl; destruct autoSave; simpl; by apply IH.
Qed.

(** X18.  Nothing is written before the initial read has returned.  When it
    returns data, that data replaces whatever the setter was given in the
    meantime, and the save those calls asked for writes the data that was
    read back; when it returns nothing ([null]), the save writes the value
    the setter calls built. *)
Theorem hook_load_gate {A} (initialValue : A) (es : list (HookEvent A))
    (data : option A) :
  Forall (λ e, isLoadFinished e = false) es →
  Exists (λ e, isSetState e = true) es →
  let loading := hookRun true es (hookInit initialValue) in
  let ready := hookStep true loading (LoadFinished data) in
  hs_writes loading = [] ∧ hs_writes ready = [] ∧
  hs_latest ready = default (hs_latest loading) data ∧
  hs_timer ready = true ∧
  hs_writes (hookStep true ready TimerFire)
  = [default (hs_latest loading) data].
Proof.
  cbv zeta. intros Hload Hset.
  destruct (hookRun_loading true es (hookInit initialValue))
    as (Hm & Hl & Ht & Hs & Hq & Hw & Hreq); try done.
  specialize (Hreq eq_refl Hset).
  destruct (hookRun true es (hookInit initialValue))
    as [m l r t s q lat stat w]. simpl in *. subst. done.
Qed.

Lemma hook_load_gate_witness :
  let es := [SetState (UValue 7%Z); SetState (UFunction Z.succ)] in
  hs_latest (hookRun true es (hookInit 0%Z)) = 8%Z ∧
  hs_writes (hookRun true (es ++ [LoadFinished (Some 3%Z); TimerFire])
               (hookInit 0%Z)) = [3%Z] ∧
  hs_writes (hookStep true
               (hookStep true (hookRun true es (hookInit 0%Z))
                  (LoadFinished None)) TimerFire) = [8%Z].
Proof.
  split_and!; [reflexivity|reflexivity|].
  apply (hook_load_gate 0%Z [SetState (UValue 7%Z); SetState (UFunction Z.succ)]
           None).
  - refine (bool_decide_unpack _ _). vm_compute. exact I.
  - refine (bool_decide_unpack _ _). vm_compute. exact I.
Defined.

(** X19.  A hook that cannot save does not: once unmounted, no event starts
    a write or changes the status; and with [autoSave] off no timer is ever
    armed and nothing is written unless [flush] is called. *)
Theorem hook_never_writes {A} (autoSave : bool) (es : list (HookEvent A))
    (st : HookState A) :
  let st' := hookRun autoSave es st in
  (hs_mounted st = false →
     hs_writes st' = hs_writes st ∧ hs_status st' = hs_status st) ∧
  (autoSave = false → hs_timer st = false →
     (hs_queued st = true → hs_saving st = true) → hs_saving st = false →
     Forall (λ e, isFlush e = false) es →
     hs_writes st' = hs_writes st ∧ hs_timer st' = false).
Proof.
  cbv zeta. split.
  - revert st. induction es as [|e es IH]; intros st Hm; [done|].
    rewrite hookRun_cons.
    destruct st as [m l r t s q lat stat w]. simpl in *. subst.
    assert (Hstep : ∃ r' t' s' q' lat',
              hookStep autoSave (mkHook false l r t s q lat stat w) e
              = mkHook false l r' t' s' q' lat' stat w).
    { destruct e as [u| | | |data]; simpl;
        unfold setState, timerFire, writeSettled, flush, loadFinished,
          scheduleSave, performSave; simpl;
        destruct autoSave, r, t, q; simpl;
        by eexists _, _, _, _, _. }
    destruct Hstep as (r' & t' & s' & q' & lat' & ->). by apply IH.
  - intros ->. revert st. induction es as [|e es IH];
      intros st Ht Hq Hs Hfl; [done|].
    apply Forall_cons in Hfl as [He Hfl]. rewrite hookRun_cons.
    destruct st as [m l r t s q lat stat w]. simpl in *. subst.
    assert (q = false) as -> by (destruct q; [by specialize (Hq eq_refl)|done]).
    assert (Hstep : ∃ m' l' r' lat' stat',
              hookStep false (mkHook m l r false false false lat stat w) e
              = mkHook m' l' r' false false false lat' stat' w).
    { destruct e as [u| | | |data]; [| | |done|]; simpl;
        unfold setState, timerFire, writeSettled, flush, loadFinished,
          scheduleSave, performSave; simpl;
        destruct m, r; simpl;
        by eexists _, _, _, _, _. }
    destruct Hstep as (m' & l' & r' & lat' & stat' & ->). by apply IH.
Qed.

Lemma hook_never_writes_witness :
  hs_writes (hookRun true [SetState (UValue 1%Z); Flush; WriteSettled]
               (mkHook false true false true false false 0%Z Idle [])) = [] ∧
  hs_writes (hookRun false
               [SetState (UValue 1%Z); TimerFire; WriteSettled;
                SetState (UValue 2%Z)]
               (mkHook true true false false false false 0%Z Idle [])) = [].
Proof.
  split.
  - destruct (hook_never_writes true
                [SetState (UValue 1%Z); Flush; WriteSettled]
                (mkHook false true false true false false 0%Z Idle []))
      as [Hunmounted _].
    destruct (Hunmounted eq_refl) as [Hw _]. exact Hw.
  - destruct (hook_never_writes false
                [SetState (UValue 1%Z); TimerFire; WriteSettled;
                 SetState (UValue 2%Z)]
                (mkHook true true false false false false 0%Z Idle []))
      as [_ Hoff].
    destruct Hoff as [Hw _]; [reflexivity|reflexivity|done|reflexivity| |exact Hw].
    refine (bool_decide_unpack _ _). vm_compute. exact I.
Defined.

(** ** How long the retrying writer waits *)

(** X20.  A run of [saveWithRetry] waits once between two consecutive
    calls, hence at most four times.  The cap of 8000 never applies to these
    waits: the wait number [i], counted from 0, is [400 * 2^i], at most
    3200, times [0.5 + r] for the draw [r], the sum and the product rounded
    as binary64 numbers are.  For the draw 0 it is [200 * 2^i]; for the
    largest draw below 1 the sum rounds to 1.5 and the wait is [600 * 2^i],
    so that bound is reached. *)
Theorem saveWithRetry_waits (write : nat → WriteResult) (random : nat → float) :
  ∃ run, saveWithRetry write random = Some run ∧
    S (length (rr_waits run)) = rr_calls run ∧
    length (rr_waits run) ≤ 4 ∧
    ∀ i w, rr_waits run !! i = Some w →
      backoffBase (S i) = (400 * 2 ^ Z.of_nat i)%Z ∧
      (400 * 2 ^ Z.of_nat i ≤ 3200)%Z ∧
      w = PrimFloat.mul
            (PrimFloat.of_uint63 (Uint63.of_Z (400 * 2 ^ Z.of_nat i)))
            (PrimFloat.add 0.5%float (random i)) ∧
      (random i = 0%float →
         w = PrimFloat.of_uint63 (Uint63.of_Z (200 * 2 ^ Z.of_nat i))) ∧
      (random i = 0x1.fffffffffffffp-1%float →
         w = PrimFloat.of_uint63 (Uint63.of_Z (600 * 2 ^ Z.of_nat i))).
Proof.
  destruct (saveWithRetry_run write random)
    as (run & Hrun & [Hlo Hhi] & _ & _ & _ & Hwaits).
  exists run. split; [done|]. rewrite Hwaits, length_fmap, length_seq.
  split_and!; [lia|lia|].
  intros i w Hi. apply list_lookup_fmap_Some in Hi as (a & -> & Ha).
  apply lookup_seq in Ha as [-> Hi].
  replace (1 + i - 1) with i by lia.
  assert (i = 0 ∨ i = 1 ∨ i = 2 ∨ i = 3) as [->|[->|[->| ->]]] by lia;
    (split_and!; [reflexivity|by vm_compute|reflexivity|
                  intros ->; reflexivity|intros ->; reflexivity]).
Qed.

Example backoff_largest_draw :
  PrimFloat.add 0.5%float 0x1.fffffffffffffp-1%float = 1.5%float ∧
  backoffWait 1 0x1.fffffffffffffp-1%float = 600%float ∧
  PrimFloat.ltb (backoffWait 1 0x1.fffffffffffffp-1%float) 600%float = false.
Proof. by vm_compute. Qed.

(** ** The sidebar *)

Lemma insertBy_perm {A} (cmp : A → A → comparison) x l :
  insertBy cmp x l ≡ₚ x :: l.
Proof.
  induction l as [|y l IH]; simpl; [done|].
  destruct (cmp x y); try done. rewrite IH. apply Permutation_swap.
Qed.

Lemma sortBy_perm {A} (cmp : A → A → comparison) l : sortBy cmp l ≡ₚ l.
Proof.
  induction l as [|x l IH]; simpl; [done|].
  rewrite insertBy_perm. by rewrite IH.
Qed.

Lemma insertBy_sorted {A} (cmp : A → A → comparison) x l :
  (∀ x y, cmp x y = Gt → cmp y x ≠ Gt) →
  (∀ x y z, cmp x y ≠ Gt → cmp y z ≠ Gt → cmp x z ≠ Gt) →
  StronglySorted (λ x y, cmp x y ≠ Gt) l →
  StronglySorted (λ x y, cmp x y ≠ Gt) (insertBy cmp x l).
Proof.
  intros Htot Htrans. induction l as [|y l IHl]; intros Hs; simpl.
  - repeat constructor.
  - apply StronglySorted_inv in Hs as [Hs Hall].
    destruct (cmp x y) eqn:Hxy.
    + constructor; [by constructor|]. constructor; [by rewrite Hxy|].
      eapply Forall_impl; [exact Hall|]. intros z Hz. simpl in Hz.
      eapply Htrans; [|exact Hz]. by rewrite Hxy.
    + constructor; [by constructor|]. constructor; [by rewrite Hxy|].
      eapply Forall_impl; [exact Hall|]. intros z Hz. simpl in Hz.
      eapply Htrans; [|exact Hz]. by rewrite Hxy.
    + constructor; [by apply IHl|].
      apply Forall_forall. intros z Hz.
      rewrite insertBy_perm in Hz. apply elem_of_cons in Hz as [->|Hz].
      * by apply Htot.
      * rewrite Forall_forall in Hall. by apply Hall.
Qed.

(** With a comparator that is a total preorder the result is in order. *)
Lemma sortBy_sorted {A} (cmp : A → A → comparison) l :
  (∀ x y, cmp x y = Gt → cmp y x ≠ Gt) →
  (∀ x y z, cmp x y ≠ Gt → cmp y z ≠ Gt → cmp x z ≠ Gt) →
  StronglySorted (λ x y, cmp x y ≠ Gt) (sortBy cmp l).
Proof.
  intros Htot Htrans. induction l as [|x l IH]; [constructor|].
  by apply insertBy_sorted.
Qed.

Section sidebar.
Context `{JsHost} `{JsLocale}.
Hypothesis localeCompare_total :
  ∀ s t, localeCompare s t = Gt → localeCompare t s ≠ Gt.
Hypothesis localeCompare_trans :
  ∀ s t u, localeCompare s t ≠ Gt → localeCompare t u ≠ Gt →
           localeCompare s u ≠ Gt.

(** On tasks that are due, the comparator orders by date, then by title. *)
Lemma sidebarCompare_due today a b :
  (st_due a ≤ today)%Z → (st_due b ≤ today)%Z →
  sidebarCompare today a b ≠ Gt ↔
  (st_due a < st_due b)%Z ∨
  (st_due a = st_due b ∧ localeCompare (sidebarTitle a) (sidebarTitle b) ≠ Gt).
Proof.
  intros Ha Hb. unfold sidebarCompare.
  destruct (Z.ltb_spec (st_due a) today), (Z.ltb_spec (st_due b) today); simpl.
  - destruct (Z.compare_spec (st_due a) (st_due b)).
    + split; [by right|]. by intros [?|[_ ?]]; [lia|].
    + split; [by left|done].
    + split; [done|]. intros [?|[? _]]; lia.
  - split; [intros _; left; lia|done].
  - split; [done|]. intros [?|[? _]]; lia.
  - split; [intros ?; right; split; [lia|done]|]. by intros [?|[_ ?]]; [lia|].
Qed.

Lemma sidebarCompare_total today a b :
  sidebarCompare today a b = Gt → sidebarCompare today b a ≠ Gt.
Proof.
  unfold sidebarCompare.
  destruct (Z.ltb_spec (st_due a) today), (Z.ltb_spec (st_due b) today);
    simpl; try done.
  - rewrite (Z.compare_antisym (st_due a) (st_due b)).
    destruct (Z.compare_spec (st_due a) (st_due b)); simpl; try done.
    apply localeCompare_total.
  - apply localeCompare_total.
Qed.

Lemma sidebarCompare_trans today a b c :
  sidebarCompare today a b ≠ Gt → sidebarCompare today b c ≠ Gt →
  sidebarCompare today a c ≠ Gt.
Proof.
  unfold sidebarCompare.
  destruct (Z.ltb_spec (st_due a) today), (Z.ltb_spec (st_due b) today),
    (Z.ltb_spec (st_due c) today); simpl; try done.
  - destruct (Z.compare_spec (st_due a) (st_due b)),
      (Z.compare_spec (st_due b) (st_due c)),
      (Z.compare_spec (st_due a) (st_due c)); try done; try lia.
    apply localeCompare_trans.
  - apply localeCompare_trans.
Qed.

(** The parsed entries come from distinct keys. *)
Lemma sidebarParsed_ids keys today (G : Graph) :
  NoDup keys →
  NoDup (st_id <$> sidebarParsed keys today G) ∧
  (∀ t, t ∈ sidebarParsed keys today G → st_id t ∈ keys).
Proof.
  unfold sidebarParsed, entriesIn.
  set (f := λ '(id, n),
              if sidebarListed n
              then due ← sidebarDue (default "" (dueDate n));
                   (if (due <=? today)%Z then Some (mkSidebarTask id n due)
                    else None)
              else None).
  assert (Hfk : ∀ k n t, f (k, n) = Some t → st_id t = k).
  { intros k n t Hf. unfold f in Hf. destruct (sidebarListed n); [|done].
    destruct (sidebarDue _) as [due|]; [|done]. simpl in Hf.
    destruct (due <=? today)%Z; by simplify_eq. }
  clearbody f.
  induction 1 as [|k keys Hk Hnd [IH1 IH2]]; simpl.
  - split; [constructor|]. by intros t ?%elem_of_nil.
  - assert (Htail : ∀ t, t ∈ omap f (omap (λ k0, (λ n, (k0, n)) <$> G !! k0) keys)
                         → st_id t ∈ k :: keys).
    { intros t Ht. apply elem_of_cons. right. by apply IH2. }
    destruct (G !! k) as [n|] eqn:Hn; simpl; [|by split].
    destruct (f (k, n)) as [t|] eqn:Hf; [|by split].
    apply Hfk in Hf as Hid.
    split.
    + simpl. constructor; [|done]. rewrite Hid.
      intros (t' & Ht' & Hin)%list_elem_of_fmap. apply Hk. rewrite Ht'.
      by apply IH2.
    + intros t' [->|Hin]%elem_of_cons; [|by apply Htail].
      rewrite Hid. by left.
Qed.

Lemma elem_of_sidebarParsed keys today (G : Graph) t :
  t ∈ sidebarParsed keys today G ↔
  st_id t ∈ keys ∧ G !! st_id t = Some (st_node t) ∧
  sidebarListed (st_node t) = true ∧
  sidebarDue (default "" (dueDate (st_node t))) = Some (st_due t) ∧
  (st_due t ≤ today)%Z.
Proof.
  unfold sidebarParsed. rewrite list_elem_of_omap. split.
  - intros ([k n] & [Hk Hn]%elem_of_entriesIn & Hf).
    destruct (sidebarListed n) eqn:Hl; [|done].
    destruct (sidebarDue _) as [due|] eqn:Hd; [|done]. simpl in Hf.
    destruct (Z.leb_spec due today); [|done]. by simplify_eq.
  - intros (Hk & Hn & Hl & Hd & Hle). exists (st_id t, st_node t).
    split; [by apply elem_of_entriesIn|].
    rewrite Hl, Hd. simpl. destruct (Z.leb_spec (st_due t) today); [|lia].
    by destruct t.
Qed.

Lemma sidebarListed_spec (n : Node) :
  sidebarListed n = true ↔
  type n = Some "task" ∧ completed n ≠ Some true ∧
  ∃ s, dueDate n = Some s ∧ s ≠ "".
Proof.
  unfold sidebarListed.
  rewrite !andb_true_iff, negb_true_iff, bool_decide_eq_true,
    bool_decide_eq_false.
  destruct (dueDate n) as [s|].
  - rewrite negb_true_iff, String.eqb_neq. split.
    + intros [[? ?] ?]. split_and!; [done|done|]. by exists s.
    + intros (? & ? & s' & [= <-] & ?). done.
  - split; [by intros [[_ ?] _]|by intros (_ & _ & ? & ? & _)].
Qed.

Lemma dateShapeHere_spec (s : string) :
  dateShapeHere s = true ↔
  ∃ a b c d f g i j post,
    s = String a (String b (String c (String d (String "-"
          (String f (String g (String "-" (String i (String j post)))))))))
    ∧ Forall decimalDigit [a; b; c; d; f; g; i; j].
Proof.
  destruct s as [|a [|b [|c [|d [|e [|f [|g [|h [|i [|j post]]]]]]]]]];
    cbn [dateShapeHere];
    try (split; [done|by intros (? & ? & ? & ? & ? & ? & ? & ? & ? & ? & _)]).
  rewrite !andb_true_iff, !Ascii.eqb_eq, !isDigit_decimalDigit. split.
  - intros [[[[[[[[[? ?] ?] ?] ->] ?] ?] ->] ?] ?].
    exists a, b, c, d, f, g, i, j, post. split; [done|].
    repeat (constructor; [assumption|]). constructor.
  - intros (a' & b' & c' & d' & f' & g' & i' & j' & post' & Heq & HF).
    simplify_eq.
    repeat match goal with
           | H : Forall _ (_ :: _) |- _ => apply Forall_cons in H as [? H]
           end.
    done.
Qed.

Lemma dateShape_holdsDate (s : string) : dateShape s = true ↔ holdsDate s.
Proof.
  unfold holdsDate. split.
  - induction s as [|x s IH].
    + by vm_compute.
    + cbn [dateShape]. intros [Hhere|Hrest]%orb_true_iff.
      * apply dateShapeHere_spec in Hhere
          as (a & b & c & d & f & g & i & j & post & -> & HF).
        by exists "", a, b, c, d, f, g, i, j, post.
      * destruct (IH Hrest)
          as (pre & a & b & c & d & f & g & i & j & post & -> & HF).
        by exists (String x pre), a, b, c, d, f, g, i, j, post.
  - intros (pre & a & b & c & d & f & g & i & j & post & -> & HF).
    induction pre as [|x pre IH].
    + change ("" +:+ ?t) with t. cbn [dateShape].
      apply orb_true_iff. left. apply dateShapeHere_spec.
      by exists a, b, c, d, f, g, i, j, post.
    + rewrite string_app_cons. cbn [dateShape]. rewrite IH.
      apply orb_true_r.
Qed.

Lemma sidebarDue_spec (s : string) (due : Z) :
  sidebarDue s = Some due ↔
  holdsDate s ∧
  ∃ p0 p1 p2 rest y m day,
    splitOn "-" s = p0 :: p1 :: p2 :: rest ∧
    toNumber p0 = Some y ∧ toNumber p1 = Some m ∧ toNumber p2 = Some day ∧
    due = makeDay y (m - 1) day ∧ (Z.abs due ≤ 100000000)%Z.
Proof.
  rewrite <- dateShape_holdsDate. unfold sidebarDue.
  destruct (dateShape s); [|split; [done|by intros [? _]]].
  split.
  - intros Hd. split; [done|].
    destruct (splitOn "-" s) as [|p0 [|p1 [|p2 rest]]]; try done.
    destruct (toNumber p0) as [y|] eqn:Hy; [|done].
    destruct (toNumber p1) as [m|] eqn:Hm; [|done].
    destruct (toNumber p2) as [day|] eqn:Hday; [|done].
    cbv zeta in Hd.
    destruct (Z.leb_spec (Z.abs (makeDay y (m - 1) day)) 100000000); [|done].
    injection Hd as <-. by exists p0, p1, p2, rest, y, m, day.
  - intros (_ & p0 & p1 & p2 & rest & y & m & day
            & -> & -> & -> & -> & -> & Hrange).
    cbv zeta.
    by destruct (Z.leb_spec (Z.abs (makeDay y (m - 1) day)) 100000000); [|lia].
Qed.

(** X21.  The sidebar lists exactly the entries of enumerated keys that
    have [type = "task"], are not completed ([completed !== true]) and
    have a due date that is not empty, can be read and is today or
    earlier.  A due date can be read when it holds four digits, a dash, two
    digits, a dash and two digits somewhere, and the first three parts of
    the text between its dashes are numbers [y], [m], [day]; the date is
    then the day [day] of month [m - 1] (from 0) of year [y], if [Date]
    holds it.  The entries are listed each once, by ascending due date (so
    the overdue ones come first) and, on the same day, by title. *)
Theorem SidebarTasks_spec (keys : list string) (today : Z) (G : Graph) :
  NoDup keys →
  let shown := SidebarTasks keys today G in
  (∀ t, t ∈ shown ↔
     st_id t ∈ keys ∧ G !! st_id t = Some (st_node t) ∧
     type (st_node t) = Some "task" ∧ completed (st_node t) ≠ Some true ∧
     (∃ s, dueDate (st_node t) = Some s ∧ s ≠ "" ∧ holdsDate s ∧
        ∃ p0 p1 p2 rest y m day,
          splitOn "-" s = p0 :: p1 :: p2 :: rest ∧
          toNumber p0 = Some y ∧ toNumber p1 = Some m ∧
          toNumber p2 = Some day ∧
          st_due t = makeDay y (m - 1) day ∧
          (Z.abs (st_due t) ≤ 100000000)%Z) ∧
     (st_due t ≤ today)%Z) ∧
  NoDup (st_id <$> shown) ∧
  StronglySorted
    (λ a b, (st_due a < st_due b)%Z ∨
            (st_due a = st_due b ∧
             localeCompare (sidebarTitle a) (sidebarTitle b) ≠ Gt)) shown.
Proof.
  intros Hnd. cbv zeta. unfold SidebarTasks.
  pose proof (sortBy_perm (sidebarCompare today) (sidebarParsed keys today G))
    as Hperm.
  assert (Hin : ∀ t, t ∈ sortBy (sidebarCompare today)
                           (sidebarParsed keys today G) →
                     (st_due t ≤ today)%Z).
  { intros t Ht. rewrite Hperm in Ht.
    by apply elem_of_sidebarParsed in Ht as (_ & _ & _ & _ & ?). }
  split_and!.
  - intros t. rewrite Hperm, elem_of_sidebarParsed, sidebarListed_spec.
    split.
    + intros (Hk & Hn & (Hty & Hopen & s & Hs & Hne) & Hd & Hle).
      rewrite Hs in Hd. cbn [default from_option id] in Hd.
      apply sidebarDue_spec in Hd as [Hshape Hparts].
      split_and!; try done. by exists s.
    + intros (Hk & Hn & Hty & Hopen & (s & Hs & Hne & Hshape & Hparts) & Hle).
      split_and!; try done; [by exists s|].
      rewrite Hs. cbn [default from_option id]. by apply sidebarDue_spec.
  - rewrite Hperm. by apply sidebarParsed_ids.
  - apply StronglySorted_of_lookup. intros i j a b Hij Hi Hj.
    apply (sidebarCompare_due today).
    + apply Hin. by eapply list_elem_of_lookup_2.
    + apply Hin. by eapply list_elem_of_lookup_2.
    + eapply (StronglySorted_lookup (λ x y, sidebarCompare today x y ≠ Gt));
        [|exact Hij|exact Hi|exact Hj].
      apply sortBy_sorted.
      * apply sidebarCompare_total.
      * apply sidebarCompare_trans.
Qed.

End sidebar.

(** Comparison by code units is a total preorder. *)
Lemma string_compare_total (s t : string) :
  String.compare s t = Gt → String.compare t s ≠ Gt.
Proof. rewrite (String.compare_antisym t s). by intros ->. Qed.

Lemma ascii_compare_trans (a b c : ascii) :
  Ascii.compare a b ≠ Gt → Ascii.compare b c ≠ Gt →
  Ascii.compare a c ≠ Gt ∧
  (Ascii.compare a c = Eq → Ascii.compare a b = Eq ∧ Ascii.compare b c = Eq).
Proof.
  unfold Ascii.compare.
  destruct (N.compare_spec (N_of_ascii a) (N_of_ascii b)),
    (N.compare_spec (N_of_ascii b) (N_of_ascii c)),
    (N.compare_spec (N_of_ascii a) (N_of_ascii c)); try done; lia.
Qed.

Lemma string_compare_trans (s t u : string) :
  String.compare s t ≠ Gt → String.compare t u ≠ Gt →
  String.compare s u ≠ Gt.
Proof.
  revert t u. induction s as [|a s IH]; intros [|b t] [|c u]; simpl; try done.
  intros Hst Htu.
  destruct (ascii_compare_trans a b c) as [Hac Heq].
  - by destruct (Ascii.compare a b).
  - by destruct (Ascii.compare b c).
  - destruct (Ascii.compare a c) eqn:Hc; [|done|done].
    destruct (Heq eq_refl) as [Hab Hbc]. rewrite Hab in Hst. rewrite Hbc in Htu.
    by eapply IH.
Qed.

(** Of the eight entries of [dueTasks], seen on 2024-01-10, four are
    listed: not the finished task, nor the one due the day after, nor the
    text node, nor the task whose due date is empty. *)
Lemma SidebarTasks_spec_witness :
  let keys := ["a"; "b"; "c"; "d"; "e"; "f"; "g"; "h"] in
  st_id <$> SidebarTasks keys 19732%Z dueTasks = ["e"; "c"; "b"; "a"] ∧
  (dueTasks !! "g" ≫= type) = Some "text" ∧
  (dueTasks !! "h" ≫= dueDate) = Some "" ∧
  (∀ t, t ∈ SidebarTasks keys 19732%Z dueTasks →
     type (st_node t) = Some "task" ∧ completed (st_node t) ≠ Some true) ∧
  NoDup (st_id <$> SidebarTasks keys 19732%Z dueTasks).
Proof.
  intros keys. split; [reflexivity|]. split; [reflexivity|].
  split; [reflexivity|].
  destruct (@SidebarTasks_spec utcHost codeUnitLocale
              string_compare_total string_compare_trans
              keys 19732%Z dueTasks)
    as (Hin & Hnd & _).
  - refine (bool_decide_unpack _ _). vm_compute. exact I.
  - split; [|exact Hnd]. intros t Ht.
    apply Hin in Ht as (_ & _ & Hty & Hopen & _). by split.
Defined.

(** ** Keyboard navigation *)

Lemma find_markSelected (t : string) (nodes : list RfNode) (n : RfNode) :
  find rf_selected (markSelected t nodes) = Some n → n = mkRfNode t true.
Proof.
  unfold markSelected. induction nodes as [|m nodes IH]; [done|]. csimpl.
  destruct (decide (rf_id m = t)) as [Hm|Hm].
  - rewrite bool_decide_eq_true_2 by done. intros [= <-]. by rewrite Hm.
  - rewrite bool_decide_eq_false_2 by done. apply IH.
Qed.

Lemma markSelected_again (s t : string) (nodes : list RfNode) :
  markSelected s (markSelected t nodes) = markSelected s nodes.
Proof. unfold markSelected. rewrite <- list_fmap_compose. done. Qed.

Lemma find_markSelected_some (t : string) (nodes : list RfNode) :
  t ∈ rf_id <$> nodes →
  find rf_selected (markSelected t nodes) = Some (mkRfNode t true).
Proof.
  unfold markSelected. induction nodes as [|m nodes IH]; csimpl.
  - by intros ?%elem_of_nil.
  - intros Hin. destruct (decide (rf_id m = t)) as [Hm|Hm].
    + rewrite bool_decide_eq_true_2 by done. by rewrite Hm.
    + rewrite bool_decide_eq_false_2 by done. apply IH.
      apply elem_of_cons in Hin as [?|?]; [congruence|done].
Qed.

Lemma find_selected_elem (nodes : list RfNode) (sel : RfNode) :
  find rf_selected nodes = Some sel → rf_id sel ∈ rf_id <$> nodes.
Proof.
  intros [Hin _]%find_some. apply list_elem_of_fmap. exists sel.
  split; [done|]. by apply list_elem_of_In.
Qed.

Lemma findParent_spec keys (G : Graph) c p :
  findParent (entriesIn keys G) c = Some p →
  p ∈ keys ∧ c ∈ childrenOf (G !! p).
Proof.
  unfold findParent. destruct (find _ _) as [[p' n]|] eqn:Hf; [|done].
  intros [= <-]. apply find_some in Hf as [Hin Hc].
  apply list_elem_of_In, elem_of_entriesIn in Hin as [Hk Hn].
  split; [done|]. rewrite Hn. by apply bool_decide_eq_true in Hc.
Qed.

Lemma findParent_exists keys (G : Graph) c p :
  p ∈ keys → c ∈ childrenOf (G !! p) →
  is_Some (findParent (entriesIn keys G) c).
Proof.
  intros Hk Hc. unfold findParent.
  destruct (find _ _) as [[p' n]|] eqn:Hf; [by eexists|].
  destruct (G !! p) as [n|] eqn:Hn; [|by apply elem_of_nil in Hc].
  pose proof (find_none _ _ Hf (p, n)) as Hnone. simpl in Hnone.
  rewrite bool_decide_eq_true_2 in Hnone by done.
  discriminate Hnone. by apply list_elem_of_In, elem_of_entriesIn.
Qed.

Lemma indexOf_Some x l i : indexOf x l = Some i → l !! i = Some x.
Proof.
  unfold indexOf. destruct (list_find _ l) as [[j y]|] eqn:Hf; [|done].
  intros [= <-]. by apply list_find_Some in Hf as (? & -> & _).
Qed.

Lemma indexOf_lookup x l i : NoDup l → l !! i = Some x → indexOf x l = Some i.
Proof.
  intros Hnd Hi. unfold indexOf.
  destruct (list_find (λ y, y = x) l) as [[j y]|] eqn:Hf.
  - apply list_find_Some in Hf as (Hj & -> & _). simpl. f_equal.
    by eapply NoDup_lookup.
  - apply list_find_None in Hf. rewrite Forall_forall in Hf.
    destruct (Hf x); [by eapply list_elem_of_lookup_2|done].
Qed.

Lemma truthy_true s : truthy s = true ↔ s ≠ "".
Proof.
  unfold truthy. rewrite negb_true_iff. split.
  - intros H%String.eqb_neq. done.
  - intros H. by apply String.eqb_neq.
Qed.

(** X22.  The arrow keys undo each other: in a graph whose children arrays
    hold no identifier twice and where no node has two parents, when
    [ArrowUp], [ArrowDown] or [ArrowRight] moves the selection to a node
    that is rendered, the opposite key ([ArrowDown], [ArrowUp],
    [ArrowLeft]) brings it back to the node it came from. *)
Theorem arrows_round_trip (keys : list string) (nodes : list RfNode)
    (G : Graph) (sel : RfNode) (key : Key) :
  singleParent G → unreferenced "root" G →
  map_Forall (λ k _, k ∈ keys) G →
  find rf_selected nodes = Some sel → rf_id sel ≠ "" →
  key ∈ [KeyArrowUp; KeyArrowDown; KeyArrowRight] →
  let there := onKeyDown false key keys nodes G in
  let back := match key with
              | KeyArrowUp => KeyArrowDown
              | KeyArrowDown => KeyArrowUp
              | _ => KeyArrowLeft
              end in
  ko_prevented there = true →
  is_Some (find rf_selected (ko_nodes there)) →
  let home := onKeyDown false back keys (ko_nodes there) G in
  ko_nodes home = markSelected (rf_id sel) nodes ∧
  find rf_selected (ko_nodes home) = Some (mkRfNode (rf_id sel) true).
Proof.
  intros [Hnd Huniq]%singleParent_spec Hroot Hkeys Hsel Hid Hkey.
  pose proof (proj1 (unreferenced_spec _ _) Hroot) as Hnoroot.
  assert (Hhome : ∀ t,
            ko_nodes (selectId (markSelected t nodes) (Some (rf_id sel)))
            = markSelected (rf_id sel) nodes ∧
            find rf_selected
              (ko_nodes (selectId (markSelected t nodes) (Some (rf_id sel))))
            = Some (mkRfNode (rf_id sel) true)).
  { intros t. unfold selectId.
    rewrite (proj2 (truthy_true _) Hid). simpl. rewrite markSelected_again.
    split; [done|]. apply find_markSelected_some.
    by apply find_selected_elem. }
  assert (Hparent : ∀ p c, p ∈ keys → c ∈ childrenOf (G !! p) →
            findParent (entriesIn keys G) c = Some p).
  { intros p c Hp Hc.
    destruct (findParent_exists keys G c p Hp Hc) as [p' Hp'].
    rewrite Hp'. f_equal.
    apply findParent_spec in Hp' as [_ Hc']. by eapply Huniq. }
  intros there back Hmoved [n Hn] home.
  assert (Hthere : ∃ t, ko_nodes there = markSelected t nodes ∧
            match key with
            | KeyArrowUp =>
                ∃ p i, p ∈ keys ∧ childrenOf (G !! p) !! (i - 1) = Some t ∧
                       childrenOf (G !! p) !! i = Some (rf_id sel) ∧ 0 < i ∧
                       truthy p = true
            | KeyArrowDown =>
                ∃ p i, p ∈ keys ∧ childrenOf (G !! p) !! (i + 1) = Some t ∧
                       childrenOf (G !! p) !! i = Some (rf_id sel) ∧
                       truthy p = true
            | _ => t ∈ childrenOf (G !! rf_id sel)
            end).
  { revert Hmoved. unfold there, onKeyDown. rewrite Hsel.
    repeat (apply elem_of_cons in Hkey as [->|Hkey]);
      [| | |by apply elem_of_nil in Hkey]; cbv beta iota zeta.
    - destruct (findParent (entriesIn keys G) (rf_id sel)) as [p|] eqn:Hp;
        cbn [ko_prevented]; [|done].
      destruct (truthy p) eqn:Htp; cbn [ko_prevented]; [|done].
      destruct (indexOf (rf_id sel) (childrenOf (G !! p))) as [i|] eqn:Hi;
        cbn [ko_prevented]; [|done].
      destruct (0 <? i) eqn:H0; cbn [ko_prevented]; [|done].
      apply Nat.ltb_lt in H0.
      destruct (childrenOf (G !! p) !! (i - 1)) as [t|] eqn:Ht;
        unfold selectId; cbn [ko_prevented]; [|done].
      destruct (truthy t) eqn:Htt; cbn [ko_prevented ko_nodes]; [|done].
      intros _. exists t. split; [done|]. exists p, i.
      apply findParent_spec in Hp as [Hpk Hsp]. apply indexOf_Some in Hi.
      done.
    - destruct (findParent (entriesIn keys G) (rf_id sel)) as [p|] eqn:Hp;
        cbn [ko_prevented]; [|done].
      destruct (truthy p) eqn:Htp; cbn [ko_prevented]; [|done].
      destruct (indexOf (rf_id sel) (childrenOf (G !! p))) as [i|] eqn:Hi;
        cbn [ko_prevented]; [|done].
      destruct (i <? length (childrenOf (G !! p)) - 1) eqn:H0;
        cbn [ko_prevented]; [|done].
      destruct (childrenOf (G !! p) !! (i + 1)) as [t|] eqn:Ht;
        unfold selectId; cbn [ko_prevented]; [|done].
      destruct (truthy t) eqn:Htt; cbn [ko_prevented ko_nodes]; [|done].
      intros _. exists t. split; [done|]. exists p, i.
      apply findParent_spec in Hp as [Hpk Hsp]. apply indexOf_Some in Hi.
      done.
    - destruct (head (childrenOf (G !! rf_id sel))) as [c|] eqn:Hc;
        unfold selectId; cbn [ko_prevented]; [|done].
      destruct (truthy c) eqn:Htc; cbn [ko_prevented ko_nodes]; [|done].
      intros _. exists c. split; [done|].
      rewrite head_lookup in Hc. by eapply list_elem_of_lookup_2. }
  destruct Hthere as (t & Hnodes & Hrel).
  unfold home. rewrite Hnodes in Hn |- *.
  pose proof (find_markSelected _ _ _ Hn) as ->.
  unfold onKeyDown. rewrite Hn. cbv beta iota zeta. cbn [rf_id].
  clear Hmoved there home Hnodes.
  repeat (apply elem_of_cons in Hkey as [->|Hkey]);
    [| | |by apply elem_of_nil in Hkey]; unfold back; cbv beta iota zeta.
  - destruct Hrel as (p & i & Hpk & Ht & Hi & H0 & Htp).
    rewrite (Hparent p t) by (try done; by eapply list_elem_of_lookup_2).
    rewrite Htp, (indexOf_lookup t _ (i - 1)) by done.
    pose proof (lookup_lt_Some _ _ _ Hi) as Hlen.
    replace (i - 1 <? length (childrenOf (G !! p)) - 1) with true
      by (symmetry; apply Nat.ltb_lt; lia).
    replace (i - 1 + 1) with i by lia. rewrite Hi. apply Hhome.
  - destruct Hrel as (p & i & Hpk & Ht & Hi & Htp).
    rewrite (Hparent p t) by (try done; by eapply list_elem_of_lookup_2).
    rewrite Htp, (indexOf_lookup t _ (i + 1)) by done.
    replace (0 <? i + 1) with true by (symmetry; apply Nat.ltb_lt; lia).
    replace (i + 1 - 1) with i by lia. rewrite Hi. apply Hhome.
  - assert (Hselk : rf_id sel ∈ keys).
    { destruct (G !! rf_id sel) as [m|] eqn:Hm;
        [by apply (Hkeys _ _ Hm)|by apply elem_of_nil in Hrel]. }
    rewrite bool_decide_eq_false_2.
    2:{ intros ->. by apply (Hnoroot (rf_id sel)). }
    cbn [negb]. rewrite (Hparent (rf_id sel) t) by done.
    rewrite (proj2 (truthy_true _) Hid). apply Hhome.
Qed.

Lemma arrows_round_trip_witness :
  let keys := ["root"; "12345"; "67890"; "abcde"] in
  let nodes := (λ k, mkRfNode k (bool_decide (k = "67890"))) <$> keys in
  let there := onKeyDown false KeyArrowUp keys nodes initialTree in
  find rf_selected (ko_nodes there) = Some (mkRfNode "12345" true) ∧
  find rf_selected
    (ko_nodes (onKeyDown false KeyArrowDown keys (ko_nodes there) initialTree))
  = Some (mkRfNode "67890" true).
Proof.
  split; [reflexivity|].
  apply (arrows_round_trip ["root"; "12345"; "67890"; "abcde"]
           ((λ k, mkRfNode k (bool_decide (k = "67890")))
              <$> ["root"; "12345"; "67890"; "abcde"])
           initialTree (mkRfNode "67890" true) KeyArrowUp).
  - refine (bool_decide_unpack _ _). vm_compute. exact I.
  - refine (bool_decide_unpack _ _). vm_compute. exact I.
  - refine (bool_decide_unpack _ _). vm_compute. exact I.
  - reflexivity.
  - discriminate.
  - constructor.
  - reflexivity.
  - vm_compute. eauto.
Defined.

(** X23.  What the keyboard can do to the graph.  A key pressed while
    editing, with nothing selected, or that is none of the handled keys,
    does nothing.  Only [Backspace] deletes, and only the selected node;
    only [Tab] (under the selected node, when it has no first child) and
    [Shift+Enter] (under a parent of the selected node, which is not the
    root) create a node.  [Backspace] on the root deletes nothing; on
    another node it removes that node, and the node it asks to select next,
    the previous sibling or else the parent, is kept whenever it is not a
    descendant of the deleted node. *)
Theorem onKeyDown_actions (isEditable : bool) (key : Key)
    (keys : list string) (nodes : list RfNode) (G : Graph) (newId : string) :
  let o := onKeyDown isEditable key keys nodes G in
  let selected := rf_id <$> find rf_selected nodes in
  (isEditable = true ∨ selected = None ∨ key = KeyOther →
     o = mkKeyOutcome nodes NoAction None false) ∧
  (∀ id, ko_action o = DeleteNode id →
     key = KeyBackspace ∧ selected = Some id) ∧
  (∀ p, ko_action o = CreateChild p →
     (key = KeyTab ∧ selected = Some p ∧
      ∀ c, head (childrenOf (G !! p)) = Some c → c = "") ∨
     (key = KeyShiftEnter ∧ selected ≠ Some "root" ∧
      ∃ s, selected = Some s ∧ s ∈ childrenOf (G !! p))) ∧
  (isEditable = false → key = KeyBackspace → ∀ s, selected = Some s →
     ∃ G', applyKeyAction newId (ko_action o) G = Some G' ∧
       (s = "root" → G' = G) ∧
       (s ≠ "root" → G' !! s = None) ∧
       (∀ t, ko_pending o = Some t →
          (∃ p, s ∈ childrenOf (G !! p) ∧
                (t = p ∨ t ∈ childrenOf (G !! p))) ∧
          (¬ descendant G s t → is_Some (G !! t) → is_Some (G' !! t)))).
Proof.
  cbv zeta. unfold onKeyDown.
  destruct isEditable.
  { split_and!; try done. }
  destruct (find rf_selected nodes) as [sel|] eqn:Hsel; cbn [fmap option_fmap option_map].
  2:{ split_and!; try done; by destruct key. }
  set (parentId :=
         match findParent (entriesIn keys G) (rf_id sel) with
         | Some pid => if truthy pid then Some pid else None
         | None => None
         end).
  assert (Hparent : ∀ p, parentId = Some p → rf_id sel ∈ childrenOf (G !! p)).
  { intros p. unfold parentId.
    destruct (findParent _ _) as [p'|] eqn:Hp; [|done].
    destruct (truthy p'); [|done]. intros [= <-].
    by apply findParent_spec in Hp as [_ ?]. }
  split_and!.
  - intros [?|[?|Hk]]; [done|done|by rewrite Hk].
  - intros id. destruct key; cbn [ko_action]; try done.
    + by repeat case_match.
    + unfold selectId. by repeat case_match.
    + unfold selectId. by repeat case_match.
    + unfold selectId. by repeat case_match.
    + unfold selectId. by repeat case_match.
    + by intros [= <-].
    + by repeat case_match.
  - intros p. destruct key; cbn [ko_action]; try done.
    + destruct (head _) as [c|] eqn:Hc.
      * destruct (truthy c) eqn:Htc.
        -- by destruct (existsb _ _).
        -- intros [= <-]. left. split_and!; [done|done|].
           intros c' Hc'. rewrite Hc in Hc'. injection Hc' as <-.
           apply dec_stable. intros Hne.
           apply truthy_true in Hne. congruence.
      * intros [= <-]. left. split_and!; [done|done|].
        intros c' Hc'. by rewrite Hc in Hc'.
    + unfold selectId. by repeat case_match.
    + unfold selectId. by repeat case_match.
    + unfold selectId. by repeat case_match.
    + unfold selectId. by repeat case_match.
    + destruct (bool_decide (rf_id sel = "root")) eqn:Hroot; [done|].
      apply bool_decide_eq_false in Hroot.
      destruct parentId as [pid|] eqn:Hpid; [|done].
      intros [= <-]. right. split_and!; [done|congruence|].
      exists (rf_id sel). split; [done|]. by apply Hparent.
  - intros _ -> s [= <-]. cbn [ko_action ko_pending applyKeyAction].
    unfold deleteNodeById.
    assert (Hpending : ∀ t,
              match parentId with
              | Some pid =>
                  match indexOf (rf_id sel) (childrenOf (G !! pid)) with
                  | Some idx =>
                      if 0 <? idx then childrenOf (G !! pid) !! (idx - 1)
                      else Some pid
                  | None => Some pid
                  end
              | None => None
              end = Some t →
              ∃ p, rf_id sel ∈ childrenOf (G !! p) ∧
                   (t = p ∨ t ∈ childrenOf (G !! p))).
    { intros t. destruct parentId as [pid|] eqn:Hpid; [|done].
      intros Ht. exists pid. split; [by apply Hparent|].
      destruct (indexOf _ _) as [idx|]; [|left; congruence].
      destruct (0 <? idx); [|left; congruence].
      right. by eapply list_elem_of_lookup_2. }
    destruct (decide (rf_id sel = "root")) as [Hroot|Hroot].
    + exists G. split_and!; [done|done|done|].
      intros t Ht. split; [by apply Hpending|done].
    + destruct (recursiveDelete_lookup (rf_id sel) G)
        as (G' & D & Hrun & HD & Hlook).
      exists G'. split_and!; [done|done| |].
      * intros _. rewrite Hlook. rewrite decide_True; [done|].
        apply HD. apply rtc_refl.
      * intros t Ht. split; [by apply Hpending|].
        intros Hdesc [m Hm]. rewrite Hlook, decide_False, Hm; [by eexists|].
        by rewrite HD.
Qed.

(** ** Which messages are retried *)

Lemma startsWithNoCase_app (pat s post : string) :
  startsWithNoCase pat s = true → startsWithNoCase pat (s +:+ post) = true.
Proof.
  revert s. induction pat as [|p pat IH]; intros s; [done|].
  destruct s as [|c s]; [done|]. rewrite string_app_cons. simpl.
  intros [Hc Hrest]%andb_true_iff. rewrite Hc. simpl. by apply IH.
Qed.

Lemma retryableHere_app (s post : string) :
  retryableHere s = true → retryableHere (s +:+ post) = true.
Proof.
  unfold retryableHere. rewrite !orb_true_iff.
  intros [[[[[H|H]|H]|H]|H]|H];
    try (apply (startsWithNoCase_app _ _ post) in H; rewrite H; tauto).
  left; left; left; left; right.
  destruct s as [|a [|b [|c s]]]; try done.
Qed.

(** X24.  The test for a retryable error looks for its patterns anywhere in
    the message: a message is retryable exactly when one of its suffixes
    starts with a pattern, so every message that contains a retryable one is
    retryable too, whatever the digits or words around it mean. *)
Theorem retryable_anywhere (msg : string) :
  (retryable msg = true ↔
     ∃ pre suf, msg = pre +:+ suf ∧ retryableHere suf = true) ∧
  (∀ pre post, retryable msg = true →
     retryable (pre +:+ msg +:+ post) = true).
Proof.
  assert (Hchar : ∀ m, retryable m = true ↔
            ∃ pre suf, m = pre +:+ suf ∧ retryableHere suf = true).
  { intros m. split.
    - induction m as [|c m IH].
      + by vm_compute.
      + cbn [retryable]. intros [H|H]%orb_true_iff.
        * by exists "", (String c m).
        * destruct (IH H) as (pre & suf & -> & Hsuf).
          by exists (String c pre), suf.
    - intros (pre & suf & -> & Hsuf). induction pre as [|c pre IH].
      + by apply retryable_here.
      + rewrite string_app_cons. cbn [retryable]. rewrite IH.
        apply orb_true_r. }
  split; [apply Hchar|].
  intros pre post (p & suf & -> & Hsuf)%Hchar. apply Hchar.
  exists (pre +:+ p), (suf +:+ post). split.
  - by rewrite !string_app_assoc.
  - by apply retryableHere_app.
Qed.

Example retryable_by_accident :
  retryable (httpMessage 404) = false ∧
  retryable (httpMessage 404 +:+ " (request 7500)") = true.
Proof. by vm_compute. Qed.

(** ** The depth given to a new child *)

Section new_child.
Variables (newId parentId : string) (ov : Patch) (G : Graph).
Hypothesis Hparent : is_Some (G !! parentId).
Hypothesis Hfresh : G !! newId = None.
Hypothesis Hunref : unreferenced newId G.
Hypothesis Hov : p_children ov = None.
Hypothesis Hroot : newId ≠ "root".

Let G1 := createChildNode newId parentId ov G.

Lemma new_child_is_Some (x : string) :
  is_Some (G1 !! x) ↔ x = newId ∨ is_Some (G !! x).
Proof.
  unfold G1. rewrite createChildNode_lookup.
  destruct (decide (x = parentId)) as [->|Hp].
  - split; [by right|by eexists].
  - destruct (decide (x = newId)) as [->|Hn].
    + split; [by left|by eexists].
    + split; [by right|]. by intros [?|?].
Qed.

Lemma new_child_edge (a b : string) :
  nodeEdge G1 a b ↔ nodeEdge G a b ∨ (a = parentId ∧ b = newId).
Proof.
  assert (Hpn : parentId ≠ newId).
  { intros Heq. rewrite Heq, Hfresh in Hparent. by destruct Hparent. }
  assert (Hno : ∀ k, newId ∉ childrenOf (G !! k))
    by by apply unreferenced_spec.
  unfold nodeEdge, childRel. rewrite new_child_is_Some.
  unfold G1. rewrite createChildNode_children by done.
  destruct (decide (a = parentId)) as [->|Hp].
  - rewrite elem_of_app, list_elem_of_singleton. split.
    + intros [[Hb|Hb] Hs]; [|by right]. left. split; [done|].
      destruct Hs as [Hs|?]; [|done]. subst b. by destruct (Hno parentId).
    + intros [[Hb Hs]|[_ Hb]].
      * split; [by left|by right].
      * split; [by right|by left].
  - destruct (decide (a = newId)) as [->|Hn].
    + split.
      * by intros [?%elem_of_nil _].
      * intros [[Hb _]|[? _]]; [|done]. rewrite Hfresh in Hb.
        by apply elem_of_nil in Hb.
    + split.
      * intros [Hb Hs]. left. split; [done|].
        destruct Hs as [Hs|?]; [|done]. subst b. by destruct (Hno a).
      * intros [[Hb Hs]|[? _]]; [|done]. split; [done|by right].
Qed.

(** Paths from the root to an old node are the old paths; a path to the new
    node is a path to its parent and one more step. *)
Lemma new_child_paths (n : nat) (x : string) :
  nsteps (nodeEdge G1) n "root" x ↔
  (x ≠ newId ∧ nsteps (nodeEdge G) n "root" x) ∨
  (x = newId ∧ ∃ m, n = S m ∧ nsteps (nodeEdge G) m "root" parentId).
Proof.
  assert (Hpn : parentId ≠ newId).
  { intros Heq. rewrite Heq, Hfresh in Hparent. by destruct Hparent. }
  assert (Hsrc : ∀ a b, nodeEdge G a b → a ≠ newId ∧ b ≠ newId).
  { intros a b [Hc [m Hm]]. split; intros ->.
    - unfold childRel in Hc. rewrite Hfresh in Hc. by apply elem_of_nil in Hc.
    - by rewrite Hfresh in Hm. }
  revert x. induction n as [|n IH]; intros x.
  - split.
    + intros Hp. inversion Hp; subst. left. split; [done|constructor].
    + intros [[_ Hp]|[_ (m & ? & _)]]; [|done]. inversion Hp; subst. constructor.
  - split.
    + intros (y & Hy & Hyx)%nsteps_inv_r. apply new_child_edge in Hyx.
      apply IH in Hy as [[Hyn Hy]|[Hyn _]].
      * destruct Hyx as [Hyx|[Hy1 Hy2]].
        -- left. split; [by apply (Hsrc _ _ Hyx)|]. by eapply nsteps_r.
        -- subst. right. split; [done|]. by exists n.
      * subst y. destruct Hyx as [Hyx|[? _]]; [|done].
        by destruct (Hsrc _ _ Hyx).
    + intros [[Hx Hp]|[Hx (m & Hm & Hp)]].
      2:{ subst x. injection Hm as <-.
          eapply nsteps_r; [|apply new_child_edge; by right].
          apply IH. by left. }
      apply nsteps_inv_r in Hp as (y & Hy & Hyx).
        eapply nsteps_r; [|apply new_child_edge; by left].
        apply IH. left. split; [by apply (Hsrc _ _ Hyx)|done].
Qed.

(** X25.  The depth that [createChildNode] gives a new node is the one
    [recomputeDepths] would give it: on a graph whose depths are up to date,
    adding a child under an existing node, with a new identifier and no
    children of its own, leaves the depths up to date. *)
Theorem createChild_depths_up_to_date :
  recomputeDepths G = Some G → recomputeDepths G1 = Some G1.
Proof.
  intros Hfix. unfold recomputeDepths in *.
  assert (Hpn : parentId ≠ newId).
  { intros Heq. rewrite Heq, Hfresh in Hparent. by destruct Hparent. }
  destruct (G !! "root") as [r|] eqn:Hr.
  2:{ assert (G1 !! "root" = None) as ->; [|done].
      unfold G1. rewrite createChildNode_lookup.
      destruct (decide ("root" = parentId)) as [<-|_].
      - rewrite Hr in Hparent. by destruct Hparent.
      - by rewrite decide_False. }
  destruct (proj2 (new_child_is_Some "root") ltac:(right; eauto)) as [r1 ->].
  unfold targetDepths in *.
  destruct (bfsLoop_terminates G (S (size G)) ["root"] {["root" := 0%Z]})
    as (td & Hrun & Hinv).
  { apply bfsInv_init. eauto. }
  { rewrite map_size_singleton. simpl. lia. }
  destruct (bfsLoop_terminates G1 (S (size G1)) ["root"] {["root" := 0%Z]})
    as (td1 & Hrun1 & Hinv1).
  { apply bfsInv_init. apply new_child_is_Some. right. eauto. }
  { rewrite map_size_singleton. simpl. lia. }
  rewrite Hrun in Hfix. rewrite Hrun1. simpl in *. f_equal.
  assert (Hdepth : ∀ k n d, G !! k = Some n → td !! k = Some d →
                            depth n = Some d).
  { intros k n d Hk Hd. injection Hfix as Hfix.
    assert (Hl : map_imap (λ id node, Some (applyDepth td id node)) G !! k
                 = Some n) by by rewrite Hfix.
    rewrite map_lookup_imap, Hk in Hl. simpl in Hl. injection Hl as Hl.
    rewrite <- Hl, depth_applyDepth. by rewrite Hd. }
  (* the recorded depths are the lengths of the shortest paths *)
  assert (Hshort : ∀ (H : Graph) t x d, bfsInv H [] t → t !! x = Some d →
            ∃ n, d = Z.of_nat n ∧ nsteps (nodeEdge H) n "root" x ∧
                 ∀ m, nsteps (nodeEdge H) m "root" x → n ≤ m).
  { intros H t x d HinvH Hx.
    pose proof HinvH as (_ & Hpath & _). destruct (Hpath x d Hx) as (n & -> & Hn).
    exists n. split_and!; [done|done|]. intros m Hm.
    destruct (bfs_complete H t m x HinvH Hm) as (d' & Hd' & Hle).
    rewrite Hx in Hd'. injection Hd' as <-. lia. }
  apply map_eq. intros k. rewrite map_lookup_imap.
  destruct (G1 !! k) as [n1|] eqn:Hk; [|done]. simpl. f_equal.
  unfold applyDepth. destruct (td1 !! k) as [want|] eqn:Hwant; [|done].
  destruct (decide (depth n1 ≠ Some want)) as [Hne|]; [|done].
  exfalso. apply Hne. clear Hne.
  destruct (Hshort G1 td1 k want Hinv1 Hwant) as (n & -> & Hn & Hmin).
  apply new_child_paths in Hn as [[Hkn Hn]|[-> (m & -> & Hm)]].
  - (* an old node: its shortest path is an old path *)
    destruct (bfs_complete G td n k Hinv Hn) as (d & Hd & Hle).
    destruct (Hshort G td k d Hinv Hd) as (n' & -> & Hn' & _).
    assert (n ≤ n') by (apply Hmin, new_child_paths; by left).
    assert (n' = n) as -> by lia.
    unfold G1 in Hk. rewrite createChildNode_lookup in Hk.
    destruct (decide (k = parentId)) as [->|Hkp].
    + destruct Hparent as [pn Hpn']. rewrite Hpn' in Hk.
      injection Hk as <-. simpl. by eapply Hdepth.
    + rewrite decide_False in Hk by done. by eapply Hdepth.
  - (* the new node: one step below its parent *)
    destruct (bfs_complete G td m parentId Hinv Hm) as (d & Hd & Hle).
    destruct (Hshort G td parentId d Hinv Hd) as (n' & -> & Hn' & _).
    assert (S m ≤ S n').
    { apply Hmin, new_child_paths. right. split; [done|]. by exists n'. }
    assert (n' = m) as -> by lia.
    unfold G1 in Hk. rewrite createChildNode_lookup in Hk.
    rewrite decide_False, decide_True in Hk by done.
    injection Hk as <-. destruct Hparent as [pn Hpn'].
    rewrite Hpn'. simpl. rewrite (Hdepth _ _ _ Hpn' Hd). simpl.
    f_equal. lia.
Qed.

End new_child.

Lemma createChild_depths_up_to_date_witness :
  recomputeDepths (createChildNode "n1" "root" emptyPatch rootAndA)
  = Some (createChildNode "n1" "root" emptyPatch rootAndA).
Proof.
  apply (createChild_depths_up_to_date "n1" "root" emptyPatch rootAndA).
  - by eexists.
  - reflexivity.
  - refine (bool_decide_unpack _ _). vm_compute. exact I.
  - reflexivity.
  - discriminate.
  - by vm_compute.
Defined.

(** ** An advanced task in the sidebar *)

Lemma isDigit_digit (n : Z) :
  isDigit (ascii_of_nat (48 + Z.to_nat (n mod 10))) = true.
Proof.
  pose proof (Z.mod_pos_bound n 10 ltac:(lia)).
  unfold isDigit. rewrite nat_ascii_embedding by lia.
  apply andb_true_iff. split; apply Nat.leb_le; lia.
Qed.

Lemma dateShape_date (y m d : Z) :
  dateShape (padDigits 4 y +:+ String "-" (padDigits 2 m +:+ String "-"
                                                    (padDigits 2 d))) = true ∧
  padDigits 4 y +:+ String "-" (padDigits 2 m +:+ String "-" (padDigits 2 d))
  ≠ "".
Proof.
  set (dig := λ n : Z, ascii_of_nat (48 + Z.to_nat (n mod 10))).
  assert (Htext :
    padDigits 4 y +:+ String "-" (padDigits 2 m +:+ String "-" (padDigits 2 d))
    = String (dig (y / 10 / 10 / 10)%Z) (String (dig (y / 10 / 10)%Z)
        (String (dig (y / 10)%Z) (String (dig y) (String "-"
        (String (dig (m / 10)%Z) (String (dig m) (String "-"
        (String (dig (d / 10)%Z) (String (dig d) "")))))))))) by reflexivity.
  rewrite Htext. split; [|done].
  cbn [dateShape dateShapeHere]. unfold dig. rewrite !isDigit_digit. done.
Qed.

(** X26.  What the sidebar shows of a task that the advancement effect has
    just moved, for a host whose [Number] reads strings of digits, a day
    [today] after the first day of the year 100 and a step that does not
    lead past the last day of the year 9999 (between these [toISOString]
    writes a year of four digits), the guard of 1000 steps not being hit.
    The task is reopened with the date [dueDate + k * repeatDays] for the
    first [k >= 1] whose date is not before today: that date is today or
    later, and one step earlier it is before today.  The text stored is the
    UTC day of that date, and the sidebar reads it back as such.  Where
    local time is not ahead of UTC the task is listed only when the date is
    today; where it is ahead, the stored day is one day early, so a task
    whose next date is today is listed as overdue and one whose next date is
    tomorrow as due today. *)
Theorem advanced_task_in_sidebar (ahead : Z → bool) (loc : JsLocale)
    (today : Z) (tid : string) (n : Node) (s : string) (step due : Z) :
  let host := {| toNumber := digitsValue 0%Z; utcAhead := ahead |} in
  type n = Some "task" → completed n = Some true →
  dueDate n = Some s → repeatDays n = Some step → (0 < step)%Z →
  @parseDue host s = Some due → (due < today)%Z →
  (today ≤ due + 1000 * step)%Z →
  (daysFromCivil 100 1 1 < today)%Z →
  (today + step ≤ daysFromCivil 9999 12 31)%Z →
  ∃ (k : nat) (n' : Node),
    let due' := (due + Z.of_nat k * step)%Z in
    let stored := if ahead due' then (due' - 1)%Z else due' in
    1 ≤ k ≤ 1000 ∧ (due' - step < today ≤ due')%Z ∧
    @advanceNode host today n = Some n' ∧
    completed n' = Some false ∧ type n' = Some "task" ∧
    (∃ text, dueDate n' = Some text ∧ @parseDue host text = Some stored) ∧
    @SidebarTasks host loc [tid] today {[tid := n']}
    = (if (stored <=? today)%Z then [mkSidebarTask tid n' stored] else []) ∧
    (ahead due' = false →
       (stored ≤ today)%Z ↔ due' = today) ∧
    (ahead due' = true →
       (stored ≤ today)%Z ↔ (due' = today ∨ due' = today + 1)%Z).
Proof.
  cbv zeta. intros Htype Hdone Hs Hstep Hpos Hparse Hpast Hcap Hlow Hhigh.
  set (host := {| toNumber := digitsValue 0%Z; utcAhead := ahead |}).
  assert (Hdue : (Z.abs due ≤ 100000000)%Z).
  { unfold parseDue in Hparse.
    destruct (splitOn "-" s) as [|p0 [|p1 [|p2 [|p3 l]]]]; try done.
    destruct (toNumber p0), (toNumber p1), (toNumber p2); try done.
    cbv zeta in Hparse.
    destruct (Z.leb_spec (Z.abs (makeDay z (z0 - 1) z1)) 100000000);
      [|done].
    by injection Hparse as <-. }
  assert (Hd100 : daysFromCivil 100 1 1 = (-683003)%Z) by reflexivity.
  assert (Hd9999 : daysFromCivil 9999 12 31 = 2932896%Z) by reflexivity.
  rewrite Hd100 in Hlow. rewrite Hd9999 in Hhigh.
  destruct (advanceLoop_spec 1000 step today due Hpos)
    as (k & Hk & Hbefore & Hin & Hend).
  assert (1 ≤ k) as Hk1.
  { destruct Hend as [(_ & _ & [?|?])|(_ & ? & _)]; [|lia|lia].
    destruct k as [|k]; lia. }
  assert (Hprev : (due + Z.of_nat k * step - step < today)%Z).
  { specialize (Hbefore (k - 1) ltac:(lia)).
    replace (Z.of_nat (k - 1)) with (Z.of_nat k - 1)%Z in Hbefore by lia.
    lia. }
  destruct Hend as [(Hloop & _ & Hstop)|(_ & _ & Hout)]; [|lia].
  assert (Hreach : (today ≤ due + Z.of_nat k * step)%Z).
  { destruct Hstop as [?| ->]; [done|]. lia. }
  set (due' := (due + Z.of_nat k * step)%Z) in *.
  assert (Hadv : @advanceNode host today n
                 = Some (setDueAndReopen (@isoDate host due') n)).
  { rewrite (@advanceNode_run host today n s step due) by done.
    rewrite Hloop. rewrite decide_True by (unfold due'; lia). done. }
  assert (Hrange : (daysFromCivil 100 1 1
                    ≤ (if ahead due' then (due' - 1)%Z else due')
                    ≤ daysFromCivil 9999 12 31)%Z).
  { rewrite Hd100, Hd9999. destruct (ahead due'); lia. }
  destruct (isoDate_text ahead due' Hrange)
    as (y & m & d & Htext & Hy & Hm & Hd & Hmake & Habs).
  fold host in Htext.
  destruct (dateShape_date y m d) as [Hshape Hnonempty].
  assert (Hsplit : splitOn "-" (@isoDate host due')
                   = [padDigits 4 y; padDigits 2 m; padDigits 2 d]).
  { rewrite Htext. apply splitOn_date; rewrite ?Hy, ?Hm, ?Hd; eauto. }
  exists k, (setDueAndReopen (@isoDate host due') n).
  split_and!; [lia|lia|lia|lia|done|done|done| | | |].
  - exists (@isoDate host due'). split; [done|].
    unfold parseDue. rewrite Hsplit. cbn [toNumber host].
    rewrite Hy, Hm, Hd. cbv zeta. by rewrite Hmake, Habs.
  - unfold SidebarTasks, sidebarParsed, entriesIn.
    cbn [omap list_omap]. rewrite lookup_singleton_eq.
    cbn [fmap option_fmap option_map omap list_omap].
    assert (Hlisted : sidebarListed
              (setDueAndReopen (@isoDate host due') n) = true).
    { unfold sidebarListed. cbn [type dueDate completed setDueAndReopen].
      rewrite Htype, Htext.
      rewrite (proj2 (String.eqb_neq _ "") Hnonempty). done. }
    rewrite Hlisted.
    cbn [dueDate setDueAndReopen default from_option id].
    assert (Hread : @sidebarDue host (@isoDate host due')
            = Some (if ahead due' then (due' - 1)%Z else due')).
    { unfold sidebarDue. rewrite Hsplit, Htext, Hshape.
      cbn [toNumber host]. rewrite Hy, Hm, Hd. cbv zeta.
      by rewrite Hmake, Habs. }
    rewrite Hread. cbn [mbind option_bind].
    by destruct (_ <=? today)%Z.
  - intros ->. lia.
  - intros ->. lia.
Qed.

Lemma advanced_task_in_sidebar_witness :
  let east := {| toNumber := digitsValue 0%Z; utcAhead := λ _, true |} in
  ∃ n', @advanceNode east 19739%Z (repeating 7) = Some n' ∧
    completed n' = Some false ∧
    st_due <$> @SidebarTasks east codeUnitLocale ["t"] 19739%Z {[ "t" := n' ]}
    = [19738%Z].
Proof.
  cbv zeta.
  destruct (advanced_task_in_sidebar (λ _, true) codeUnitLocale 19739%Z "t"
              (repeating 7) "2020-01-01" 7%Z 18262%Z)
    as (k & n' & Hk & [Hprev Hreach] & Hadv & Hopen & _ & _ & Hside & _).
  - reflexivity.
  - reflexivity.
  - reflexivity.
  - reflexivity.
  - lia.
  - reflexivity.
  - lia.
  - lia.
  - by vm_compute.
  - by vm_compute.
  - exists n'. split; [exact Hadv|]. split; [exact Hopen|].
    rewrite Hside. cbn [negb].
    assert (18262 + Z.of_nat k * 7 = 19739)%Z as -> by lia.
    reflexivity.
Defined.

(** X27.  The two readers of a due date, the one of the advancement effect
    and the one of the sidebar, give the same day wherever both read the
    text: the first reads a text of exactly three parts, of any shape, the
    second a text that contains the shape [dddd-dd-dd], whatever follows its
    first three parts. *)
Theorem date_readers_agree `{JsHost} (s : string) (d : Z) :
  (parseDue s = Some d → dateShape s = true → sidebarDue s = Some d) ∧
  (sidebarDue s = Some d → length (splitOn "-" s) = 3 → parseDue s = Some d) ∧
  (parseDue s = Some d → length (splitOn "-" s) = 3) ∧
  (sidebarDue s = Some d → dateShape s = true).
Proof.
  unfold parseDue, sidebarDue. split_and!.
  - intros Hp ->. by destruct (splitOn "-" s) as [|p0 [|p1 [|p2 [|p3 l]]]].
  - destruct (dateShape s); [|done].
    by destruct (splitOn "-" s) as [|p0 [|p1 [|p2 [|p3 l]]]].
  - by destruct (splitOn "-" s) as [|p0 [|p1 [|p2 [|p3 l]]]].
  - by destruct (dateShape s).
Qed.

Example date_readers_differ :
  (parseDue "2024-1-5", sidebarDue "2024-1-5") = (Some 19727%Z, None) ∧
  (parseDue "2024-01-05-x", sidebarDue "2024-01-05-x")
  = (None, Some 19727%Z).
Proof. by vm_compute. Qed.
